(** * GENEHIVE: the genetic risk engine and the tree layout engine

    A shallow embedding of [GeneticSimulator] (src/utils/geneticSimulation.ts,
    stored in the second half of src/src/utils/autoSave.ts) and of
    [TreeLayoutEngine] (src/src/utils/treeLayout.ts), with the properties of
    both engines stated and proved over the embedding; and of the code around
    them: the predefined catalog (src/src/data/diseases.ts), the selectors of
    the member form (src/src/components/FamilyMemberForm.tsx), the lists of
    the risk panel (RiskAnalysisPanel, stored in src/unnamed/part_002), the
    deletion of a member (App, stored in src/unnamed/part_001) and the
    auto-save manager (the first half of src/src/utils/autoSave.ts).

    Conventions of the embedding.
    - A JavaScript [number] that carries a probability, a spacing or a
      coordinate is a real number ([R]): the arithmetic is the exact one and
      IEEE rounding is outside the model.  Array lengths, indices and
      generations are [nat]; the 32-bit arithmetic of [hashString] is done in
      [Z] with its wrap-around written out.
    - A JavaScript object used as a dictionary ([riskScores]) and a [Map]
      keyed by strings are [gmap string _]; a [Set] of strings is
      [gset string]; a [Map] whose iteration order matters is an association
      list in insertion order.
    - The members array is a store (a list of records); code that assigns a
      field of a member object updates the store at the slot of that object.
    - A loop whose termination is not structural takes a fuel argument and
      returns [None] when the fuel runs out. *)

From Stdlib Require Import Reals Lra Lia ZArith.
From stdpp Require Import gmap strings list fin_maps pretty sorting.

Set Warnings "-clear-no-such-hyp,-register-all".


(** ** Data model (src/types) *)

Inductive Gender := male | female.

Definition Gender_eqb (a b : Gender) : bool :=
  match a, b with
  | male, male | female, female => true
  | _, _ => false
  end.

Inductive DiseaseType := dominant | recessive | x_linked | multifactorial.

Record Position3D := mkPosition3D { x : R; y : R; z : R }.

Module Disease.
Record t := mk {
  id : string;
  name : string;
  type : DiseaseType;
  prevalence : R;
  penetrance : R;
  description : string;
  color : string
}.
End Disease.

Module FamilyMember.
Record t := mk {
  id : string;
  name : string;
  age : R;
  gender : Gender;
  parentIds : list string;
  childrenIds : list string;
  diseases : list Disease.t;
  riskScores : gmap string R;
  position : Position3D;
  generation : nat
}.

(** [member.riskScores = rs] *)
Definition set_riskScores (rs : gmap string R) (m : t) : t :=
  mk (id m) (name m) (age m) (gender m) (parentIds m) (childrenIds m)
     (diseases m) rs (position m) (generation m).

(** [member.generation = g] *)
Definition set_generation (g : nat) (m : t) : t :=
  mk (id m) (name m) (age m) (gender m) (parentIds m) (childrenIds m)
     (diseases m) (riskScores m) (position m) g.

(** [member.position = p] *)
Definition set_position (p : Position3D) (m : t) : t :=
  mk (id m) (name m) (age m) (gender m) (parentIds m) (childrenIds m)
     (diseases m) (riskScores m) p (generation m).
End FamilyMember.

(** The [explanation] field of the source record is display text built with
    [toFixed]; it does not feed back into any computation and is left out. *)
Record GeneticRisk := mkGeneticRisk {
  memberId : string;
  diseaseId : string;
  riskScore : R;
  inheritancePattern : string
}.

Record TreeLayoutConfig := mkTreeLayoutConfig {
  generationSpacing : R;
  siblingSpacing : R;
  branchSpacing : R
}.

(** [new Map(members.map(m => [m.id, m]))]: the map holds references to the
    member objects, here their slots in the array; a later member with the
    same id replaces an earlier one. *)
Definition slotMap (members : list FamilyMember.t) : gmap string nat :=
  (foldl (λ '(mp, slot) m, (<[FamilyMember.id m := slot]> mp, S slot))
         (∅, 0) members).1.

(** ** The risk engine *)

Module GeneticSimulator.

Local Open Scope R_scope.

Record ParentalRisk := mkParentalRisk { risk : R; pattern : string }.

(** [m.diseases.some(d => d.id === disease.id)] *)
Definition isAffected (disease : Disease.t) (m : FamilyMember.t) : bool :=
  existsb (λ d, String.eqb (Disease.id d) (Disease.id disease))
          (FamilyMember.diseases m).

Definition calculateDominantRisk
    (affectedParents allParents : list FamilyMember.t) : ParentalRisk :=
  if length affectedParents =? 0 then
    mkParentalRisk 0 "no affected parents"
  else if length affectedParents =? 1 then
    mkParentalRisk 0.5 "autosomal dominant (one parent)"
  else
    mkParentalRisk 0.75 "autosomal dominant (both parents)".

Definition calculateRecessiveRisk
    (affectedParents allParents : list FamilyMember.t) : ParentalRisk :=
  if length affectedParents =? 0 then
    let carrierFreq := sqrt 0.01 in
    mkParentalRisk (carrierFreq * 0.25) "autosomal recessive (carrier risk)"
  else if length affectedParents =? 1 then
    mkParentalRisk 0.5 "autosomal recessive (one affected parent)"
  else
    mkParentalRisk 1 "autosomal recessive (both parents affected)".

Definition calculateXLinkedRisk
    (affectedParents allParents : list FamilyMember.t)
    (childGender : Gender) : ParentalRisk :=
  let affectedMother :=
    List.find (λ p, Gender_eqb (FamilyMember.gender p) female) affectedParents in
  let affectedFather :=
    List.find (λ p, Gender_eqb (FamilyMember.gender p) male) affectedParents in
  match childGender with
  | male =>
      if affectedMother is Some _ then
        mkParentalRisk 0.5 "X-linked (affected mother, male child)"
      else
        mkParentalRisk 0 "X-linked (male child, no affected mother)"
  | female =>
      if affectedFather is Some _ then
        if affectedMother is Some _ then
          mkParentalRisk 0.5 "X-linked (both parents affected, female child)"
        else
          mkParentalRisk 0.25 "X-linked (one parent affected, female child)"
      else if affectedMother is Some _ then
        mkParentalRisk 0.25 "X-linked (one parent affected, female child)"
      else
        mkParentalRisk 0 "X-linked (no affected parents, female child)"
  end.

Definition calculateMultifactorialRisk
    (affectedParents allParents : list FamilyMember.t) : ParentalRisk :=
  let baseRisk : R := 0.05 in
  let riskMultiplier : R := 2.5 in
  let risk := (baseRisk * riskMultiplier ^ length affectedParents)%R in
  mkParentalRisk (Rmin risk 0.8)
    ("multifactorial (" +:+ pretty (length affectedParents)
       +:+ " affected parents)").

(** The [default] branch of the source's [switch] is unreachable for a
    value of the declared union type. *)
Definition calculateParentalRisk
    (parents : list FamilyMember.t) (disease : Disease.t)
    (childGender : Gender) : ParentalRisk :=
  let affectedParents := List.filter (isAffected disease) parents in
  match Disease.type disease with
  | dominant => calculateDominantRisk affectedParents parents
  | recessive => calculateRecessiveRisk affectedParents parents
  | x_linked => calculateXLinkedRisk affectedParents parents childGender
  | multifactorial => calculateMultifactorialRisk affectedParents parents
  end.

Definition combineRisks (risk1 risk2 : R) : R :=
  (1 - (1 - risk1) * (1 - risk2))%R.

(** [member.parentIds.map(id => memberMap.get(id)).filter(Boolean)]: the
    parents are read through the map's references, that is from the
    members array as it is at this moment ([store]). *)
Definition resolveParents (store : list FamilyMember.t)
    (memberMap : gmap string nat) (member : FamilyMember.t)
    : list FamilyMember.t :=
  omap (λ pid, memberMap !! pid ≫= λ a, store !! a)
       (FamilyMember.parentIds member).

Definition calculateMemberDiseaseRisk (store : list FamilyMember.t)
    (member : FamilyMember.t) (disease : Disease.t)
    (memberMap : gmap string nat) : GeneticRisk :=
  if isAffected disease member then
    mkGeneticRisk (FamilyMember.id member) (Disease.id disease) 1 "affected"
  else
    let riskScore := Disease.prevalence disease in
    let inheritancePattern := "population" in
    let parents := resolveParents store memberMap member in
    let '(riskScore, inheritancePattern) :=
      if (0 <? length parents)%nat then
        let parentalRisk :=
          calculateParentalRisk parents disease (FamilyMember.gender member) in
        (combineRisks riskScore (risk parentalRisk), pattern parentalRisk)
      else (riskScore, inheritancePattern) in
    let riskScore := (riskScore * Disease.penetrance disease)%R in
    let riskScore := Rmin riskScore 0.95 in
    mkGeneticRisk (FamilyMember.id member) (Disease.id disease)
                  riskScore inheritancePattern.

(** [members.forEach(member => { ... member.riskScores[disease.id] = ... })]:
    [done] are the members already updated in place, [todo] the ones still
    to come; the array the map refers to is [done ++ todo]. *)
Fixpoint diseaseRisksLoop (disease : Disease.t) (memberMap : gmap string nat)
    (done todo : list FamilyMember.t) (risks : list GeneticRisk)
    : list GeneticRisk * list FamilyMember.t :=
  match todo with
  | [] => (risks, done)
  | member :: rest =>
      let risk :=
        calculateMemberDiseaseRisk (done ++ todo) member disease memberMap in
      let member' :=
        FamilyMember.set_riskScores
          (<[Disease.id disease := riskScore risk]>
             (FamilyMember.riskScores member)) member in
      diseaseRisksLoop disease memberMap (done ++ [member']) rest
                       (risks ++ [risk])
  end.

Definition calculateDiseaseRisks (members : list FamilyMember.t)
    (disease : Disease.t) : list GeneticRisk * list FamilyMember.t :=
  let memberMap := slotMap members in
  diseaseRisksLoop disease memberMap [] members [].

(** Returns the risks and the members array as the call leaves it. *)
Definition calculateFamilyRisks (members : list FamilyMember.t)
    (diseases : list Disease.t) : list GeneticRisk * list FamilyMember.t :=
  let members := map (FamilyMember.set_riskScores ∅) members in
  foldl (λ '(risks, members) disease,
           let '(diseaseRisks, members) :=
             calculateDiseaseRisks members disease in
           (risks ++ diseaseRisks, members))
        ([], members) diseases.

End GeneticSimulator.

(** ** The layout engine *)

(** A reference to a member object as the layout engine holds it in its
    queue, its map and its generation lists: the slot of the object in the
    members array, and the three fields the engine reads through the
    reference.  No code of the engine assigns [id], [parentIds] or
    [childrenIds]; what it writes through a reference ([generation]) goes to
    the store at [slot]. *)
Record MemberRef := mkMemberRef {
  slot : nat;
  ref_id : string;
  ref_parentIds : list string;
  ref_childrenIds : list string
}.

Definition refOf (slot : nat) (m : FamilyMember.t) : MemberRef :=
  mkMemberRef slot (FamilyMember.id m) (FamilyMember.parentIds m)
              (FamilyMember.childrenIds m).

(** The members array, as references. *)
Definition memberRefs (members : list FamilyMember.t) : list MemberRef :=
  imap refOf members.

(** [new Map(members.map(m => [m.id, m]))], as references. *)
Definition refMap (members : list FamilyMember.t) : gmap string MemberRef :=
  foldl (λ mp r, <[ref_id r := r]> mp) ∅ (memberRefs members).

(** The result of [calculateBoundingBox]. *)
Module BoundingBox.
Record t := mk { min : Position3D; max : Position3D; center : Position3D }.
End BoundingBox.

Module TreeLayoutEngine.

Local Open Scope R_scope.

Definition DEFAULT_CONFIG : TreeLayoutConfig := mkTreeLayoutConfig 4 3 2.

(** The state of the traversal: the queue, the visited set, the members
    array and the [generations] map (keys in insertion order). *)
Record BfsState := mkBfsState {
  queue : list (MemberRef * nat);
  visited : gset string;
  store : list FamilyMember.t;
  generations : list (nat * list MemberRef)
}.

(** [if (!generations.has(g)) generations.set(g, []);
     generations.get(g).push(member)] *)
Fixpoint pushGeneration (generations : list (nat * list MemberRef))
    (g : nat) (member : MemberRef) : list (nat * list MemberRef) :=
  match generations with
  | [] => [(g, [member])]
  | (g', l) :: rest =>
      if (g' =? g)%nat then (g', l ++ [member]) :: rest
      else (g', l) :: pushGeneration rest g member
  end.

(** [member.childrenIds.forEach(childId => ...)]: the children that
    resolve and are not visited are appended to the queue. *)
Definition enqueueChildren (memberMap : gmap string MemberRef)
    (visited : gset string) (generation : nat) (childrenIds : list string)
    (queue : list (MemberRef * nat)) : list (MemberRef * nat) :=
  foldl (λ queue childId,
           match memberMap !! childId with
           | Some child =>
               if decide (childId ∈ visited) then queue
               else queue ++ [(child, S generation)]
           | None => queue
           end) queue childrenIds.

(** The body of the [while] loop, for the item just shifted off the queue;
    [st] has the rest of the queue. *)
Definition bfsBody (memberMap : gmap string MemberRef)
    (item : MemberRef * nat) (st : BfsState) : BfsState :=
  let '(member, generation) := item in
  if decide (ref_id member ∈ visited st) then st
  else
    let visited := visited st ∪ {[ref_id member]} in
    let store :=
      alter (FamilyMember.set_generation generation) (slot member) (store st) in
    let generations := pushGeneration (generations st) generation member in
    let queue :=
      enqueueChildren memberMap visited generation (ref_childrenIds member)
                      (queue st) in
    mkBfsState queue visited store generations.

(** [while (queue.length > 0) { ... }] *)
Fixpoint bfsLoop (fuel : nat) (memberMap : gmap string MemberRef)
    (st : BfsState) : option BfsState :=
  match queue st with
  | [] => Some st
  | item :: rest =>
      match fuel with
      | O => None
      | S fuel =>
          bfsLoop fuel memberMap
            (bfsBody memberMap item
               (mkBfsState rest (visited st) (store st) (generations st)))
      end
  end.

(** Enough iterations for any input: every iteration either drops a queue
    item or visits a member, and a visit enqueues at most the children of
    the member visited. *)
Definition bfsFuel (members : list FamilyMember.t) : nat :=
  length members
  + sum_list ((λ m, length (FamilyMember.childrenIds m)) <$> members).

(** Returns the members array as the traversal leaves it, and the map. *)
Definition organizeByGenerations (members : list FamilyMember.t)
    (memberMap : gmap string MemberRef)
    : option (list FamilyMember.t * list (nat * list MemberRef)) :=
  let roots :=
    List.filter (λ m, (length (ref_parentIds m) =? 0)%nat) (memberRefs members) in
  let queue := (λ member, (member, 0%nat)) <$> roots in
  st ← bfsLoop (bfsFuel members) memberMap (mkBfsState queue ∅ members []);
  Some (store st, generations st).

(** [x | 0]: a number to a signed 32-bit integer. *)
Definition toInt32 (n : Z) : Z :=
  ((n + 2 ^ 31) mod 2 ^ 32 - 2 ^ 31)%Z.

(** The characters are the bytes of the string; on ASCII ids these are the
    UTF-16 code units [charCodeAt] returns. *)
Definition hashString (str : string) : Z :=
  let hash :=
    foldl (λ hash c,
             let char := Z.of_nat (Ascii.nat_of_ascii c) in
             let hash := (toInt32 (Z.shiftl hash 5) - hash + char)%Z in
             Z.land (toInt32 hash) (toInt32 hash))
          0%Z (String.list_ascii_of_string str) in
  Z.abs hash.

Definition calculateZPosition (member : MemberRef)
    (memberMap : gmap string MemberRef) : R :=
  let hash := hashString (ref_id member) in
  IZR (Z.rem hash 5 - 2).

Definition haveSameParents (member1 member2 : MemberRef) : bool :=
  if negb (length (ref_parentIds member1) =? length (ref_parentIds member2))%nat
  then false
  else
    let parents1 : gset string := list_to_set (ref_parentIds member1) in
    let parents2 : gset string := list_to_set (ref_parentIds member2) in
    (size parents1 =? size parents2)%nat
    && forallb (λ id, bool_decide (id ∈ parents2)) (elements parents1).

Definition findSiblings (member : MemberRef)
    (generationMembers : list MemberRef)
    (memberMap : gmap string MemberRef) : list MemberRef :=
  if (length (ref_parentIds member) =? 0)%nat then [member]
  else List.filter (λ other, haveSameParents member other) generationMembers.

Definition groupSiblings (members : list MemberRef)
    (memberMap : gmap string MemberRef) : list (list MemberRef) :=
  (foldl (λ '(groups, processed) member,
            if decide (ref_id member ∈ processed) then (groups, processed)
            else
              let siblings := findSiblings member members memberMap in
              let processed :=
                foldl (λ processed sibling, processed ∪ {[ref_id sibling]})
                      processed siblings in
              (groups ++ [siblings], processed))
         ([], (∅ : gset string)) members).1.

(** [const m = allMembers.find(m => m.id === id); if (m) m.position = pos] *)
Fixpoint assignPosition (id : string) (pos : Position3D)
    (allMembers : list FamilyMember.t) : list FamilyMember.t :=
  match allMembers with
  | [] => []
  | m :: rest =>
      if String.eqb (FamilyMember.id m) id
      then FamilyMember.set_position pos m :: rest
      else m :: assignPosition id pos rest
  end.

(** Returns [allMembers] as the call leaves it. *)
Definition positionGeneration (generationMembers : list MemberRef)
    (generation : nat) (config : TreeLayoutConfig)
    (memberMap : gmap string MemberRef) (allMembers : list FamilyMember.t)
    : list FamilyMember.t :=
  let siblingGroups := groupSiblings generationMembers memberMap in
  let y := - INR generation * generationSpacing config in
  (foldl (λ '(currentX, allMembers) siblings,
            let groupWidth :=
              (INR (length siblings) - 1) * siblingSpacing config in
            let startX := currentX - groupWidth / 2 in
            let allMembers :=
              foldl (λ allMembers '(index, member),
                       assignPosition (ref_id member)
                         (mkPosition3D
                            (startX + INR index * siblingSpacing config)
                            y
                            (calculateZPosition member memberMap))
                         allMembers)
                    allMembers (imap pair siblings) in
            (currentX + groupWidth + branchSpacing config, allMembers))
         (0, allMembers) siblingGroups).2.

(** Returns the members array as the call leaves it (the traversal writes
    [generation] into the caller's objects) and the positioned copies. *)
Definition calculateLayout (members : list FamilyMember.t)
    (config : TreeLayoutConfig)
    : option (list FamilyMember.t * list FamilyMember.t) :=
  let memberMap := refMap members in
  '(members, generations) ← organizeByGenerations members memberMap;
  let positionedMembers := members in
  let positionedMembers :=
    foldl (λ positionedMembers '(generation, generationMembers),
             positionGeneration generationMembers generation config
                                memberMap positionedMembers)
          positionedMembers generations in
  Some (members, positionedMembers).

(** The recursion has no structural bound; [fuel] bounds its depth. *)
Fixpoint countDescendants (fuel : nat) (member : MemberRef)
    (memberMap : gmap string MemberRef) : option nat :=
  match fuel with
  | O => None
  | S fuel =>
      foldl (λ count childId,
               count ← count;
               match memberMap !! childId with
               | Some child =>
                   n ← countDescendants fuel child memberMap;
                   Some (count + n)%nat
               | None => Some count
               end)
            (Some (length (ref_childrenIds member)))
            (ref_childrenIds member)
  end.

(** [Array.prototype.sort] with a comparator that may not return: a
    stable insertion sort, which calls the comparator at least once on any
    array of two or more elements. *)
Fixpoint insertBy {A} (cmp : A → A → option Z) (a : A) (l : list A)
    : option (list A) :=
  match l with
  | [] => Some [a]
  | b :: rest =>
      c ← cmp a b;
      if (c <=? 0)%Z then Some (a :: b :: rest)
      else (b ::.) <$> insertBy cmp a rest
  end.

Fixpoint sortBy {A} (cmp : A → A → option Z) (l : list A) : option (list A) :=
  match l with
  | [] => Some []
  | a :: rest => sorted ← sortBy cmp rest; insertBy cmp a sorted
  end.

(** The sorted generation arrays are local to the function; what it
    returns are the copies in their input order.  [None]: a comparator
    call did not return within [fuel] nested calls. *)
Definition optimizeLayout (fuel : nat) (members : list FamilyMember.t)
    : option (list FamilyMember.t) :=
  let optimized := members in
  let memberMap := refMap optimized in
  let generations :=
    foldl (λ generations '(member, ref),
             pushGeneration generations (FamilyMember.generation member) ref)
          [] (zip optimized (memberRefs optimized)) in
  _ ← mapM (λ '(_, generationMembers),
              sortBy (λ a b,
                        aDescendants ← countDescendants fuel a memberMap;
                        bDescendants ← countDescendants fuel b memberMap;
                        Some (Z.of_nat bDescendants - Z.of_nat aDescendants)%Z)
                     generationMembers)
           generations;
  Some optimized.

(** [Math.min(x, ...xs)] and [Math.max(x, ...xs)]. *)
Definition Math_min (x : R) (xs : list R) : R := foldl Rmin x xs.
Definition Math_max (x : R) (xs : list R) : R := foldl Rmax x xs.

(** The spread [...positions.map(p => p.x)] has at least one element past
    the [members.length === 0] test: the first position is [p]. *)
Definition calculateBoundingBox (members : list FamilyMember.t)
    : BoundingBox.t :=
  match FamilyMember.position <$> members with
  | [] =>
      BoundingBox.mk (mkPosition3D 0 0 0) (mkPosition3D 0 0 0)
                     (mkPosition3D 0 0 0)
  | p :: positions =>
      let min :=
        mkPosition3D (Math_min (x p) (x <$> positions))
                     (Math_min (y p) (y <$> positions))
                     (Math_min (z p) (z <$> positions)) in
      let max :=
        mkPosition3D (Math_max (x p) (x <$> positions))
                     (Math_max (y p) (y <$> positions))
                     (Math_max (z p) (z <$> positions)) in
      let center :=
        mkPosition3D ((x min + x max) / 2) ((y min + y max) / 2)
                     ((z min + z max) / 2) in
      BoundingBox.mk min max center
  end.

End TreeLayoutEngine.

(** ** Sample data

    Two entries of the predefined catalog (src/src/data/diseases.ts) and a
    few small pedigrees, used to run the engines on concrete input. *)

Module Sample.
Local Open Scope R_scope.

Definition marfan : Disease.t :=
  Disease.mk "marfan" "Marfan Syndrome" dominant 0.0002 0.9 "" "#059669".

Definition hemophilia : Disease.t :=
  Disease.mk "hemophilia-a" "Hemophilia A" x_linked 0.00017 1 "" "#be185d".

(** A catalog entry with a zero base rate. *)
Definition rare : Disease.t :=
  Disease.mk "rare" "Rare" dominant 0 1 "" "#000000".

Definition person (id : string) (g : Gender) (parents children : list string)
    (ds : list Disease.t) : FamilyMember.t :=
  FamilyMember.mk id id 0 g parents children ds ∅ (mkPosition3D 0 0 0) 0.

Definition mother : FamilyMember.t :=
  person "mother" female [] ["son"] [marfan; rare].
Definition father : FamilyMember.t :=
  person "father" male [] ["son"] [hemophilia].
Definition son : FamilyMember.t :=
  person "son" male ["father"; "mother"] [] [].

Definition family : list FamilyMember.t := [mother; father; son].

(** Two parents and their two children. *)
Definition household : list FamilyMember.t :=
  [ person "ma" female [] ["kid1"; "kid2"] [];
    person "pa" male [] ["kid1"; "kid2"] [];
    person "kid1" female ["ma"; "pa"] [] [];
    person "kid2" male ["pa"; "ma"] [] [] ].

Definition household_depth (id : string) : nat :=
  if bool_decide (id = "kid1") || bool_decide (id = "kid2") then 1 else 0.

(** A well-formed pedigree whose member "p" has parents of different
    generations: "a" is a root, "b" is the child of the root "c". *)
Definition blended : list FamilyMember.t :=
  [ person "a" female [] ["p"] [];
    person "c" female [] ["b"] [];
    person "b" male ["c"] ["p"] [];
    person "p" male ["a"; "b"] [] [] ].

Definition blended_depth (id : string) : nat :=
  if bool_decide (id = "b") then 1
  else if bool_decide (id = "p") then 2 else 0.

(** A malformed pedigree: each of three members is a parent of the next.
    The member form rejects only a member's own id and the ids of its
    direct children as parents. *)
Definition cycle : list FamilyMember.t :=
  [ person "a" male ["c"] ["b"] [];
    person "b" male ["a"] ["c"] [];
    person "c" male ["b"] ["a"] [] ].

Definition catalog : list Disease.t := [marfan; hemophilia].
End Sample.

(** ** The predefined catalog (src/src/data/diseases.ts) *)

Module Diseases.
Local Open Scope R_scope.

Definition PREDEFINED_DISEASES : list Disease.t :=
  [ Disease.mk "diabetes-t2" "Type 2 Diabetes" multifactorial 0.11 0.8
      "A metabolic disorder characterized by high blood sugar levels due to insulin resistance."
      "#ef4444";
    Disease.mk "heart-disease" "Coronary Heart Disease" multifactorial 0.065 0.7
      "A condition where the coronary arteries become narrowed or blocked."
      "#dc2626";
    Disease.mk "breast-cancer" "Breast Cancer (BRCA)" dominant 0.125 0.65
      "Cancer that forms in the tissues of the breast, often linked to BRCA1/BRCA2 mutations."
      "#f97316";
    Disease.mk "huntingtons" "Huntington's Disease" dominant 0.00005 1
      "A progressive brain disorder that causes uncontrolled movements and cognitive decline."
      "#7c2d12";
    Disease.mk "cystic-fibrosis" "Cystic Fibrosis" recessive 0.0003 1
      "A genetic disorder that affects the lungs and digestive system."
      "#1d4ed8";
    Disease.mk "sickle-cell" "Sickle Cell Disease" recessive 0.0003 1
      "A group of blood disorders where red blood cells become misshapen and break down."
      "#7c3aed";
    Disease.mk "hemophilia-a" "Hemophilia A" x_linked 0.00017 1
      "A bleeding disorder where blood cannot clot properly due to lack of clotting factor VIII."
      "#059669";
    Disease.mk "color-blindness" "Red-Green Color Blindness" x_linked 0.08 1
      "Difficulty distinguishing between red and green colors."
      "#0891b2";
    Disease.mk "alzheimers" "Alzheimer's Disease" multifactorial 0.11 0.6
      "A progressive neurologic disorder that causes brain cells to degenerate and die."
      "#be185d";
    Disease.mk "hypertension" "Essential Hypertension" multifactorial 0.45 0.75
      "High blood pressure with no identifiable cause, influenced by genetic and environmental factors."
      "#c2410c";
    Disease.mk "marfan" "Marfan Syndrome" dominant 0.0002 0.9
      "A connective tissue disorder that affects the heart, blood vessels, bones, and eyes."
      "#0d9488";
    Disease.mk "tay-sachs" "Tay-Sachs Disease" recessive 0.000035 1
      "A rare genetic disorder that progressively destroys nerve cells in the brain and spinal cord."
      "#4338ca" ].

(** The keys of [DISEASE_CATEGORIES]. *)
Inductive Category :=
  | cardiovascular | metabolic | cancer | neurological | respiratory
  | blood | sensory | connective | lysosomal.

Definition categories : list Category :=
  [cardiovascular; metabolic; cancer; neurological; respiratory;
   blood; sensory; connective; lysosomal].

Definition DISEASE_CATEGORIES (category : Category) : list string :=
  match category with
  | cardiovascular => ["heart-disease"; "hypertension"]
  | metabolic => ["diabetes-t2"]
  | cancer => ["breast-cancer"]
  | neurological => ["huntingtons"; "alzheimers"]
  | respiratory => ["cystic-fibrosis"]
  | blood => ["sickle-cell"; "hemophilia-a"]
  | sensory => ["color-blindness"]
  | connective => ["marfan"]
  | lysosomal => ["tay-sachs"]
  end.

Definition getDiseaseById (id : string) : option Disease.t :=
  List.find (λ disease, String.eqb (Disease.id disease) id) PREDEFINED_DISEASES.

(** [diseaseIds.map(id => getDiseaseById(id)).filter(Boolean)] *)
Definition getDiseasesByCategory (category : Category) : list Disease.t :=
  let diseaseIds := DISEASE_CATEGORIES category in
  omap getDiseaseById diseaseIds.

End Diseases.

(** ** The member form (src/src/components/FamilyMemberForm.tsx) *)

Module FamilyMemberForm.
Import Diseases.

(** [ids.includes(id)] *)
Definition includes (id : string) (ids : list string) : bool :=
  existsb (String.eqb id) ids.

(** The new [formData.parentIds] after a click on [parentId]. *)
Definition handleParentToggle (parentId : string) (parentIds : list string)
    : list string :=
  if includes parentId parentIds
  then List.filter (λ id, negb (String.eqb id parentId)) parentIds
  else take 2 (parentIds ++ [parentId]).

(** The new [formData.diseaseIds] after a click on [diseaseId]. *)
Definition handleDiseaseToggle (diseaseId : string) (diseaseIds : list string)
    : list string :=
  if includes diseaseId diseaseIds
  then List.filter (λ id, negb (String.eqb id diseaseId)) diseaseIds
  else diseaseIds ++ [diseaseId].

(** [handleSubmit]: the diseases the saved member carries. *)
Definition selectedDiseases (diseaseIds : list string) : list Disease.t :=
  List.filter (λ d, includes (Disease.id d) diseaseIds) PREDEFINED_DISEASES.

End FamilyMemberForm.

(** ** The risk panel (RiskAnalysisPanel, src/unnamed/part_002) *)

Module RiskAnalysisPanel.
Import GeneticSimulator.
Local Open Scope R_scope.

Record HighRisk := mkHighRisk {
  member : FamilyMember.t;
  maxRisk : R;
  riskCount : nat
}.

(** Returns the risks and the members array as the call leaves it. *)
Definition riskAnalysis (familyMembers : list FamilyMember.t)
    (diseases : list Disease.t) : list GeneticRisk * list FamilyMember.t :=
  if (length familyMembers =? 0)%nat then ([], familyMembers)
  else calculateFamilyRisks familyMembers diseases.

Definition selectedMemberRisks (riskAnalysis : list GeneticRisk)
    (selectedMember : option FamilyMember.t) : list GeneticRisk :=
  match selectedMember with
  | None => []
  | Some selectedMember =>
      List.filter (λ risk, String.eqb (memberId risk)
                                     (FamilyMember.id selectedMember))
                  riskAnalysis
  end.

(** [risk.riskScore > 0.3] *)
Definition above (threshold score : R) : bool :=
  if Rlt_dec threshold score then true else false.

(** The body of [riskAnalysis.forEach]; [memberRiskMap] is the list of its
    keys in insertion order and the table of its values. *)
Definition riskMapStep (familyMembers : list FamilyMember.t)
    (memberRiskMap : list string * gmap string HighRisk) (risk : GeneticRisk)
    : list string * gmap string HighRisk :=
  match List.find (λ m, String.eqb (FamilyMember.id m) (memberId risk))
                  familyMembers with
  | None => memberRiskMap
  | Some member =>
      let '(keys, table) := memberRiskMap in
      match table !! FamilyMember.id member with
      | None =>
          (keys ++ [FamilyMember.id member],
           <[FamilyMember.id member :=
               mkHighRisk member (riskScore risk)
                          (if above 0.3 (riskScore risk) then 1 else 0)]> table)
      | Some existing =>
          (keys,
           <[FamilyMember.id member :=
               mkHighRisk (RiskAnalysisPanel.member existing)
                          (Rmax (maxRisk existing) (riskScore risk))
                          (if above 0.3 (riskScore risk)
                           then S (riskCount existing)
                           else riskCount existing)]> table)
      end
  end.

(** [Array.prototype.sort] with a comparator that always returns: a stable
    insertion sort. *)
Fixpoint insertWith {A} (cmp : A → A → R) (a : A) (l : list A) : list A :=
  match l with
  | [] => [a]
  | b :: rest =>
      if Rle_dec (cmp a b) 0 then a :: b :: rest
      else b :: insertWith cmp a rest
  end.

Definition sortWith {A} (cmp : A → A → R) (l : list A) : list A :=
  foldr (insertWith cmp) [] l.

Definition highRiskMembers (riskAnalysis : list GeneticRisk)
    (familyMembers : list FamilyMember.t) : list HighRisk :=
  let '(keys, table) :=
    foldl (riskMapStep familyMembers) ([], ∅) riskAnalysis in
  let values := omap (λ k, table !! k) keys in
  sortWith (λ a b, maxRisk b - maxRisk a)
           (List.filter (λ item, above 0.3 (maxRisk item)) values).

End RiskAnalysisPanel.

(** ** The application state (App, src/unnamed/part_001) *)

Module App.

(** The two pieces of state [handleDeleteMember] sets. *)
Record State := mkState {
  familyMembers : list FamilyMember.t;
  selectedMember : option FamilyMember.t
}.

Definition handleDeleteMember (memberId : string) (state : State) : State :=
  let familyMembers :=
    List.filter (λ member, negb (String.eqb (FamilyMember.id member) memberId))
                (familyMembers state) in
  let selectedMember :=
    match selectedMember state with
    | Some selected =>
        if String.eqb (FamilyMember.id selected) memberId then None
        else Some selected
    | None => None
    end in
  mkState familyMembers selectedMember.

End App.

(** ** Auto-save (the first half of src/src/utils/autoSave.ts)

    [localStorage] is a table from keys to strings; its calls are taken not
    to throw.  [Date.now()] is an argument of the functions that read the
    clock, a whole number of milliseconds.  [JSON.parse], [JSON.stringify]
    and the JSON value of a member object are parameters: nothing is
    assumed of them but what a statement says.  The interval timer of
    [startAutoSave] and [stopAutoSave] is outside the model. *)

Module AutoSave.
Local Open Scope R_scope.

Definition AUTO_SAVE_KEY : string := "genehive_auto_save".
Definition AUTO_SAVE_TIMESTAMP_KEY : string := "genehive_auto_save_timestamp".

(** What [JSON.parse] returns; the keys of an object are distinct. *)
Inductive Json :=
  | JNull
  | JBool (b : bool)
  | JNumber (n : R)
  | JString (s : string)
  | JArray (items : list Json)
  | JObject (fields : list (string * Json)).

(** [!!value] *)
Definition truthy (value : Json) : bool :=
  match value with
  | JNull => false
  | JBool b => b
  | JNumber n => if Req_dec_T n 0 then false else true
  | JString s => negb (String.eqb s "")
  | JArray _ | JObject _ => true
  end.

Definition isArray (value : Json) : bool :=
  match value with JArray _ => true | _ => false end.

(** [value.key] on a parsed value: [None] when the access throws (the value
    is [null]), [Some None] when it gives [undefined]. *)
Definition getProp (value : Json) (key : string) : option (option Json) :=
  match value with
  | JNull => None
  | JObject fields =>
      Some (snd <$> List.find (λ field, String.eqb field.1 key) fields)
  | _ => Some None
  end.

(** *** [parseInt(string)], with no radix *)

Definition isWhiteSpace (c : Ascii.ascii) : bool :=
  let n := Ascii.N_of_ascii c in
  ((9 <=? n) && (n <=? 13) || (n =? 32))%N.

Fixpoint skipWhiteSpace (s : list Ascii.ascii) : list Ascii.ascii :=
  match s with
  | c :: rest => if isWhiteSpace c then skipWhiteSpace rest else s
  | [] => []
  end.

Definition digitValue (radix : N) (c : Ascii.ascii) : option N :=
  let n := Ascii.N_of_ascii c in
  let d :=
    if ((48 <=? n) && (n <=? 57))%N then Some (n - 48)%N
    else if ((97 <=? n) && (n <=? 122))%N then Some (n - 87)%N
    else if ((65 <=? n) && (n <=? 90))%N then Some (n - 55)%N
    else None in
  d ≫= λ d, if (d <? radix)%N then Some d else None.

(** The value of the longest prefix of digits; [None] when it is empty. *)
Fixpoint parseDigits (radix : N) (acc : option N) (s : list Ascii.ascii)
    : option N :=
  match s with
  | [] => acc
  | c :: rest =>
      match digitValue radix c with
      | Some d => parseDigits radix (Some (default 0 acc * radix + d)%N) rest
      | None => acc
      end
  end.

(** [None] is [NaN].  The digits are read exactly (a JavaScript number
    rounds beyond 2^53). *)
Definition parseInt (str : string) : option Z :=
  let code := Ascii.N_of_ascii in
  let input := skipWhiteSpace (String.list_ascii_of_string str) in
  let '(sign, input) :=
    match input with
    | c :: rest =>
        if (code c =? 45)%N then ((-1)%Z, rest)        (* "-" *)
        else if (code c =? 43)%N then (1%Z, rest)      (* "+" *)
        else (1%Z, input)
    | [] => (1%Z, input)
    end in
  let '(radix, input) :=
    match input with
    | c0 :: c1 :: rest =>
        if ((code c0 =? 48) && ((code c1 =? 120) || (code c1 =? 88)))%N
        then (16%N, rest)                               (* "0x", "0X" *)
        else (10%N, input)
    | _ => (10%N, input)
    end in
  (λ n, sign * Z.of_N n)%Z <$> parseDigits radix None input.

(** [new Date(value)]: the time value, [None] for an invalid date. *)
Definition newDate (value : option Z) : option Z :=
  value ≫= λ t, if (Z.abs t <=? 8640000000000000)%Z then Some t else None.

(** *** The manager *)

Record Manager := mkManager {
  storage : gmap string string;
  lastSaveData : string
}.

Record SaveInfo := mkSaveInfo {
  hasData : bool;
  lastSave : option (option Z);
  isRecent : bool
}.

Record SessionRecoveryInfo := mkSessionRecoveryInfo {
  hasRecoverableData : bool;
  lastSaveTime : option (option Z);
  memberCount : nat;
  recoveryIsRecent : bool
}.

Section Environment.
Variable JSON_parse : string → option Json.
Variable JSON_stringify : Json → string.
Variable toJson : FamilyMember.t → Json.

(** [{ familyMembers, timestamp: Date.now(), version: '1.0' }] *)
Definition saveObject (familyMembers : list FamilyMember.t) (timestamp : Z)
    : Json :=
  JObject [ ("familyMembers", JArray (toJson <$> familyMembers));
            ("timestamp", JNumber (IZR timestamp));
            ("version", JString "1.0") ].

Definition saveData (now : Z) (familyMembers : list FamilyMember.t)
    (this : Manager) : Manager :=
  let dataString := JSON_stringify (saveObject familyMembers now) in
  if negb (String.eqb dataString (lastSaveData this)) then
    let storage := <[AUTO_SAVE_KEY := dataString]> (storage this) in
    let storage := <[AUTO_SAVE_TIMESTAMP_KEY := pretty now]> storage in
    mkManager storage dataString
  else this.

(** [None] is [null]: nothing stored, a string that does not parse, or a
    value without an array under [familyMembers]. *)
Definition loadSavedData (this : Manager) : option Json :=
  match storage this !! AUTO_SAVE_KEY with
  | None => None
  | Some savedData =>
      if String.eqb savedData "" then None
      else
        match JSON_parse savedData with
        | None => None
        | Some parsedData =>
            match getProp parsedData "familyMembers" with
            | None => None
            | Some None => None
            | Some (Some familyMembers) =>
                if negb (truthy familyMembers) || negb (isArray familyMembers)
                then None
                else Some parsedData
            end
        end
  end.

Definition hasRecentSave (maxAgeMinutes : R) (now : Z) (this : Manager)
    : bool :=
  match storage this !! AUTO_SAVE_TIMESTAMP_KEY with
  | None => false
  | Some timestampStr =>
      if String.eqb timestampStr "" then false
      else
        match parseInt timestampStr with
        | None => false
        | Some timestamp =>
            let maxAge := maxAgeMinutes * 60 * 1000 in
            if Rle_dec (IZR (now - timestamp)) maxAge then true else false
        end
  end.

(** [None] is [null]; [Some None] is an invalid [Date]. *)
Definition getLastSaveTime (this : Manager) : option (option Z) :=
  match storage this !! AUTO_SAVE_TIMESTAMP_KEY with
  | None => None
  | Some timestampStr =>
      if String.eqb timestampStr "" then None
      else Some (newDate (parseInt timestampStr))
  end.

Definition clearSavedData (this : Manager) : Manager :=
  let storage := delete AUTO_SAVE_KEY (storage this) in
  let storage := delete AUTO_SAVE_TIMESTAMP_KEY storage in
  mkManager storage "".

Definition getSaveInfo (now : Z) (this : Manager) : SaveInfo :=
  let lastSave := getLastSaveTime this in
  let hasData := bool_decide (loadSavedData this ≠ None) in
  let isRecent := hasRecentSave 60 now this in
  mkSaveInfo hasData lastSave isRecent.

Definition hasUnsavedChanges (currentFamilyMembers : list FamilyMember.t)
    (this : Manager) : bool :=
  match loadSavedData this with
  | None => (0 <? length currentFamilyMembers)%nat
  | Some savedData =>
      let currentDataString :=
        JSON_stringify (JArray (toJson <$> currentFamilyMembers)) in
      match getProp savedData "familyMembers" with
      | Some (Some familyMembers) =>
          negb (String.eqb currentDataString (JSON_stringify familyMembers))
      | _ => true
      end
  end.

Definition getSessionRecoveryInfo (now : Z) (this : Manager)
    : SessionRecoveryInfo :=
  let savedData := loadSavedData this in
  let saveInfo := getSaveInfo now this in
  mkSessionRecoveryInfo
    (hasData saveInfo && bool_decide (savedData ≠ None))
    (lastSave saveInfo)
    (match savedData ≫= λ data, getProp data "familyMembers" with
     | Some (Some (JArray items)) => length items
     | _ => 0%nat
     end)
    (isRecent saveInfo).

End Environment.
End AutoSave.

(** ** Vocabulary of the statements

    The notions the properties below are stated and proved with; none of
    them is part of the engines. *)

Module RiskSpec.
Import GeneticSimulator.
Local Open Scope R_scope.

(** A member with its [riskScores] emptied: everything the risk engine
    reads of a member. *)
Definition erase (m : FamilyMember.t) : FamilyMember.t :=
  FamilyMember.set_riskScores ∅ m.

(** The risk record of member [m] for disease [d] in the pedigree [ms]. *)
Definition riskOf (ms : list FamilyMember.t) (d : Disease.t)
    (m : FamilyMember.t) : GeneticRisk :=
  calculateMemberDiseaseRisk ms m d (slotMap ms).

(** The [riskScores] object of [m] after the diseases [ds], from [rs]. *)
Definition scoresFrom (ms : list FamilyMember.t) (ds : list Disease.t)
    (m : FamilyMember.t) (rs : gmap string R) : gmap string R :=
  foldl (λ rs d, <[Disease.id d := riskScore (riskOf ms d (erase m))]> rs) rs ds.

(** The per-disease pass, one step of [forEach] written out. *)
Definition scored (ms : list FamilyMember.t) (d : Disease.t)
    (m : FamilyMember.t) : FamilyMember.t :=
  FamilyMember.set_riskScores
    (<[Disease.id d := riskScore (riskOf ms d (erase m))]> (FamilyMember.riskScores m)) m.

(** [rs[key d] = val d] for every [d] of [ds], in order. *)
Definition insertAll {A : Type} (key : A → string) (val : A → R)
    (ds : list A) (rs : gmap string R) : gmap string R :=
  foldl (λ rs d, <[key d := val d]> rs) rs ds.

(** A resolved parent of sex [g] who is diagnosed with [d]. *)
Definition hasAffected (parents : list FamilyMember.t) (d : Disease.t)
    (g : Gender) : Prop :=
  ∃ p, p ∈ parents ∧ FamilyMember.gender p = g
       ∧ Disease.id d ∈ Disease.id <$> FamilyMember.diseases p.

(** C5 as the specification states it: a zero prevalence or a zero
    penetrance gives risk 0 to every member who is not diagnosed. *)
Definition zero_rate_gives_zero_risk : Prop :=
  ∀ ms ds i j m d,
    ms !! i = Some m → ds !! j = Some d →
    Disease.prevalence d = 0 ∨ Disease.penetrance d = 0 →
    Disease.id d ∉ Disease.id <$> FamilyMember.diseases m →
    ∃ g, (calculateFamilyRisks ms ds).1 !! (j * length ms + i)%nat = Some g
         ∧ riskScore g = 0.

End RiskSpec.

Module LayoutSpec.
Import TreeLayoutEngine.
Local Open Scope R_scope.

(** What is left to enqueue: the children of the members not visited. *)
Definition pending (refs : list MemberRef) (visited : gset string) : nat :=
  sum_list ((λ r, if decide (ref_id r ∈ visited) then 0%nat
                  else length (ref_childrenIds r)) <$> refs).

(** [member.generation = g] at slot [a], for a list of [(a, g)]. *)
Definition applyWrites (log : list (nat * nat)) (s : list FamilyMember.t)
    : list FamilyMember.t :=
  foldl (λ s w, alter (FamilyMember.set_generation w.2) w.1 s) s log.

(** The last generation written at slot [i], if any. *)
Definition lastWrite (log : list (nat * nat)) (i : nat) : option nat :=
  snd <$> last (filter (λ w, w.1 = i) log).

(** A member after the last write at its slot. *)
Definition written (og : option nat) (m : FamilyMember.t) : FamilyMember.t :=
  match og with Some g => FamilyMember.set_generation g m | None => m end.

(** The initial queue of the traversal. *)
Definition rootQueue (members : list FamilyMember.t) : list (MemberRef * nat) :=
  (λ member, (member, 0%nat))
    <$> List.filter (λ m, (length (ref_parentIds m) =? 0)%nat) (memberRefs members).

(** [r] is in the list of generation [g]. *)
Definition placed (gens : list (nat * list MemberRef)) (g : nat)
    (r : MemberRef) : Prop :=
  ∃ l, (g, l) ∈ gens ∧ r ∈ l.

(** The generation written in the store for the member behind [r]. *)
Definition gen_at (s : list FamilyMember.t) (r : MemberRef) : option nat :=
  FamilyMember.generation <$> s !! slot r.

(** [parentIds.length === 0] *)
Definition isRoot (r : MemberRef) : Prop := ref_parentIds r = [].

(** [r] was enqueued with generation [g] for a reason: it is a root and
    [g = 0], or a visited member of generation [g - 1] lists it as a child. *)
Definition enqueuedBy (refs : list MemberRef) (v : gset string)
    (s : list FamilyMember.t) (r : MemberRef) (g : nat) : Prop :=
  (isRoot r ∧ g = 0%nat)
  ∨ ∃ r' g', r' ∈ refs ∧ ref_id r' ∈ v ∧ gen_at s r' = Some g'
             ∧ g = S g' ∧ ref_id r ∈ ref_childrenIds r'.

(** The invariant of the traversal of [members] (distinct ids). *)
Record BfsInv (members : list FamilyMember.t) (st : BfsState) : Prop := {
  inv_queue : ∀ item, item ∈ queue st → item.1 ∈ memberRefs members;
  inv_store : memberRefs (store st) = memberRefs members;
  inv_sound : ∀ g r, placed (generations st) g r →
    r ∈ memberRefs members ∧ ref_id r ∈ visited st
    ∧ gen_at (store st) r = Some g;
  inv_complete : ∀ r, r ∈ memberRefs members → ref_id r ∈ visited st →
    ∃ g, placed (generations st) g r;
  inv_keys : NoDup (fst <$> generations st);
  inv_once : NoDup (ref_id <$> concat (snd <$> generations st));
  inv_roots : ∀ r, r ∈ memberRefs members → isRoot r →
    (ref_id r ∈ visited st ∧ gen_at (store st) r = Some 0%nat)
    ∨ ((ref_id r ∉ visited st)
       ∧ ∃ q1 q2, queue st = q1 ++ (r, 0%nat) :: q2
                  ∧ ∀ item, item ∈ q1 → ref_id item.1 ≠ ref_id r);
  inv_enqueued : ∀ item, item ∈ queue st →
    enqueuedBy (memberRefs members) (visited st) (store st) item.1 item.2;
  inv_visited : ∀ r g, r ∈ memberRefs members → ref_id r ∈ visited st →
    gen_at (store st) r = Some g →
    enqueuedBy (memberRefs members) (visited st) (store st) r g;
  inv_closed : ∀ r c rc, r ∈ memberRefs members → ref_id r ∈ visited st →
    c ∈ ref_childrenIds r → refMap members !! c = Some rc →
    c ∈ visited st ∨ ∃ g, (rc, g) ∈ queue st
}.

(** The generation of the first queue item for the member with id [k]. *)
Definition firstGen (k : string) (q : list (MemberRef * nat)) : option nat :=
  snd <$> head (filter (λ item, ref_id item.1 = k) q).

(** [a] is visited and [b] is not: the first queue item of [b] carries the
    generation of [a]. *)
Definition oneVisited (a b : MemberRef) (st : BfsState) : Prop :=
  ref_id a ∈ visited st ∧ (ref_id b ∉ visited st)
  ∧ ∃ g, gen_at (store st) a = Some g
         ∧ firstGen (ref_id b) (queue st) = Some g.

(** Both are visited, in one generation. *)
Definition bothVisited (p q : MemberRef) (st : BfsState) : Prop :=
  ref_id p ∈ visited st ∧ ref_id q ∈ visited st
  ∧ ∃ g, gen_at (store st) p = Some g ∧ gen_at (store st) q = Some g.

(** The invariant of the traversal for two members [p] and [q] that the
    same members list as children. *)
Definition SibInv (p q : MemberRef) (st : BfsState) : Prop :=
  ((ref_id p ∉ visited st) ∧ (ref_id q ∉ visited st)
   ∧ firstGen (ref_id p) (queue st) = firstGen (ref_id q) (queue st))
  ∨ oneVisited p q st ∨ oneVisited q p st ∨ bothVisited p q st.

(** The invariants of the data model: distinct ids, [parentIds] without
    repetition and referring to members, [childrenIds] the inverse of
    [parentIds], and no cycle ([depth] grows from parent to child). *)
Record wellFormed (members : list FamilyMember.t) (depth : string → nat)
    : Prop := {
  wf_ids : NoDup (FamilyMember.id <$> members);
  wf_parent_set : ∀ m, m ∈ members → NoDup (FamilyMember.parentIds m);
  wf_parent_exists : ∀ m pid, m ∈ members →
    pid ∈ FamilyMember.parentIds m → pid ∈ FamilyMember.id <$> members;
  wf_symmetric : ∀ m c, m ∈ members → c ∈ members →
    FamilyMember.id c ∈ FamilyMember.childrenIds m
    ↔ FamilyMember.id m ∈ FamilyMember.parentIds c;
  wf_acyclic : ∀ m pid, m ∈ members →
    pid ∈ FamilyMember.parentIds m → (depth pid < depth (FamilyMember.id m))%nat
}.

(** A member with its position reset: everything but the position. *)
Definition unplace (m : FamilyMember.t) : FamilyMember.t :=
  FamilyMember.set_position (mkPosition3D 0 0 0) m.

(** [assignPosition] for a list of [(id, position)], in order. *)
Definition assignAll (writes : list (string * Position3D))
    (all : list FamilyMember.t) : list FamilyMember.t :=
  foldl (λ all w, assignPosition w.1 w.2 all) all writes.

(** [(siblings.length - 1) * config.siblingSpacing] *)
Definition groupWidth (config : TreeLayoutConfig) (siblings : list MemberRef) : R :=
  (INR (length siblings) - 1) * siblingSpacing config.

(** The positions one sibling group gets, from its start position. *)
Definition groupWrites (config : TreeLayoutConfig) (mm : gmap string MemberRef)
    (y startX : R) (siblings : list MemberRef) : list (string * Position3D) :=
  imap (λ index member,
          (ref_id member,
           mkPosition3D (startX + INR index * siblingSpacing config) y
                        (calculateZPosition member mm))) siblings.

(** The positions the groups of one generation get, from the cursor. *)
Fixpoint groupsWrites (config : TreeLayoutConfig) (mm : gmap string MemberRef)
    (y currentX : R) (groups : list (list MemberRef))
    : list (string * Position3D) :=
  match groups with
  | [] => []
  | siblings :: rest =>
      groupWrites config mm y (currentX - groupWidth config siblings / 2) siblings
      ++ groupsWrites config mm y
           (currentX + groupWidth config siblings + branchSpacing config) rest
  end.

(** The positions written by [calculateLayout], generation by generation. *)
Definition layoutWrites (config : TreeLayoutConfig) (mm : gmap string MemberRef)
    (gens : list (nat * list MemberRef)) : list (string * Position3D) :=
  gl ← gens;
  groupsWrites config mm (- INR gl.1 * generationSpacing config) 0
               (groupSiblings gl.2 mm).

(** One step of the [forEach] of [groupSiblings]. *)
Definition siblingStep (l : list MemberRef) (mm : gmap string MemberRef)
    (st : list (list MemberRef) * gset string) (member : MemberRef)
    : list (list MemberRef) * gset string :=
  let '(groups, processed) := st in
  if decide (ref_id member ∈ processed) then (groups, processed)
  else
    let siblings := findSiblings member l mm in
    let processed :=
      foldl (λ processed sibling, processed ∪ {[ref_id sibling]})
            processed siblings in
    (groups ++ [siblings], processed).

(** The invariant of the [forEach] of [groupSiblings] over the generation
    list [l]: the groups found so far and the ids processed. *)
Record GroupInv (l : list MemberRef)
    (st : list (list MemberRef) * gset string) : Prop := {
  grp_sub : ∀ G r, G ∈ st.1 → r ∈ G → r ∈ l;
  grp_processed : ∀ k, k ∈ st.2 ↔ k ∈ ref_id <$> concat st.1;
  grp_once : NoDup (ref_id <$> concat st.1);
  grp_closed : ∀ G a c, G ∈ st.1 → a ∈ G → ¬ isRoot a → c ∈ l →
    haveSameParents a c = true → c ∈ G;
  grp_same : ∀ G a b, G ∈ st.1 → a ∈ G → b ∈ G → haveSameParents a b = true
}.

(** [wellFormed], as a check. *)
Definition wellFormedb (members : list FamilyMember.t) (depth : string → nat)
    : bool :=
  bool_decide (NoDup (FamilyMember.id <$> members))
  && forallb (λ m, bool_decide (NoDup (FamilyMember.parentIds m))) members
  && forallb (λ m, forallb (λ pid, bool_decide (pid ∈ FamilyMember.id <$> members))
                           (FamilyMember.parentIds m)) members
  && forallb (λ m, forallb (λ c, bool_decide
                                   (FamilyMember.id c ∈ FamilyMember.childrenIds m
                                    ↔ FamilyMember.id m ∈ FamilyMember.parentIds c))
                           members) members
  && forallb (λ m, forallb (λ pid, (depth pid <? depth (FamilyMember.id m))%nat)
                           (FamilyMember.parentIds m)) members.

(** C7 as the specification states it: in a well-formed pedigree every
    root ends in generation 0 and every member is one generation below each
    of its parents. *)
Definition every_parent_one_generation_up : Prop :=
  ∀ members depth config,
    wellFormed members depth →
    ∃ ms1 out,
      calculateLayout members config = Some (ms1, out)
      ∧ (∀ p, p ∈ out → FamilyMember.parentIds p = [] →
           FamilyMember.generation p = 0%nat)
      ∧ (∀ p q, p ∈ out → q ∈ out →
           FamilyMember.id q ∈ FamilyMember.parentIds p →
           FamilyMember.generation p = S (FamilyMember.generation q)).

End LayoutSpec.

Module RiskTerms.
Import GeneticSimulator.
Local Open Scope R_scope.

(** What the engine reads of a parent: the sex and the ids of the
    diagnosed diseases. *)
Definition sameTraits (p p' : FamilyMember.t) : Prop :=
  FamilyMember.gender p = FamilyMember.gender p'
  ∧ Disease.id <$> FamilyMember.diseases p
    = Disease.id <$> FamilyMember.diseases p'.

(** What the engine reads of a member: the id, the sex, the parent ids and
    the ids of the diagnosed diseases. *)
Definition sameCore (m m' : FamilyMember.t) : Prop :=
  FamilyMember.id m = FamilyMember.id m'
  ∧ FamilyMember.parentIds m = FamilyMember.parentIds m'
  ∧ sameTraits m m'.

End RiskTerms.

Module LayoutTerms.
Import TreeLayoutEngine LayoutSpec.
Local Open Scope R_scope.

(** [reach members k n]: the member with id [k] is reached from a root (a
    member with no [parentIds]) through [n] links of [childrenIds]. *)
Inductive reach (members : list FamilyMember.t) : string → nat → Prop :=
  | reach_root m :
      m ∈ members → FamilyMember.parentIds m = [] →
      reach members (FamilyMember.id m) 0
  | reach_child m c n :
      m ∈ members → reach members (FamilyMember.id m) n →
      c ∈ FamilyMember.childrenIds m → c ∈ FamilyMember.id <$> members →
      reach members c (S n).

(** The traversal works level by level: the queue holds items of the
    current level [h] followed by items of level [h + 1], no visited member
    is deeper than [h], a child of a visited member is at most one level
    below it, and the members not visited are as they were. *)
Record BfsLevel (members : list FamilyMember.t) (st : BfsState) : Prop := {
  lvl_queue : ∃ h qa qb,
    queue st = qa ++ qb
    ∧ Forall (λ item, item.2 = h) qa ∧ Forall (λ item, item.2 = S h) qb
    ∧ ∀ r g, r ∈ memberRefs members → ref_id r ∈ visited st →
        gen_at (store st) r = Some g → (g ≤ h)%nat;
  lvl_children : ∀ r g c rc,
    r ∈ memberRefs members → ref_id r ∈ visited st →
    gen_at (store st) r = Some g →
    c ∈ ref_childrenIds r → refMap members !! c = Some rc →
    (c ∈ visited st ∧ ∀ gc, gen_at (store st) rc = Some gc → (gc ≤ S g)%nat)
    ∨ ((c ∉ visited st) ∧ ∃ gc, (rc, gc) ∈ queue st ∧ (gc ≤ S g)%nat);
  lvl_untouched : ∀ r,
    r ∈ memberRefs members → ref_id r ∉ visited st →
    store st !! slot r = members !! slot r
}.

(** [generations.get(g)], the empty list when the key is absent. *)
Fixpoint genList (gens : list (nat * list MemberRef)) (g : nat)
    : list MemberRef :=
  match gens with
  | [] => []
  | (g', l) :: rest => if (g' =? g)%nat then l else genList rest g
  end.

(** [members.filter(m => m.parentIds.length === 0)], as references. *)
Definition rootRefs (members : list FamilyMember.t) : list MemberRef :=
  List.filter (λ m, (length (ref_parentIds m) =? 0)%nat) (memberRefs members).

(** The traversal visits the roots first, in array order: the first [k]
    roots are the list of generation 0, the others are at the head of the
    queue, not visited, and the rest of the queue is for deeper levels. *)
Definition RootsFirst (members : list FamilyMember.t) (st : BfsState) : Prop :=
  ∃ k q',
    queue st = ((λ member, (member, 0%nat)) <$> drop k (rootRefs members)) ++ q'
    ∧ Forall (λ item, item.2 ≠ 0%nat) q'
    ∧ genList (generations st) 0 = take k (rootRefs members)
    ∧ ∀ r, r ∈ drop k (rootRefs members) → ref_id r ∉ visited st.

End LayoutTerms.

Module PanelTerms.
Import RiskAnalysisPanel.
Local Open Scope R_scope.

(** The scores of the records for the member with id [k], in order. *)
Definition scoresOf (k : string) (risks : list GeneticRisk) : list R :=
  riskScore <$> List.filter (λ risk, String.eqb (memberId risk) k) risks.

(** [familyMembers.find(m => m.id === k)] *)
Definition findMember (familyMembers : list FamilyMember.t) (k : string)
    : option FamilyMember.t :=
  List.find (λ m, String.eqb (FamilyMember.id m) k) familyMembers.

(** What [memberRiskMap] holds after the records [risks]: an entry for
    every id that is found among the members and has a record, with the
    largest of its scores and the number of its scores above 0.3. *)
Definition MapInv (familyMembers : list FamilyMember.t)
    (risks : list GeneticRisk)
    (memberRiskMap : list string * gmap string HighRisk) : Prop :=
  NoDup memberRiskMap.1
  ∧ (∀ k, k ∈ memberRiskMap.1 ↔ is_Some (memberRiskMap.2 !! k))
  ∧ ∀ k,
      memberRiskMap.2 !! k
      = match scoresOf k risks, findMember familyMembers k with
        | s0 :: rest, Some m =>
            Some (mkHighRisk m (foldl Rmax s0 rest)
                    (length (List.filter (above 0.3) (s0 :: rest))))
        | _, _ => None
        end.

End PanelTerms.

Module SaveTerms.
Import AutoSave.

(** A decimal digit. *)
Definition isDigit (c : Ascii.ascii) : Prop :=
  (48 ≤ Ascii.N_of_ascii c ≤ 57)%N.

(** The manager remembers the string it stored last: [lastSaveData] is
    empty or it is what the storage holds. *)
Definition inSync (this : Manager) : Prop :=
  lastSaveData this = ""
  ∨ storage this !! AUTO_SAVE_KEY = Some (lastSaveData this).

End SaveTerms.

(** ** Properties of the risk engine *)

Module RiskFacts.
Import GeneticSimulator RiskSpec.
Local Open Scope R_scope.

Lemma isAffected_erase d m : isAffected d (erase m) = isAffected d m.
Proof. reflexivity. Qed.

Lemma filter_affected_erase d ps :
  List.filter (isAffected d) (erase <$> ps) = erase <$> List.filter (isAffected d) ps.
Proof.
  induction ps as [|p ps IH]; [done|]. cbn [fmap list_fmap List.filter].
  rewrite isAffected_erase. destruct (isAffected d p); cbn; by rewrite IH.
Qed.

Lemma find_gender_erase g ps :
  List.find (λ p, Gender_eqb (FamilyMember.gender p) g) (erase <$> ps)
  = erase <$> List.find (λ p, Gender_eqb (FamilyMember.gender p) g) ps.
Proof.
  induction ps as [|p ps IH]; [done|]. cbn.
  destruct (Gender_eqb (FamilyMember.gender p) g); [done|apply IH].
Qed.

Lemma calculateParentalRisk_erase ps d g :
  calculateParentalRisk (erase <$> ps) d g = calculateParentalRisk ps d g.
Proof.
  unfold calculateParentalRisk. rewrite filter_affected_erase.
  destruct (Disease.type d).
  - unfold calculateDominantRisk. by rewrite length_fmap.
  - unfold calculateRecessiveRisk. by rewrite length_fmap.
  - unfold calculateXLinkedRisk. rewrite !find_gender_erase.
    destruct g; repeat destruct (List.find _ (List.filter _ ps)); reflexivity.
  - unfold calculateMultifactorialRisk. by rewrite length_fmap.
Qed.

Lemma resolveParents_erase store mm m :
  resolveParents (erase <$> store) mm (erase m)
  = erase <$> resolveParents store mm m.
Proof.
  unfold resolveParents. cbn [erase FamilyMember.set_riskScores FamilyMember.parentIds].
  induction (FamilyMember.parentIds m) as [|pid pids IH]; [done|].
  cbn [omap list_omap]. rewrite IH.
  destruct (mm !! pid) as [a|]; cbn; [|done].
  rewrite list_lookup_fmap. by destruct (store !! a).
Qed.

Lemma calculateMemberDiseaseRisk_erase store m d mm :
  calculateMemberDiseaseRisk (erase <$> store) (erase m) d mm
  = calculateMemberDiseaseRisk store m d mm.
Proof.
  unfold calculateMemberDiseaseRisk.
  rewrite isAffected_erase, resolveParents_erase, length_fmap,
    calculateParentalRisk_erase.
  reflexivity.
Qed.

Lemma calculateMemberDiseaseRisk_same store store' m m' d mm :
  erase <$> store = erase <$> store' → erase m = erase m' →
  calculateMemberDiseaseRisk store m d mm
  = calculateMemberDiseaseRisk store' m' d mm.
Proof.
  intros Hs Hm.
  rewrite <- (calculateMemberDiseaseRisk_erase store),
          <- (calculateMemberDiseaseRisk_erase store').
  by rewrite Hs, Hm.
Qed.

Lemma slotMap_ids ms ms' :
  FamilyMember.id <$> ms = FamilyMember.id <$> ms' → slotMap ms = slotMap ms'.
Proof.
  unfold slotMap. generalize ((∅, 0%nat) : gmap string nat * nat). revert ms'.
  induction ms as [|m ms IH]; intros [|m' ms'] [acc k] Heq; try done.
  cbn in Heq. injection Heq as Hid Heq. cbn. rewrite Hid. by apply IH.
Qed.

Lemma slotMap_erase ms ms' :
  erase <$> ms = erase <$> ms' → slotMap ms = slotMap ms'.
Proof.
  intros H. apply slotMap_ids.
  apply (f_equal (fmap FamilyMember.id)) in H.
  by rewrite <- !list_fmap_compose in H.
Qed.

Lemma riskOf_same ms ms' d m m' :
  erase <$> ms = erase <$> ms' → erase m = erase m' →
  riskOf ms d m = riskOf ms' d m'.
Proof.
  intros Hs Hm. unfold riskOf. rewrite (slotMap_erase _ _ Hs).
  by apply calculateMemberDiseaseRisk_same.
Qed.

Lemma diseaseRisksLoop_spec ms d todo : ∀ done risks,
  erase <$> (done ++ todo) = erase <$> ms →
  diseaseRisksLoop d (slotMap ms) done todo risks
  = (risks ++ (riskOf ms d <$> todo), done ++ (scored ms d <$> todo)).
Proof.
  induction todo as [|m rest IH]; intros done risks Hs.
  - cbn. by rewrite !app_nil_r.
  - cbn [diseaseRisksLoop].
    rewrite (calculateMemberDiseaseRisk_same _ ms m m d _ Hs eq_refl).
    fold (riskOf ms d m).
    rewrite IH.
    + rewrite <- !app_assoc. cbn. unfold scored at 2.
      by rewrite (riskOf_same ms ms d (erase m) m eq_refl eq_refl).
    + rewrite <- Hs, <- app_assoc. by rewrite !fmap_app.
Qed.

Lemma calculateDiseaseRisks_spec ms d :
  calculateDiseaseRisks ms d = (riskOf ms d <$> ms, scored ms d <$> ms).
Proof. unfold calculateDiseaseRisks. by rewrite diseaseRisksLoop_spec. Qed.

Lemma erase_scored ms d (cur : list FamilyMember.t) :
  erase <$> (scored ms d <$> cur) = erase <$> cur.
Proof. by rewrite <- list_fmap_compose. Qed.

Lemma calculateDiseaseRisks_same ms cur d :
  erase <$> cur = erase <$> ms →
  calculateDiseaseRisks cur d = (riskOf ms d <$> cur, scored ms d <$> cur).
Proof.
  intros Hs. rewrite calculateDiseaseRisks_spec. f_equal.
  - apply list_fmap_ext. intros _ m _. by apply riskOf_same.
  - apply list_fmap_ext. intros _ m _. unfold scored.
    by rewrite (riskOf_same cur ms d (erase m) (erase m) Hs eq_refl).
Qed.

Lemma riskOf_scored ms d d' (cur : list FamilyMember.t) :
  riskOf ms d' <$> (scored ms d <$> cur) = riskOf ms d' <$> cur.
Proof.
  rewrite <- list_fmap_compose. apply list_fmap_ext.
  intros _ m _. by apply riskOf_same.
Qed.

Lemma familyLoop_spec ms ds : ∀ cur risks,
  erase <$> cur = erase <$> ms →
  foldl (λ '(risks, members) disease,
           let '(diseaseRisks, members) :=
             calculateDiseaseRisks members disease in
           (risks ++ diseaseRisks, members))
        (risks, cur) ds
  = (risks ++ (d ← ds; riskOf ms d <$> cur),
     (λ m, FamilyMember.set_riskScores
             (scoresFrom ms ds m (FamilyMember.riskScores m)) m) <$> cur).
Proof.
  induction ds as [|d ds IH]; intros cur risks Hs.
  - cbn. rewrite app_nil_r. f_equal.
    rewrite <- (list_fmap_id cur) at 1. apply list_fmap_ext.
    by intros ? [].
  - cbn [foldl]. rewrite (calculateDiseaseRisks_same ms) by done.
    rewrite IH by (by rewrite erase_scored).
    rewrite <- app_assoc. f_equal.
    + cbn [mbind list_bind]. do 2 f_equal.
      apply list_bind_ext; [|done]. intros d'. apply riskOf_scored.
    + rewrite <- list_fmap_compose. by apply list_fmap_ext.
Qed.

(** What [calculateFamilyRisks] returns and leaves in the members array. *)
Lemma calculateFamilyRisks_spec ms ds :
  calculateFamilyRisks ms ds
  = (d ← ds; riskOf ms d <$> ms,
     (λ m, FamilyMember.set_riskScores (scoresFrom ms ds m ∅) m) <$> ms).
Proof.
  unfold calculateFamilyRisks. fold erase.
  rewrite (familyLoop_spec ms) by (by rewrite <- list_fmap_compose).
  cbn [app]. f_equal.
  - apply list_bind_ext; [|done]. intros d.
    rewrite <- list_fmap_compose. apply list_fmap_ext.
    intros _ m _. by apply riskOf_same.
  - rewrite <- list_fmap_compose. by apply list_fmap_ext.
Qed.

(** *** Reading the results *)

Lemma bind_fmap_lookup {A B C} (f : A → B → C) (ds : list A) (ms : list B)
    j i d m :
  ds !! j = Some d → ms !! i = Some m →
  (d ← ds; f d <$> ms) !! (j * length ms + i)%nat = Some (f d m).
Proof.
  intros Hd Hm. revert j Hd.
  induction ds as [|d0 ds IH]; intros [|j] Hd; try done; cbn [mbind list_bind].
  - cbn in Hd. injection Hd as ->. cbn [Nat.mul Nat.add].
    rewrite lookup_app_l by (rewrite length_fmap; by eapply lookup_lt_Some).
    by rewrite list_lookup_fmap, Hm.
  - cbn in Hd. rewrite lookup_app_r by (rewrite length_fmap; lia).
    rewrite length_fmap.
    replace (S j * length ms + i - length ms)%nat with (j * length ms + i)%nat by lia.
    by apply IH.
Qed.

Section FoldInsert.
Context {A : Type} (key : A → string) (val : A → R).

Lemma insertAll_dom ds : ∀ rs,
  dom (insertAll key val ds rs) = dom rs ∪ list_to_set (key <$> ds).
Proof.
  induction ds as [|d ds IH]; intros rs; cbn.
  - set_solver.
  - unfold insertAll in IH. rewrite IH, dom_insert_L. set_solver.
Qed.

Lemma insertAll_Forall (P : R → Prop) ds : ∀ rs,
  map_Forall (λ _, P) rs → Forall (λ d, P (val d)) ds →
  map_Forall (λ _, P) (insertAll key val ds rs).
Proof.
  induction ds as [|d ds IH]; intros rs Hrs Hds; [done|].
  inversion_clear Hds. cbn. apply IH; [|done].
  by apply map_Forall_insert_2.
Qed.

Lemma insertAll_lookup_const ds k v : ∀ rs,
  (∀ d, d ∈ ds → key d = k → val d = v) →
  (rs !! k = Some v ∨ ∃ d, d ∈ ds ∧ key d = k) →
  insertAll key val ds rs !! k = Some v.
Proof.
  induction ds as [|d ds IH]; intros rs Hall Hex.
  - destruct Hex as [?|(d & Hd & _)]; [done|]. by apply elem_of_nil in Hd.
  - cbn. apply IH.
    + intros d' Hd'. apply Hall. by right.
    + destruct (decide (key d = k)) as [Hk|Hk].
      * left. rewrite <- Hk, lookup_insert_eq. f_equal.
        apply Hall; [by left|done].
      * destruct Hex as [Hrs|(d' & Hd' & Hk')].
        -- left. by rewrite lookup_insert_ne.
        -- right. exists d'. split; [|done].
           apply elem_of_cons in Hd' as [->|]; [done|done].
Qed.
End FoldInsert.

Lemma scoresFrom_insertAll ms ds m rs :
  scoresFrom ms ds m rs
  = insertAll Disease.id (λ d, riskScore (riskOf ms d m)) ds rs.
Proof.
  unfold scoresFrom, insertAll. revert rs.
  induction ds as [|d ds IH]; intros rs; [done|]. cbn.
  rewrite IH. by rewrite (riskOf_same ms ms d (erase m) m eq_refl eq_refl).
Qed.

(** [d.id] is among the ids of [m.diseases]. *)
Lemma isAffected_true d m :
  isAffected d m = true ↔
  Disease.id d ∈ Disease.id <$> FamilyMember.diseases m.
Proof.
  unfold isAffected. rewrite existsb_exists, list_elem_of_fmap.
  split.
  - intros (d' & Hin & Heq). apply String.eqb_eq in Heq.
    exists d'. split; [done|]. by apply list_elem_of_In.
  - intros (d' & Heq & Hin). exists d'. split; [by apply list_elem_of_In|].
    by apply String.eqb_eq.
Qed.

Lemma isAffected_false d m :
  isAffected d m = false ↔
  Disease.id d ∉ Disease.id <$> FamilyMember.diseases m.
Proof.
  rewrite <- isAffected_true. destruct (isAffected d m); naive_solver.
Qed.

Lemma sqrt_hundredth : sqrt 0.01 = 0.1.
Proof. replace 0.01 with (0.1 * 0.1) by lra. apply sqrt_square. lra. Qed.

(** *** The rules of the engine *)

(** C1. A member diagnosed with the disease gets risk 1.0 and the label
    "affected", whatever the parents, the prevalence and the penetrance
    are: the record does not depend on the store or the member map, it is
    the one returned for the pair, and 1.0 is what ends up in the member's
    [riskScores]. *)
Theorem affected_short_circuit ms ds i j m d :
  ms !! i = Some m → ds !! j = Some d →
  Disease.id d ∈ Disease.id <$> FamilyMember.diseases m →
  let affected :=
    mkGeneticRisk (FamilyMember.id m) (Disease.id d) 1 "affected" in
  (∀ store memberMap,
     calculateMemberDiseaseRisk store m d memberMap = affected) ∧
  (calculateFamilyRisks ms ds).1 !! (j * length ms + i)%nat = Some affected ∧
  ∃ m', (calculateFamilyRisks ms ds).2 !! i = Some m' ∧
        FamilyMember.riskScores m' !! Disease.id d = Some 1.
Proof.
  intros Hm Hd Haff affected.
  assert (Hcalc : ∀ store memberMap d', Disease.id d' = Disease.id d →
            calculateMemberDiseaseRisk store m d' memberMap
            = mkGeneticRisk (FamilyMember.id m) (Disease.id d') 1 "affected").
  { intros store mm d' Hid. unfold calculateMemberDiseaseRisk.
    assert (isAffected d' m = true) as ->; [|done].
    apply isAffected_true. by rewrite Hid. }
  split; [intros; by apply Hcalc|].
  rewrite calculateFamilyRisks_spec. cbn [fst snd]. split.
  - rewrite (bind_fmap_lookup (riskOf ms) ds ms j i d m) by done.
    unfold riskOf. by rewrite Hcalc.
  - rewrite list_lookup_fmap, Hm. eexists. split; [done|].
    cbn. rewrite scoresFrom_insertAll.
    apply insertAll_lookup_const.
    + intros d' _ Hid. unfold riskOf. by rewrite Hcalc.
    + right. exists d. split; [by eapply list_elem_of_lookup_2|done].
Qed.

Lemma affected_short_circuit_witness :
  (calculateFamilyRisks Sample.family Sample.catalog).1 !! (0 * 3 + 0)%nat
  = Some (mkGeneticRisk "mother" "marfan" 1 "affected").
Proof.
  refine (proj1 (proj2 (affected_short_circuit Sample.family Sample.catalog
                          0 0 Sample.mother Sample.marfan _ _ _))).
  - reflexivity.
  - reflexivity.
  - cbn. set_solver.
Defined.

Lemma calculateMemberDiseaseRisk_unaffected store mm m d :
  isAffected d m = false →
  let parents := resolveParents store mm m in
  riskScore (calculateMemberDiseaseRisk store m d mm)
  = Rmin ((if (0 <? length parents)%nat
           then combineRisks (Disease.prevalence d)
                  (risk (calculateParentalRisk parents d (FamilyMember.gender m)))
           else Disease.prevalence d) * Disease.penetrance d) 0.95.
Proof.
  intros Hna. unfold calculateMemberDiseaseRisk. rewrite Hna. cbn zeta.
  by destruct (0 <? length (resolveParents store mm m))%nat.
Qed.

(** C2. For a member who is not diagnosed and has a resolved parent, the
    score is [1 - (1 - prevalence) * (1 - p)] times the penetrance, capped
    at 0.95, where the parental risk [p] follows the table: dominant
    0 / 0.5 / 0.75 and recessive sqrt(0.01)*0.25 / 0.5 / 1 for 0 / 1 / 2
    affected parents, multifactorial 0.05 * 2.5^k capped at 0.8. *)
Theorem parental_rule_table store mm m d :
  Disease.id d ∉ Disease.id <$> FamilyMember.diseases m →
  let parents := resolveParents store mm m in
  parents ≠ [] →
  let k := length (List.filter (isAffected d) parents) in
  let p := risk (calculateParentalRisk parents d (FamilyMember.gender m)) in
  riskScore (calculateMemberDiseaseRisk store m d mm)
  = Rmin ((1 - (1 - Disease.prevalence d) * (1 - p)) * Disease.penetrance d) 0.95
  ∧ (Disease.type d = dominant →
       (k = 0%nat → p = 0) ∧ (k = 1%nat → p = 0.5) ∧ (k = 2%nat → p = 0.75))
  ∧ (Disease.type d = recessive →
       (k = 0%nat → p = sqrt 0.01 * 0.25) ∧ (k = 1%nat → p = 0.5)
       ∧ (k = 2%nat → p = 1))
  ∧ (Disease.type d = multifactorial → p = Rmin (0.05 * 2.5 ^ k) 0.8).
Proof.
  intros Hna parents Hne k p. apply isAffected_false in Hna.
  split; [|split; [|split]].
  - rewrite calculateMemberDiseaseRisk_unaffected by done.
    fold parents. destruct parents; [done|]. reflexivity.
  - intros Ht. subst p. unfold calculateParentalRisk. rewrite Ht.
    unfold calculateDominantRisk. fold k.
    repeat split; intros ->; reflexivity.
  - intros Ht. subst p. unfold calculateParentalRisk. rewrite Ht.
    unfold calculateRecessiveRisk. fold k.
    repeat split; intros ->; reflexivity.
  - intros Ht. subst p. unfold calculateParentalRisk. rewrite Ht.
    reflexivity.
Qed.

Lemma parental_rule_table_witness :
  riskScore (calculateMemberDiseaseRisk Sample.family Sample.son Sample.marfan
               (slotMap Sample.family))
  = Rmin ((1 - (1 - 0.0002) * (1 - 0.5)) * 0.9) 0.95.
Proof.
  refine (proj1 (parental_rule_table Sample.family (slotMap Sample.family)
                   Sample.son Sample.marfan _ _)).
  - cbn. set_solver.
  - discriminate.
Defined.

Lemma find_filter_Some {A} (f g : A → bool) (l : list A) :
  is_Some (List.find f (List.filter g l)) ↔
  ∃ a, a ∈ l ∧ f a = true ∧ g a = true.
Proof.
  induction l as [|a l IH]; cbn.
  - split; [by intros [? ?]|]. intros (a & Ha & _). by apply elem_of_nil in Ha.
  - destruct (g a) eqn:Hg; cbn.
    + destruct (f a) eqn:Hf.
      * split; [|by eauto]. intros _. exists a. split; [by left|done].
      * rewrite IH. split.
        -- intros (b & ? & ? & ?). exists b. split; [by right|done].
        -- intros (b & [->|?]%elem_of_cons & ? & ?); [congruence|by exists b].
    + rewrite IH. split.
      * intros (b & ? & ? & ?). exists b. split; [by right|done].
      * intros (b & [->|?]%elem_of_cons & ? & ?); [congruence|by exists b].
Qed.

Lemma find_affected parents d g :
  is_Some (List.find (λ p, Gender_eqb (FamilyMember.gender p) g)
             (List.filter (isAffected d) parents))
  ↔ hasAffected parents d g.
Proof.
  rewrite find_filter_Some. unfold hasAffected.
  split; intros (p & Hin & H1 & H2); exists p; (split; [done|]).
  - apply isAffected_true in H2. split; [|done].
    by destruct (FamilyMember.gender p), g.
  - apply isAffected_true in H2. split; [|done]. rewrite H1. by destruct g.
Qed.

(** C3. X-linked diseases: a son's parental risk is 0.5 when a resolved
    mother is diagnosed and 0 otherwise, whatever the father's status; a
    daughter's is 0.25 with exactly one diagnosed parent and 0.5 when a
    mother and a father are both diagnosed. *)
Theorem x_linked_rule parents d :
  Disease.type d = x_linked →
  let k := length (List.filter (isAffected d) parents) in
  (hasAffected parents d female →
     risk (calculateParentalRisk parents d male) = 0.5)
  ∧ (¬ hasAffected parents d female →
     risk (calculateParentalRisk parents d male) = 0)
  ∧ (k = 1%nat → risk (calculateParentalRisk parents d female) = 0.25)
  ∧ (hasAffected parents d female → hasAffected parents d male →
     risk (calculateParentalRisk parents d female) = 0.5).
Proof.
  intros Ht k. unfold calculateParentalRisk. rewrite Ht.
  unfold calculateXLinkedRisk.
  pose proof (find_affected parents d female) as Hmo.
  pose proof (find_affected parents d male) as Hfa.
  repeat split.
  - intros H. apply Hmo in H as [? ->]. reflexivity.
  - intros H. destruct (List.find _ _) as [?|] eqn:E in |- *; [|done].
    exfalso. apply H, Hmo. rewrite E. by eexists.
  - intros Hk.
    destruct (List.filter (isAffected d) parents) as [|a [|? ?]]; try done.
    cbn. by destruct (FamilyMember.gender a).
  - intros H1 H2. apply Hmo in H1 as [? ->]. apply Hfa in H2 as [? ->].
    reflexivity.
Qed.

Lemma x_linked_rule_witness :
  risk (calculateParentalRisk [Sample.father; Sample.mother]
          Sample.hemophilia male) = 0.
Proof.
  refine (proj1 (proj2 (x_linked_rule [Sample.father; Sample.mother]
                          Sample.hemophilia _)) _).
  - reflexivity.
  - intros (p & Hp & Hg & Hd).
    apply elem_of_cons in Hp as [->|Hp]; [done|].
    apply list_elem_of_singleton in Hp as ->. cbn in Hd. set_solver.
Defined.

Lemma NoDup_fmap_eq {A B} (f : A → B) (l : list A) a b :
  NoDup (f <$> l) → a ∈ l → b ∈ l → f a = f b → a = b.
Proof.
  induction l as [|c l IH]; intros Hnd Ha Hb Hf; [by apply elem_of_nil in Ha|].
  cbn in Hnd. apply NoDup_cons in Hnd as [Hc Hnd].
  apply elem_of_cons in Ha as [->|Ha]; apply elem_of_cons in Hb as [->|Hb].
  - done.
  - exfalso. apply Hc. rewrite Hf. by apply list_elem_of_fmap_2.
  - exfalso. apply Hc. rewrite <- Hf. by apply list_elem_of_fmap_2.
  - by apply IH.
Qed.

(** The score kept in [riskScores] under [d.id] is the one of [d] when no
    other catalog entry has the same id. *)
Lemma riskScores_lookup ms ds i j m d :
  ms !! i = Some m → ds !! j = Some d → NoDup (Disease.id <$> ds) →
  ∃ m', (calculateFamilyRisks ms ds).2 !! i = Some m' ∧
        FamilyMember.riskScores m' !! Disease.id d
        = Some (riskScore (riskOf ms d m)).
Proof.
  intros Hm Hd Hnd. rewrite calculateFamilyRisks_spec. cbn [snd].
  rewrite list_lookup_fmap, Hm. eexists. split; [done|]. cbn.
  rewrite scoresFrom_insertAll. apply list_elem_of_lookup_2 in Hd.
  apply insertAll_lookup_const; [|by eauto].
  intros d' Hd' Hid. by rewrite (NoDup_fmap_eq Disease.id ds d' d).
Qed.

(** C4. A member with no parents and no diagnosis of [d] gets
    [min(d.prevalence * d.penetrance, 0.95)]: in the returned record and,
    the catalog ids being distinct, in [riskScores] under [d.id]. *)
Theorem no_parents_risk ms ds i j m d :
  ms !! i = Some m → ds !! j = Some d →
  FamilyMember.parentIds m = [] →
  Disease.id d ∉ Disease.id <$> FamilyMember.diseases m →
  let r := Rmin (Disease.prevalence d * Disease.penetrance d) 0.95 in
  (∃ g, (calculateFamilyRisks ms ds).1 !! (j * length ms + i)%nat = Some g
        ∧ riskScore g = r)
  ∧ (NoDup (Disease.id <$> ds) →
     ∃ m', (calculateFamilyRisks ms ds).2 !! i = Some m' ∧
           FamilyMember.riskScores m' !! Disease.id d = Some r).
Proof.
  intros Hm Hd Hp Hna r. apply isAffected_false in Hna.
  assert (Hr : riskScore (riskOf ms d m) = r).
  { unfold riskOf. rewrite calculateMemberDiseaseRisk_unaffected by done.
    unfold resolveParents. by rewrite Hp. }
  split.
  - rewrite calculateFamilyRisks_spec. cbn [fst].
    rewrite (bind_fmap_lookup (riskOf ms) ds ms j i d m) by done. eauto.
  - intros Hnd. rewrite <- Hr. by eapply riskScores_lookup.
Qed.

Lemma no_parents_risk_witness :
  ∃ g, (calculateFamilyRisks Sample.family Sample.catalog).1 !! (0 * 3 + 1)%nat
       = Some g ∧ riskScore g = Rmin (0.0002 * 0.9) 0.95.
Proof.
  refine (proj1 (no_parents_risk Sample.family Sample.catalog 1 0
                   Sample.father Sample.marfan _ _ _ _)).
  - reflexivity.
  - reflexivity.
  - reflexivity.
  - cbn. set_solver.
Defined.

(** C5, counterexample: for the dominant disease [Sample.rare]
    (prevalence 0, penetrance 1) the son of a diagnosed mother gets
    [1 - (1 - 0) * (1 - 0.5) = 0.5], not 0. *)
Lemma zero_prevalence_counterexample : ¬ zero_rate_gives_zero_risk.
Proof.
  intros H.
  destruct (H Sample.family [Sample.rare] 2%nat 0%nat Sample.son Sample.rare)
    as (g & Hg & H0).
  - reflexivity.
  - reflexivity.
  - by left.
  - cbn. set_solver.
  - rewrite calculateFamilyRisks_spec in Hg. cbn [fst] in Hg.
    rewrite (bind_fmap_lookup (riskOf Sample.family) [Sample.rare]
               Sample.family 0 2 Sample.rare Sample.son eq_refl eq_refl) in Hg.
    injection Hg as <-. revert H0. unfold riskOf.
    destruct (parental_rule_table Sample.family (slotMap Sample.family)
                Sample.son Sample.rare) as (-> & Hdom & _).
    + cbn. set_solver.
    + discriminate.
    + destruct (Hdom eq_refl) as (_ & Hone & _).
      rewrite Hone by reflexivity.
      cbn. unfold Rmin. destruct (Rle_dec _ _); lra.
Qed.

(** C5, amended: with penetrance 0 every member who is not diagnosed gets
    risk 0, whatever the parents; with prevalence 0 the risk is 0 when no
    parent resolves, and also when a parent resolves and the parental risk
    is 0; with a resolved parent it is in general the combination
    [combineRisks 0 p] of 0 with the parental risk [p], times the
    penetrance, capped at 0.95. *)
Theorem zero_rate_risk store mm m d :
  Disease.id d ∉ Disease.id <$> FamilyMember.diseases m →
  let parents := resolveParents store mm m in
  let p := risk (calculateParentalRisk parents d (FamilyMember.gender m)) in
  let r := riskScore (calculateMemberDiseaseRisk store m d mm) in
  (Disease.penetrance d = 0 → r = 0)
  ∧ (Disease.prevalence d = 0 → parents = [] → r = 0)
  ∧ (Disease.prevalence d = 0 → parents ≠ [] → p = 0 → r = 0)
  ∧ (Disease.prevalence d = 0 → parents ≠ [] →
     r = Rmin (combineRisks 0 p * Disease.penetrance d) 0.95).
Proof.
  intros Hna parents p r. apply isAffected_false in Hna.
  subst r. rewrite calculateMemberDiseaseRisk_unaffected by done.
  fold parents. fold p. repeat split.
  - intros ->. rewrite Rmult_0_r. unfold Rmin. destruct (Rle_dec _ _); lra.
  - intros -> ->. cbn. rewrite Rmult_0_l.
    unfold Rmin. destruct (Rle_dec _ _); lra.
  - intros -> Hne ->. destruct parents; [done|]. cbn. unfold combineRisks.
    unfold Rmin. destruct (Rle_dec _ _); lra.
  - intros -> Hne. by destruct parents.
Qed.

Lemma zero_rate_risk_witness :
  riskScore (calculateMemberDiseaseRisk Sample.family Sample.father
               Sample.rare (slotMap Sample.family)) = 0.
Proof.
  refine (proj1 (proj2 (zero_rate_risk Sample.family (slotMap Sample.family)
                          Sample.father Sample.rare _)) _ _).
  - cbn. set_solver.
  - reflexivity.
  - reflexivity.
Defined.

(** *** Range of the scores and recomputation *)

Lemma calculateParentalRisk_bounds parents d g :
  0 <= risk (calculateParentalRisk parents d g) <= 1.
Proof.
  unfold calculateParentalRisk. destruct (Disease.type d).
  - unfold calculateDominantRisk. repeat case_match; cbn; lra.
  - unfold calculateRecessiveRisk.
    repeat case_match; cbn; rewrite ?sqrt_hundredth; lra.
  - unfold calculateXLinkedRisk. repeat case_match; cbn; lra.
  - unfold calculateMultifactorialRisk. cbn.
    assert (0 < 2.5 ^ length (List.filter (isAffected d) parents))
      by (apply pow_lt; lra).
    unfold Rmin. destruct (Rle_dec _ _); lra.
Qed.

Lemma riskScore_bounds store mm m d :
  0 <= Disease.prevalence d <= 1 → 0 <= Disease.penetrance d <= 1 →
  0 <= riskScore (calculateMemberDiseaseRisk store m d mm) <= 1.
Proof.
  intros Hprev Hpen.
  destruct (isAffected d m) eqn:Haff.
  - unfold calculateMemberDiseaseRisk. rewrite Haff. cbn. lra.
  - rewrite calculateMemberDiseaseRisk_unaffected by done.
    set (parents := resolveParents store mm m).
    pose proof (calculateParentalRisk_bounds parents d
                  (FamilyMember.gender m)) as Hp.
    set (p := risk _) in *.
    assert (0 <= (if (0 <? length parents)%nat
                  then combineRisks (Disease.prevalence d) p
                  else Disease.prevalence d) <= 1) as Hc.
    { destruct (0 <? length parents)%nat; [|done]. unfold combineRisks.
      split; nra. }
    set (c := if (0 <? length parents)%nat then _ else _) in *.
    unfold Rmin. destruct (Rle_dec _ _); split; nra.
Qed.

(** The result depends on nothing the members carry in [riskScores]. *)
Lemma calculateFamilyRisks_erase ms ms' ds :
  erase <$> ms = erase <$> ms' →
  (calculateFamilyRisks ms ds).1 = (calculateFamilyRisks ms' ds).1
  ∧ erase <$> (calculateFamilyRisks ms ds).2 = erase <$> ms
  ∧ ∀ i m1 m2,
      (calculateFamilyRisks ms ds).2 !! i = Some m1 →
      (calculateFamilyRisks ms' ds).2 !! i = Some m2 →
      FamilyMember.riskScores m1 = FamilyMember.riskScores m2.
Proof.
  intros Hs. rewrite !calculateFamilyRisks_spec. cbn [fst snd].
  assert (Hlk : ∀ i m1, ms !! i = Some m1 →
            ∃ m2, ms' !! i = Some m2 ∧ erase m1 = erase m2).
  { intros i m1 Hi. apply (f_equal (λ l, l !! i)) in Hs.
    rewrite !list_lookup_fmap, Hi in Hs. cbn in Hs.
    destruct (ms' !! i) as [m2|]; cbn in Hs; [|done].
    exists m2. split; [done|congruence]. }
  split; [|split].
  - apply list_bind_ext; [|done]. intros d.
    apply list_eq. intros i. rewrite !list_lookup_fmap.
    destruct (ms !! i) as [m1|] eqn:Hi.
    + destruct (Hlk i m1 Hi) as (m2 & -> & He). cbn. f_equal.
      by apply riskOf_same.
    + apply (f_equal (λ l, l !! i)) in Hs.
      rewrite !list_lookup_fmap, Hi in Hs. cbn in Hs.
      by destruct (ms' !! i).
  - rewrite <- list_fmap_compose. by apply list_fmap_ext.
  - intros i m1 m2. rewrite !list_lookup_fmap.
    destruct (ms !! i) as [n1|] eqn:Hi; [|done].
    destruct (Hlk i n1 Hi) as (n2 & -> & He). cbn.
    intros [= <-] [= <-]. cbn. unfold scoresFrom.
    rewrite He. clear -Hs. generalize (∅ : gmap string R).
    induction ds as [|d ds IH]; intros rs; [done|]. cbn.
    rewrite (riskOf_same ms ms' d (erase n2) (erase n2) Hs eq_refl).
    apply IH.
Qed.

(** C6. Whatever the members carried in [riskScores] before the call,
    after it every member's [riskScores] has exactly the ids of the
    supplied catalog as keys, and every value is in [0,1] (the catalog's
    prevalences and penetrances being probabilities); the other fields of
    the members are untouched. *)
Theorem riskScores_recomputed ms ds :
  (∀ d, d ∈ ds → 0 <= Disease.prevalence d <= 1
                 ∧ 0 <= Disease.penetrance d <= 1) →
  let ms' := (calculateFamilyRisks ms ds).2 in
  erase <$> ms' = erase <$> ms
  ∧ (∀ i m', ms' !! i = Some m' →
       dom (FamilyMember.riskScores m') = list_to_set (Disease.id <$> ds)
       ∧ ∀ k v, FamilyMember.riskScores m' !! k = Some v → 0 <= v <= 1)
  ∧ (∀ i m' m0, ms' !! i = Some m' →
       (calculateFamilyRisks (erase <$> ms) ds).2 !! i = Some m0 →
       FamilyMember.riskScores m' = FamilyMember.riskScores m0).
Proof.
  intros Hdom ms'.
  assert (He : erase <$> ms = erase <$> (erase <$> ms))
    by (by rewrite <- list_fmap_compose).
  destruct (calculateFamilyRisks_erase ms (erase <$> ms) ds He)
    as (_ & Hsame & Hrs).
  split; [done|]. split; [|intros i m' m0; apply Hrs].
  intros i m'. subst ms'. rewrite calculateFamilyRisks_spec. cbn [snd].
  rewrite list_lookup_fmap. destruct (ms !! i) as [m|]; [|done].
  intros [= <-]. cbn. rewrite scoresFrom_insertAll. split.
  - rewrite insertAll_dom. set_solver.
  - apply (insertAll_Forall Disease.id _ (λ v, 0 <= v <= 1)).
    + apply map_Forall_empty.
    + apply Forall_forall. intros d Hd. destruct (Hdom d Hd).
      by apply riskScore_bounds.
Qed.

Lemma riskScores_recomputed_witness :
  erase <$> (calculateFamilyRisks Sample.family Sample.catalog).2
  = erase <$> Sample.family.
Proof.
  refine (proj1 (riskScores_recomputed Sample.family Sample.catalog _)).
  intros d Hd. unfold Sample.catalog in Hd.
  apply elem_of_cons in Hd as [->|Hd];
    [|apply list_elem_of_singleton in Hd as ->]; cbn; lra.
Defined.

Lemma erase_riskScores_eq m1 m2 :
  erase m1 = erase m2 →
  FamilyMember.riskScores m1 = FamilyMember.riskScores m2 → m1 = m2.
Proof. destruct m1, m2. cbn. intros [= -> -> -> -> -> -> -> -> ->] ->. done. Qed.

Lemma calculateFamilyRisks_rerun ms ds :
  calculateFamilyRisks (calculateFamilyRisks ms ds).2 ds
  = calculateFamilyRisks ms ds.
Proof.
  set (ms1 := (calculateFamilyRisks ms ds).2).
  destruct (calculateFamilyRisks_erase ms ms ds eq_refl) as (_ & He & _).
  fold ms1 in He.
  destruct (calculateFamilyRisks_erase ms1 ms ds He) as (H1 & H2 & H3).
  rewrite (surjective_pairing (calculateFamilyRisks ms1 ds)).
  rewrite (surjective_pairing (calculateFamilyRisks ms ds)).
  f_equal; [done|]. fold ms1. fold ms1 in H3.
  rewrite He, <- He in H2.
  apply list_eq. intros i.
  apply (f_equal (λ l, l !! i)) in H2. rewrite !list_lookup_fmap in H2.
  specialize (H3 i).
  destruct ((calculateFamilyRisks ms1 ds).2 !! i) as [m1|],
           (ms1 !! i) as [m2|]; cbn in H2; try done.
  f_equal. apply erase_riskScores_eq; [congruence|]. by apply H3.
Qed.

End RiskFacts.

(** ** Properties of the layout engine *)

Module LayoutFacts.
Import TreeLayoutEngine LayoutSpec.
Local Open Scope R_scope.

#[local] Arguments memberRefs : simpl never.
#[local] Arguments refMap : simpl never.

(** *** References *)

Lemma memberRefs_lookup members i :
  memberRefs members !! i = refOf i <$> members !! i.
Proof. unfold memberRefs. apply list_lookup_imap. Qed.

Lemma memberRefs_length members :
  length (memberRefs members) = length members.
Proof. unfold memberRefs. apply length_imap. Qed.

Lemma elem_of_memberRefs members r :
  r ∈ memberRefs members ↔
  ∃ m, members !! slot r = Some m ∧ r = refOf (slot r) m.
Proof.
  rewrite list_elem_of_lookup. split.
  - intros (i & Hi). rewrite memberRefs_lookup in Hi.
    destruct (members !! i) as [m|] eqn:Hm; [|done].
    injection Hi as <-. cbn. eauto.
  - intros (m & Hm & Hr). exists (slot r).
    by rewrite memberRefs_lookup, Hm, Hr.
Qed.

Lemma memberRefs_slot_inj members r1 r2 :
  r1 ∈ memberRefs members → r2 ∈ memberRefs members →
  slot r1 = slot r2 → r1 = r2.
Proof.
  intros (m1 & H1 & E1)%elem_of_memberRefs (m2 & H2 & E2)%elem_of_memberRefs Hs.
  rewrite E1, E2. rewrite Hs in H1. congruence.
Qed.

Lemma memberRefs_ids members :
  ref_id <$> memberRefs members = FamilyMember.id <$> members.
Proof.
  apply list_eq. intros i.
  rewrite !list_lookup_fmap, memberRefs_lookup. by destruct (members !! i).
Qed.

Lemma memberRefs_id_inj members r1 r2 :
  NoDup (FamilyMember.id <$> members) →
  r1 ∈ memberRefs members → r2 ∈ memberRefs members →
  ref_id r1 = ref_id r2 → r1 = r2.
Proof.
  intros Hnd H1 H2 Hid. rewrite <- memberRefs_ids in Hnd.
  by apply (RiskFacts.NoDup_fmap_eq ref_id (memberRefs members)).
Qed.

Lemma foldl_insert_lookup_Some (refs : list MemberRef) k r :
  ∀ mp : gmap string MemberRef,
  foldl (λ mp r, <[ref_id r := r]> mp) mp refs !! k = Some r →
  (r ∈ refs ∧ ref_id r = k) ∨ mp !! k = Some r.
Proof.
  induction refs as [|r0 refs IH]; intros mp H; [by right|].
  cbn in H. apply IH in H as [[? ?]|H].
  - left. split; [by right|done].
  - destruct (decide (ref_id r0 = k)) as [<-|Hne].
    + rewrite lookup_insert_eq in H. injection H as <-. left.
      split; [by left|done].
    + rewrite lookup_insert_ne in H by done. by right.
Qed.

Lemma refMap_lookup_Some members k r :
  refMap members !! k = Some r → r ∈ memberRefs members ∧ ref_id r = k.
Proof.
  intros H. apply foldl_insert_lookup_Some in H as [?|H]; [done|].
  by rewrite lookup_empty in H.
Qed.

Lemma foldl_insert_lookup_elem (refs : list MemberRef) r :
  NoDup (ref_id <$> refs) →
  ∀ mp : gmap string MemberRef,
  r ∈ refs → foldl (λ mp r, <[ref_id r := r]> mp) mp refs !! ref_id r = Some r.
Proof.
  induction refs as [|r0 refs IH]; intros Hnd mp Hin; [by apply elem_of_nil in Hin|].
  cbn in Hnd. apply NoDup_cons in Hnd as [Hr0 Hnd]. cbn.
  apply elem_of_cons in Hin as [->|Hin]; [|by apply IH].
  clear IH. revert mp.
  assert (∀ mp : gmap string MemberRef, mp !! ref_id r0 = Some r0 →
            foldl (λ mp r, <[ref_id r := r]> mp) mp refs !! ref_id r0 = Some r0)
    as Hkeep.
  { clear Hnd. induction refs as [|r1 refs IH]; intros mp Hmp; [done|].
    cbn. apply IH.
    - intros Hin. apply Hr0. cbn. by right.
    - rewrite lookup_insert_ne; [done|]. intros Heq. apply Hr0. cbn.
      rewrite Heq. by left. }
  intros mp. apply Hkeep. by rewrite lookup_insert_eq.
Qed.

Lemma refMap_lookup_elem members r :
  NoDup (FamilyMember.id <$> members) →
  r ∈ memberRefs members → refMap members !! ref_id r = Some r.
Proof.
  intros Hnd Hin. apply foldl_insert_lookup_elem; [|done].
  by rewrite memberRefs_ids.
Qed.

(** *** The traversal terminates *)

Lemma pending_mono refs (v1 v2 : gset string) :
  v1 ⊆ v2 → (pending refs v2 ≤ pending refs v1)%nat.
Proof.
  intros Hsub. unfold pending.
  induction refs as [|r refs IH]; cbn; [done|].
  repeat case_decide; try lia. set_solver.
Qed.

Lemma pending_visit refs (v : gset string) r :
  r ∈ refs → ref_id r ∉ v →
  (pending refs (v ∪ {[ref_id r]}) + length (ref_childrenIds r)
   ≤ pending refs v)%nat.
Proof.
  intros Hin Hnv. induction refs as [|r0 refs IH]; [by apply elem_of_nil in Hin|].
  apply elem_of_cons in Hin as [<-|Hin].
  - pose proof (pending_mono refs v (v ∪ {[ref_id r]})) as Hm.
    unfold pending in *. cbn.
    rewrite decide_True by set_solver. rewrite decide_False by done.
    assert (v ⊆ v ∪ {[ref_id r]}) as Hs by set_solver.
    specialize (Hm Hs). lia.
  - specialize (IH Hin). unfold pending in *. cbn.
    repeat case_decide; try lia. set_solver.
Qed.

Lemma enqueueChildren_length mm v g cs : ∀ q,
  (length (enqueueChildren mm v g cs q) ≤ length q + length cs)%nat.
Proof.
  unfold enqueueChildren.
  induction cs as [|c cs IH]; intros q; cbn; [lia|].
  etrans; [apply IH|]. repeat case_match; rewrite ?length_app; cbn; lia.
Qed.

Lemma enqueueChildren_elem mm v g cs item : ∀ q,
  item ∈ enqueueChildren mm v g cs q ↔
  item ∈ q ∨ (item.2 = S g ∧ ∃ c, c ∈ cs ∧ (c ∉ v) ∧ mm !! c = Some (item.1)).
Proof.
  unfold enqueueChildren.
  induction cs as [|c cs IH]; intros q; cbn.
  - split; [by left|]. intros [?|(_ & c & Hc & _)]; [done|].
    by apply elem_of_nil in Hc.
  - rewrite IH. clear IH. split.
    + intros [Hq|(Hg & c' & Hc' & Hv & Hmm)].
      * destruct (mm !! c) as [rc|] eqn:Hc; [|by left].
        case_decide; [by left|].
        apply elem_of_app in Hq as [?|Hq]; [by left|].
        apply list_elem_of_singleton in Hq as ->. right. cbn.
        split; [done|]. exists c. split; [by left|done].
      * right. split; [done|]. exists c'. split; [by right|done].
    + intros [Hq|(Hg & c' & Hc' & Hv & Hmm)].
      * left. repeat case_match; [done| |done].
        apply elem_of_app. by left.
      * apply elem_of_cons in Hc' as [->|Hc'].
        -- left. rewrite Hmm. rewrite decide_False by done.
           apply elem_of_app. right. destruct item as [r g']. cbn in *.
           subst. by apply list_elem_of_singleton.
        -- right. split; [done|]. by exists c'.
Qed.

Lemma enqueueChildren_app mm v g cs : ∀ q,
  enqueueChildren mm v g cs q = q ++ enqueueChildren mm v g cs [].
Proof.
  unfold enqueueChildren.
  induction cs as [|c cs IH]; intros q; cbn; [by rewrite app_nil_r|].
  rewrite IH. rewrite (IH (match mm !! c with Some _ => _ | None => _ end)).
  rewrite app_assoc. f_equal.
  repeat case_match; by rewrite ?app_nil_r.
Qed.

Section Traversal.
Context (members : list FamilyMember.t).
Local Abbreviation refs := (memberRefs members).
Local Abbreviation mm := (refMap members).

Lemma bfsLoop_total fuel st :
  (∀ item, item ∈ queue st → item.1 ∈ refs) →
  (length (queue st) + pending refs (visited st) ≤ fuel)%nat →
  is_Some (bfsLoop fuel mm st).
Proof.
  revert st. induction fuel as [|fuel IH]; intros [q v s g] Hq Hfuel;
    cbn in *.
  - destruct q; [by eexists|cbn in Hfuel; lia].
  - destruct q as [|[r gr] rest]; [by eexists|].
    apply IH.
    + intros item. unfold bfsBody. cbn.
      case_decide; cbn.
      * intros ?. apply Hq. by right.
      * intros [?|(_ & c & _ & _ & Hc)]%enqueueChildren_elem.
        -- apply Hq. by right.
        -- by apply refMap_lookup_Some in Hc as [? _].
    + unfold bfsBody. cbn. case_decide; cbn; [cbn in Hfuel; lia|].
      pose proof (enqueueChildren_length mm (v ∪ {[ref_id r]}) gr
                    (ref_childrenIds r) rest).
      pose proof (pending_visit refs v r) as Hp.
      cbn in Hfuel. specialize (Hp (Hq (r, gr) ltac:(by left))).
      specialize (Hp ltac:(done)). lia.
Qed.
End Traversal.

(** An invariant of the loop body holds when the loop ends, and the loop
    ends with an empty queue. *)
Lemma bfsLoop_inv (P : BfsState → Prop) mm :
  (∀ item rest v s g,
     P (mkBfsState (item :: rest) v s g) →
     P (bfsBody mm item (mkBfsState rest v s g))) →
  ∀ fuel st st', P st → bfsLoop fuel mm st = Some st' →
  P st' ∧ queue st' = [].
Proof.
  intros Hstep fuel. induction fuel as [|fuel IH]; intros [q v s g] st' HP Hrun;
    cbn in Hrun.
  - destruct q; [|done]. by injection Hrun as <-.
  - destruct q as [|item rest]; [by injection Hrun as <-|].
    eapply IH; [|done]. by apply Hstep.
Qed.

(** *** The writes of the traversal *)

Lemma applyWrites_lookup log s i :
  applyWrites log s !! i = written (lastWrite log i) <$> s !! i.
Proof.
  unfold applyWrites, lastWrite.
  induction log as [|[a g] log IH] using rev_ind.
  - cbn. by destruct (s !! i).
  - rewrite foldl_app. cbn [foldl fst snd]. rewrite filter_app.
    destruct (decide (a = i)) as [->|Hne].
    + rewrite filter_cons_True, filter_nil by done.
      rewrite last_snoc. cbn.
      rewrite list_lookup_alter, decide_True by done. rewrite IH.
      destruct (s !! i) as [m|]; [|done]. cbn. f_equal.
      by destruct (snd <$> _).
    + rewrite filter_cons_False, filter_nil, app_nil_r by done.
      by rewrite list_lookup_alter_ne.
Qed.

Lemma applyWrites_idemp log s :
  applyWrites log (applyWrites log s) = applyWrites log s.
Proof.
  apply list_eq. intros i. rewrite !applyWrites_lookup.
  destruct (s !! i) as [m|]; [|done]. cbn. f_equal.
  by destruct (lastWrite log i).
Qed.

Lemma memberRefs_applyWrites log s :
  memberRefs (applyWrites log s) = memberRefs s.
Proof.
  apply list_eq. intros i. rewrite !memberRefs_lookup, applyWrites_lookup.
  destruct (s !! i) as [m|]; [|done]. cbn. f_equal.
  by destruct (lastWrite log i).
Qed.

(** The store is written, never read: the traversal does the same from
    any store, and the store it leaves is the one it got with its writes
    applied. *)
Lemma bfsLoop_store mm fuel : ∀ st st',
  bfsLoop fuel mm st = Some st' →
  ∃ log, ∀ s,
    bfsLoop fuel mm (mkBfsState (queue st) (visited st) s (generations st))
    = Some (mkBfsState (queue st') (visited st') (applyWrites log s)
                       (generations st')).
Proof.
  induction fuel as [|fuel IH]; intros [q v s0 g] st' Hrun; cbn in Hrun.
  - destruct q; [|done]. injection Hrun as <-. by exists [].
  - destruct q as [|[r gr] rest]; [injection Hrun as <-; by exists []|].
    unfold bfsBody in Hrun. cbn in Hrun.
    destruct (decide (ref_id r ∈ v)) as [Hv|Hv].
    + apply IH in Hrun as [log Hlog]. exists log. intros s. cbn.
      unfold bfsBody. cbn. rewrite decide_True by done. apply Hlog.
    + apply IH in Hrun as [log Hlog]. exists ((slot r, gr) :: log).
      intros s. cbn. unfold bfsBody. cbn. rewrite decide_False by done.
      apply Hlog.
Qed.

Lemma bfsFuel_refs members :
  bfsFuel members
  = (length (memberRefs members)
     + sum_list ((λ r, length (ref_childrenIds r)) <$> memberRefs members))%nat.
Proof.
  unfold bfsFuel. rewrite memberRefs_length. f_equal. f_equal.
  apply list_eq. intros i.
  rewrite !list_lookup_fmap, memberRefs_lookup. by destruct (members !! i).
Qed.

Lemma pending_empty refs :
  pending refs ∅ = sum_list ((λ r, length (ref_childrenIds r)) <$> refs).
Proof.
  unfold pending. induction refs as [|r refs IH]; [done|]. cbn.
  rewrite decide_False by set_solver. by rewrite IH.
Qed.

Lemma elem_of_rootQueue members item :
  item ∈ rootQueue members ↔
  item.1 ∈ memberRefs members ∧ ref_parentIds item.1 = [] ∧ item.2 = 0%nat.
Proof.
  unfold rootQueue. rewrite list_elem_of_fmap. split.
  - intros (r & -> & Hr). apply list_elem_of_In, filter_In in Hr as [Hr Hp].
    cbn. split; [by apply list_elem_of_In|]. split; [|done].
    apply Nat.eqb_eq in Hp. by destruct (ref_parentIds r).
  - intros (Hin & Hp & Hg). exists item.1. split.
    + destruct item. cbn in *. by subst.
    + apply list_elem_of_In, filter_In. split; [by apply list_elem_of_In|].
      by rewrite Hp.
Qed.

Lemma rootQueue_length members :
  (length (rootQueue members) ≤ length members)%nat.
Proof.
  unfold rootQueue. rewrite length_fmap, <- memberRefs_length.
  apply filter_length_le.
Qed.

Lemma organizeByGenerations_total members :
  is_Some (organizeByGenerations members (refMap members)).
Proof.
  unfold organizeByGenerations. fold (rootQueue members).
  destruct (bfsLoop_total members (bfsFuel members)
              (mkBfsState (rootQueue members) ∅ members [])) as [st Hst].
  - intros item Hin. cbn in Hin. by apply elem_of_rootQueue in Hin as [? _].
  - cbn. rewrite pending_empty, bfsFuel_refs.
    pose proof (rootQueue_length members). rewrite memberRefs_length. lia.
  - rewrite Hst. by eexists.
Qed.

(** The layout is computed for every input. *)
Lemma calculateLayout_total members config :
  is_Some (calculateLayout members config).
Proof.
  unfold calculateLayout.
  destruct (organizeByGenerations_total members) as [[s g] ->]. by eexists.
Qed.

(** *** Running the engines again *)

Lemma organizeByGenerations_rerun members s g :
  organizeByGenerations members (refMap members) = Some (s, g) →
  memberRefs s = memberRefs members
  ∧ organizeByGenerations s (refMap s) = Some (s, g).
Proof.
  unfold organizeByGenerations. intros Hrun.
  destruct (bfsLoop _ _ _) as [st|] eqn:Hst; [|done].
  cbn in Hrun. injection Hrun as <- <-.
  destruct (bfsLoop_store _ _ _ _ Hst) as [log Hlog]. cbn in Hlog.
  pose proof (Hlog members) as H1. rewrite Hst in H1. injection H1 as H1.
  assert (Hs : store st = applyWrites log members) by (by rewrite H1).
  assert (Hrefs : memberRefs (store st) = memberRefs members)
    by (by rewrite Hs, memberRefs_applyWrites).
  split; [done|].
  unfold refMap. rewrite !bfsFuel_refs, Hrefs, <- bfsFuel_refs.
  fold (refMap members). rewrite (Hlog (store st)). cbn.
  by rewrite Hs, applyWrites_idemp.
Qed.

Lemma refMap_refs s members :
  memberRefs s = memberRefs members → refMap s = refMap members.
Proof. unfold refMap. by intros ->. Qed.

(** C9. A second call on the graph the first call left behind returns the
    same risk records and leaves the same [riskScores]; a second layout
    returns the same positioned members (the z coordinate is a function of
    the id) and leaves the same generations. *)
Theorem rerun_identical ms ds config :
  GeneticSimulator.calculateFamilyRisks
    (GeneticSimulator.calculateFamilyRisks ms ds).2 ds
  = GeneticSimulator.calculateFamilyRisks ms ds
  ∧ match calculateLayout ms config with
    | Some (ms1, out) => calculateLayout ms1 config = Some (ms1, out)
    | None => False
    end.
Proof.
  split; [apply RiskFacts.calculateFamilyRisks_rerun|].
  unfold calculateLayout at 1.
  destruct (organizeByGenerations ms (refMap ms)) as [[s g]|] eqn:Hrun;
    [|destruct (organizeByGenerations_total ms) as [? ?]; congruence].
  cbn. apply organizeByGenerations_rerun in Hrun as [Hrefs Hrun].
  unfold calculateLayout. rewrite Hrun. cbn.
  by rewrite (refMap_refs _ _ Hrefs).
Qed.

(** *** The descendant count on a cycle *)

Lemma countDescendants_cycle fuel :
  countDescendants fuel (refOf 0 (Sample.person "a" male ["c"] ["b"] []))
                   (refMap Sample.cycle) = None
  ∧ countDescendants fuel (refOf 1 (Sample.person "b" male ["a"] ["c"] []))
                     (refMap Sample.cycle) = None
  ∧ countDescendants fuel (refOf 2 (Sample.person "c" male ["b"] ["a"] []))
                     (refMap Sample.cycle) = None.
Proof.
  induction fuel as [|fuel (Ha & Hb & Hc)]; [done|].
  assert (refMap Sample.cycle !! "a"
          = Some (refOf 0 (Sample.person "a" male ["c"] ["b"] []))) as Ea
    by (by vm_compute).
  assert (refMap Sample.cycle !! "b"
          = Some (refOf 1 (Sample.person "b" male ["a"] ["c"] []))) as Eb
    by (by vm_compute).
  assert (refMap Sample.cycle !! "c"
          = Some (refOf 2 (Sample.person "c" male ["b"] ["a"] []))) as Ec
    by (by vm_compute).
  cbn [countDescendants refOf ref_childrenIds Sample.person
       FamilyMember.childrenIds foldl mbind option_bind].
  rewrite Ea, Eb, Ec. cbn [mbind option_bind length].
  fold (refOf 0 (Sample.person "a" male ["c"] ["b"] [])).
  fold (refOf 1 (Sample.person "b" male ["a"] ["c"] [])).
  fold (refOf 2 (Sample.person "c" male ["b"] ["a"] [])).
  unfold Sample.person in *. cbn in *.
  by rewrite Ha, Hb, Hc.
Qed.

(** C10. On the three-member cycle [Sample.cycle] the comparator of
    [optimizeLayout] never returns: whatever depth the recursion of
    [countDescendants] is given, it is not enough. *)
Theorem optimizeLayout_cycle fuel : optimizeLayout fuel Sample.cycle = None.
Proof.
  destruct (countDescendants_cycle fuel) as (Ha & Hb & Hc).
  unfold optimizeLayout.
  assert (foldl (λ generations '(member, ref),
                   pushGeneration generations
                     (FamilyMember.generation member) ref)
                [] (zip Sample.cycle (memberRefs Sample.cycle))
          = [(0%nat, [refOf 0 (Sample.person "a" male ["c"] ["b"] []);
                      refOf 1 (Sample.person "b" male ["a"] ["c"] []);
                      refOf 2 (Sample.person "c" male ["b"] ["a"] [])])])
    as -> by reflexivity.
  set (mm := refMap Sample.cycle) in *.
  set (a := refOf 0 _) in *. set (b := refOf 1 _) in *.
  set (c := refOf 2 _) in *.
  cbn [mapM mbind option_bind sortBy insertBy].
  by rewrite Hb, Hc.
Qed.

Lemma elem_of_concat {A} (a : A) (ls : list (list A)) :
  a ∈ concat ls ↔ ∃ l, a ∈ l ∧ l ∈ ls.
Proof.
  rewrite list_elem_of_In, in_concat. split; intros (l & H1 & H2); exists l.
  - by rewrite !list_elem_of_In.
  - by rewrite <- !list_elem_of_In.
Qed.

Lemma elem_of_List_filter {A} (f : A → bool) (l : list A) a :
  a ∈ List.filter f l ↔ a ∈ l ∧ f a = true.
Proof. by rewrite !list_elem_of_In, filter_In. Qed.

(** *** The generation lists *)

Lemma pushGeneration_placed gens g0 r0 g r :
  placed (pushGeneration gens g0 r0) g r ↔
  placed gens g r ∨ (g = g0 ∧ r = r0).
Proof.
  unfold placed. induction gens as [|[g1 l1] gens IH]; cbn.
  - split.
    + intros (l & Hl & Hr). apply list_elem_of_singleton in Hl.
      injection Hl as -> ->. apply list_elem_of_singleton in Hr. by right.
    + intros [(l & Hl & _)|[-> ->]]; [by apply elem_of_nil in Hl|].
      exists [r0]. split; by apply list_elem_of_singleton.
  - destruct (Nat.eqb_spec g1 g0) as [->|Hne].
    + split.
      * intros (l & Hl & Hr). apply elem_of_cons in Hl as [Hl|Hl].
        -- injection Hl as -> ->. apply elem_of_app in Hr as [Hr|Hr].
           ++ left. exists l1. split; [by left|done].
           ++ apply list_elem_of_singleton in Hr. by right.
        -- left. exists l. split; [by right|done].
      * intros [(l & Hl & Hr)|[-> ->]].
        -- apply elem_of_cons in Hl as [Hl|Hl].
           ++ injection Hl as -> ->. exists (l1 ++ [r0]).
              split; [by left|]. apply elem_of_app. by left.
           ++ exists l. split; [by right|done].
        -- exists (l1 ++ [r0]). split; [by left|].
           apply elem_of_app. right. by apply list_elem_of_singleton.
    + split.
      * intros (l & Hl & Hr). apply elem_of_cons in Hl as [Hl|Hl].
        -- injection Hl as -> ->. left. exists l1. split; [by left|done].
        -- destruct (proj1 IH) as [(l' & Hl' & Hr')|?]; [by eauto| |by right].
           left. exists l'. split; [by right|done].
      * intros [(l & Hl & Hr)|[-> ->]].
        -- apply elem_of_cons in Hl as [Hl|Hl].
           ++ injection Hl as -> ->. exists l1. split; [by left|done].
           ++ destruct (proj2 IH) as (l' & Hl' & Hr'); [left; by eauto|].
              exists l'. split; [by right|done].
        -- destruct (proj2 IH) as (l' & Hl' & Hr'); [by right|].
           exists l'. split; [by right|done].
Qed.

Lemma pushGeneration_keys gens g0 r0 :
  fst <$> pushGeneration gens g0 r0
  = if decide (g0 ∈ fst <$> gens) then fst <$> gens else (fst <$> gens) ++ [g0].
Proof.
  induction gens as [|[g1 l1] gens IH]; cbn.
  - by rewrite decide_False by apply not_elem_of_nil.
  - destruct (Nat.eqb_spec g1 g0) as [->|Hne]; cbn.
    + by rewrite decide_True by (by left).
    + rewrite IH. destruct (decide (g0 ∈ fst <$> gens)) as [Hin|Hnin].
      * by rewrite decide_True by (by right).
      * rewrite decide_False; [done|].
        intros [?|?]%elem_of_cons; congruence.
Qed.

Lemma pushGeneration_keys_NoDup gens g0 r0 :
  NoDup (fst <$> gens) → NoDup (fst <$> pushGeneration gens g0 r0).
Proof.
  intros Hnd. rewrite pushGeneration_keys. case_decide; [done|].
  apply NoDup_app. split; [done|]. split; [|apply NoDup_singleton].
  intros g Hg ->%list_elem_of_singleton. done.
Qed.

Lemma pushGeneration_perm gens g0 r0 :
  concat (snd <$> pushGeneration gens g0 r0) ≡ₚ r0 :: concat (snd <$> gens).
Proof.
  induction gens as [|[g1 l1] gens IH]; cbn; [done|].
  destruct (Nat.eqb_spec g1 g0) as [->|Hne]; cbn.
  - rewrite <- app_assoc. cbn. by rewrite <- Permutation_middle.
  - rewrite IH. by rewrite <- Permutation_middle.
Qed.

Lemma elem_of_concat_placed gens r :
  r ∈ concat (snd <$> gens) ↔ ∃ g, placed gens g r.
Proof.
  unfold placed. induction gens as [|[g1 l1] gens IH]; cbn.
  - split; [by intros ?%elem_of_nil|].
    intros (g & l & Hl & _). by apply elem_of_nil in Hl.
  - rewrite elem_of_app, IH. split.
    + intros [Hr|(g & l & Hl & Hr)].
      * exists g1, l1. split; [by left|done].
      * exists g, l. split; [by right|done].
    + intros (g & l & Hl & Hr). apply elem_of_cons in Hl as [Hl|Hl].
      * injection Hl as -> ->. by left.
      * right. by exists g, l.
Qed.

Lemma memberRefs_alter_generation s a g :
  memberRefs (alter (FamilyMember.set_generation g) a s) = memberRefs s.
Proof.
  apply list_eq. intros i. rewrite !memberRefs_lookup, list_lookup_alter.
  case_decide; [|done]. subst. by destruct (s !! i).
Qed.

Lemma gen_at_alter_ne s a g r :
  slot r ≠ a → gen_at (alter (FamilyMember.set_generation g) a s) r = gen_at s r.
Proof. intros Hne. unfold gen_at. by rewrite list_lookup_alter_ne. Qed.

Lemma gen_at_alter_eq s g r :
  r ∈ memberRefs s →
  gen_at (alter (FamilyMember.set_generation g) (slot r) s) r = Some g.
Proof.
  intros (m & Hm & _)%elem_of_memberRefs. unfold gen_at.
  by rewrite list_lookup_alter, decide_True, Hm by done.
Qed.

(** *** Invariants of the traversal, for members with distinct ids *)

Section Invariants.
Context (members : list FamilyMember.t).
Context (Hids : NoDup (FamilyMember.id <$> members)).
Local Abbreviation refs := (memberRefs members).
Local Abbreviation mm := (refMap members).

Lemma rootQueue_split r :
  r ∈ refs → isRoot r →
  ∃ q1 q2, rootQueue members = q1 ++ (r, 0%nat) :: q2
           ∧ ∀ item, item ∈ q1 → ref_id item.1 ≠ ref_id r.
Proof.
  intros Hr Hroot.
  assert ((r, 0%nat) ∈ rootQueue members) as Hin
    by (by apply elem_of_rootQueue).
  apply list_elem_of_split in Hin as (q1 & q2 & Hq). exists q1, q2.
  split; [done|]. intros item Hitem Heq.
  assert (NoDup (ref_id <$> (fst <$> rootQueue members))) as Hnd.
  { assert (fst <$> rootQueue members
            = List.filter (λ m, (length (ref_parentIds m) =? 0)%nat) refs) as ->.
    { unfold rootQueue. fold refs. induction (List.filter _ refs); cbn; congruence. }
    apply (NoDup_fmap_2_strong ref_id).
    - intros a b Ha%elem_of_List_filter Hb%elem_of_List_filter.
      apply (memberRefs_id_inj members); tauto.
    - fold refs. apply NoDup_ListNoDup, List.NoDup_filter, NoDup_ListNoDup.
      apply (NoDup_fmap_1 ref_id). by rewrite memberRefs_ids. }
  rewrite Hq, !fmap_app in Hnd. cbn in Hnd.
  apply NoDup_app in Hnd as (_ & Hdisj & _).
  apply (Hdisj (ref_id r)).
  - rewrite <- Heq. by do 2 apply list_elem_of_fmap_2.
  - by left.
Qed.

Lemma BfsInv_init :
  BfsInv members (mkBfsState (rootQueue members) ∅ members []).
Proof.
  split; cbn.
  - intros item Hin. by apply elem_of_rootQueue in Hin as [? _].
  - done.
  - intros g r (l & Hl & _). by apply elem_of_nil in Hl.
  - intros r _ Hv. by apply not_elem_of_empty in Hv.
  - apply NoDup_nil_2.
  - apply NoDup_nil_2.
  - intros r Hr Hroot. right. split; [apply not_elem_of_empty|].
    by apply rootQueue_split.
  - intros item Hin. left. by apply elem_of_rootQueue in Hin as (_ & ? & ?).
  - intros r g _ Hv. by apply not_elem_of_empty in Hv.
  - intros r c rc _ Hv. by apply not_elem_of_empty in Hv.
Qed.

Lemma BfsInv_step item rest v s g :
  BfsInv members (mkBfsState (item :: rest) v s g) →
  BfsInv members (bfsBody mm item (mkBfsState rest v s g)).
Proof.
  intros [Hq Hs Hsound Hcompl Hkeys Honce Hroots Henq Hvis Hclosed].
  cbn in *. destruct item as [r0 g0]. unfold bfsBody. cbn.
  destruct (decide (ref_id r0 ∈ v)) as [Hv|Hv].
  { (* the member was visited already *)
    split; cbn; try done.
    - intros item Hin. apply Hq. by right.
    - intros r Hr Hroot.
      destruct (Hroots r Hr Hroot) as [?|(Hnv & q1 & q2 & Hq12 & Hne)];
        [by left|right].
      split; [done|]. destruct q1 as [|i1 q1]; cbn in Hq12.
      + injection Hq12 as -> _ _. done.
      + injection Hq12 as <- ->. exists q1, q2. split; [done|].
        intros item Hin. apply Hne. by right.
    - intros item Hin. apply Henq. by right.
    - intros r c rc Hr Hrv Hc Hmm.
      destruct (Hclosed r c rc Hr Hrv Hc Hmm) as [?|(g' & Hin)]; [by left|].
      apply elem_of_cons in Hin as [Heq|Hin]; [|right; by eauto].
      injection Heq as -> ->. left.
      by apply refMap_lookup_Some in Hmm as [_ <-]. }
  (* the member is visited now *)
  set (v' := v ∪ {[ref_id r0]}).
  set (s' := alter (FamilyMember.set_generation g0) (slot r0) s).
  assert (Hr0 : r0 ∈ refs) by (apply (Hq (r0, g0)); by left).
  assert (Hkeep : ∀ r, r ∈ refs → ref_id r ∈ v → gen_at s' r = gen_at s r).
  { intros r Hr Hrv. apply gen_at_alter_ne. intros Heq.
    apply (memberRefs_slot_inj members) in Heq; [|done..]. by subst. }
  assert (Hnew : gen_at s' r0 = Some g0).
  { apply gen_at_alter_eq. by rewrite Hs. }
  assert (Hlift : ∀ r gg, enqueuedBy refs v s r gg → enqueuedBy refs v' s' r gg).
  { intros r gg [?|(r' & g1 & Hr' & Hr'v & Hg' & Heq & Hch)]; [by left|].
    right. exists r', g1. split; [done|]. split; [set_solver|].
    split; [by rewrite Hkeep|done]. }
  split; cbn; fold v' s'.
  - intros item [Hin|(_ & c & _ & _ & Hc)]%enqueueChildren_elem.
    + apply Hq. by right.
    + by apply refMap_lookup_Some in Hc as [? _].
  - unfold s'. by rewrite memberRefs_alter_generation.
  - intros gg r [Hpl|[-> ->]]%pushGeneration_placed.
    + destruct (Hsound gg r Hpl) as (Hr & Hrv & Hg).
      split; [done|]. split; [set_solver|]. by rewrite Hkeep.
    + split; [done|]. split; [set_solver|done].
  - intros r Hr [Hrv|Heq%elem_of_singleton]%elem_of_union.
    + destruct (Hcompl r Hr Hrv) as [gg Hpl]. exists gg.
      apply pushGeneration_placed. by left.
    + apply (memberRefs_id_inj members) in Heq; [|done..]. subst r.
      exists g0. apply pushGeneration_placed. by right.
  - by apply pushGeneration_keys_NoDup.
  - rewrite pushGeneration_perm. cbn. apply NoDup_cons. split; [|done].
    intros (r & Heq & Hin)%list_elem_of_fmap.
    apply elem_of_concat_placed in Hin as [gg Hpl].
    destruct (Hsound gg r Hpl) as (_ & Hrv & _). congruence.
  - intros r Hr Hroot.
    destruct (Hroots r Hr Hroot) as [[Hrv Hg]|(Hnv & q1 & q2 & Hq12 & Hne)].
    + left. split; [set_solver|]. by rewrite Hkeep.
    + destruct q1 as [|i1 q1]; cbn in Hq12.
      * injection Hq12 as -> -> _. left. split; [set_solver|done].
      * injection Hq12 as <- ->. right. split.
        -- intros [?|Heq%elem_of_singleton]%elem_of_union; [done|].
           apply (Hne (r0, g0)); [by left|done].
        -- exists q1, (q2 ++ enqueueChildren mm v' g0 (ref_childrenIds r0) []).
           split; [by rewrite enqueueChildren_app, <- app_assoc|].
           intros item Hin. apply Hne. by right.
  - intros item [Hin|(Hg & c & Hc & Hcv & Hmm)]%enqueueChildren_elem.
    + apply Hlift, Henq. by right.
    + right. exists r0, g0. split; [done|]. split; [set_solver|].
      split; [done|]. split; [done|].
      by apply refMap_lookup_Some in Hmm as [_ ->].
  - intros r gg Hr [Hrv|Heq%elem_of_singleton]%elem_of_union Hg.
    + rewrite Hkeep in Hg by done. by apply Hlift, Hvis.
    + apply (memberRefs_id_inj members) in Heq; [|done..]. subst r.
      rewrite Hnew in Hg. injection Hg as <-.
      apply Hlift, (Henq (r0, g0)). by left.
  - intros r c rc Hr Hrv Hc Hmm.
    destruct (decide (c ∈ v')) as [?|Hcv]; [by left|right].
    apply elem_of_union in Hrv as [Hrv|Heq%elem_of_singleton].
    + destruct (Hclosed r c rc Hr Hrv Hc Hmm) as [?|(gg & Hin)]; [set_solver|].
      apply elem_of_cons in Hin as [Heq|Hin].
      * injection Heq as -> ->. exfalso. apply Hcv.
        apply refMap_lookup_Some in Hmm as [_ <-]. set_solver.
      * exists gg. apply enqueueChildren_elem. by left.
    + apply (memberRefs_id_inj members) in Heq; [|done..]. subst r.
      exists (S g0). apply enqueueChildren_elem. right. cbn.
      split; [done|]. by exists c.
Qed.

(** The state the traversal ends in. *)
Lemma organizeByGenerations_inv s g :
  organizeByGenerations members mm = Some (s, g) →
  ∃ v, BfsInv members (mkBfsState [] v s g).
Proof.
  unfold organizeByGenerations. fold (rootQueue members).
  destruct (bfsLoop _ _ _) as [st|] eqn:Hrun; [|done]. cbn.
  intros [= <- <-].
  apply (bfsLoop_inv (BfsInv members) mm) in Hrun as [Hinv Hq].
  - exists (visited st). destruct st. cbn in *. by subst.
  - intros. by apply BfsInv_step.
  - apply BfsInv_init.
Qed.

(** *** Two members listed as children by the same members *)

Lemma firstGen_cons k r g q :
  firstGen k ((r, g) :: q)
  = if decide (ref_id r = k) then Some g else firstGen k q.
Proof.
  unfold firstGen. case_decide.
  - by rewrite filter_cons_True.
  - by rewrite filter_cons_False.
Qed.

Lemma firstGen_app k q1 q2 :
  firstGen k (q1 ++ q2)
  = match firstGen k q1 with Some g => Some g | None => firstGen k q2 end.
Proof.
  unfold firstGen. rewrite filter_app.
  by destruct (filter _ q1).
Qed.

Lemma firstGen_enqueue k v g cs :
  firstGen k (enqueueChildren mm v g cs [])
  = if decide (k ∈ cs ∧ (k ∉ v) ∧ is_Some (mm !! k)) then Some (S g) else None.
Proof.
  induction cs as [|c cs IH].
  - cbn. rewrite decide_False; [done|]. intros [?%elem_of_nil _]. done.
  - change (enqueueChildren mm v g (c :: cs) [])
      with (enqueueChildren mm v g cs
              (match mm !! c with
               | Some child =>
                   if decide (c ∈ v) then [] else [] ++ [(child, S g)]
               | None => []
               end)).
    rewrite enqueueChildren_app, firstGen_app, IH. clear IH.
    assert (firstGen k (match mm !! c with
                        | Some child =>
                            if decide (c ∈ v) then [] else [] ++ [(child, S g)]
                        | None => []
                        end)
            = if decide (c = k ∧ (c ∉ v) ∧ is_Some (mm !! c))
              then Some (S g) else None) as ->.
    { destruct (mm !! c) as [rc|] eqn:Hc.
      - apply refMap_lookup_Some in Hc as Hrc. destruct Hrc as [_ Hrc].
        destruct (decide (c ∈ v)).
        + cbn. rewrite decide_False; [done|]. naive_solver.
        + cbn. rewrite firstGen_cons. cbn. rewrite Hrc.
          destruct (decide (c = k));
            [rewrite decide_True|rewrite decide_False]; naive_solver.
      - cbn. rewrite decide_False; [done|]. intros (_ & _ & [? ?]). done. }
    repeat case_decide; try done; exfalso;
      repeat match goal with H : ¬ _ |- _ => revert H end;
      rewrite ?elem_of_cons in *; naive_solver.
Qed.

Section Siblings.
Context (p q : MemberRef).
Context (Hp : p ∈ refs) (Hq : q ∈ refs) (Hpq : ref_id p ≠ ref_id q).
Context (Hnp : ¬ isRoot p) (Hnq : ¬ isRoot q).
Context (Hsame : ∀ r, r ∈ refs →
  ref_id p ∈ ref_childrenIds r ↔ ref_id q ∈ ref_childrenIds r).

Lemma firstGen_rootQueue a :
  a ∈ refs → ¬ isRoot a → firstGen (ref_id a) (rootQueue members) = None.
Proof.
  intros Ha Hna. unfold firstGen.
  destruct (filter _ _) as [|item l] eqn:Hf; [done|exfalso].
  assert (item ∈ filter (λ item, ref_id item.1 = ref_id a) (rootQueue members))
    as [Hid Hin]%list_elem_of_filter by (rewrite Hf; by left).
  apply elem_of_rootQueue in Hin as (Hin & Hroot & _).
  apply (memberRefs_id_inj members) in Hid; [|done..]. by subst.
Qed.

Lemma SibInv_init : SibInv p q (mkBfsState (rootQueue members) ∅ members []).
Proof.
  left. cbn. split; [apply not_elem_of_empty|]. split; [apply not_elem_of_empty|].
  by rewrite !firstGen_rootQueue.
Qed.

Lemma enqueue_same v g r :
  r ∈ refs → ref_id p ∉ v → ref_id q ∉ v →
  firstGen (ref_id p) (enqueueChildren mm v g (ref_childrenIds r) [])
  = firstGen (ref_id q) (enqueueChildren mm v g (ref_childrenIds r) []).
Proof.
  intros Hr Hpv Hqv. rewrite !firstGen_enqueue.
  pose proof (refMap_lookup_elem members p Hids Hp) as Hmp.
  pose proof (refMap_lookup_elem members q Hids Hq) as Hmq.
  fold mm in Hmp, Hmq. specialize (Hsame r Hr).
  repeat case_decide; try done; exfalso.
  - apply H0. split; [tauto|]. split; [done|]. by rewrite Hmq.
  - apply H. split; [tauto|]. split; [done|]. by rewrite Hmp.
Qed.

Lemma oneVisited_step a b r0 g0 rest v s g :
  a ∈ refs → b ∈ refs →
  BfsInv members (mkBfsState ((r0, g0) :: rest) v s g) →
  oneVisited a b (mkBfsState ((r0, g0) :: rest) v s g) →
  let st' := bfsBody mm (r0, g0) (mkBfsState rest v s g) in
  oneVisited a b st'
  ∨ (ref_id a ∈ visited st' ∧ ref_id b ∈ visited st'
     ∧ ∃ g, gen_at (store st') a = Some g ∧ gen_at (store st') b = Some g).
Proof.
  intros Ha Hb Hinv (Hav & Hbv & ga & Hga & Hfirst). cbn in *.
  assert (Hr0 : r0 ∈ refs) by (apply (inv_queue _ _ Hinv (r0, g0)); by left).
  rewrite firstGen_cons in Hfirst. unfold bfsBody. cbn.
  destruct (decide (ref_id r0 ∈ v)) as [Hv|Hv]; cbn.
  - left. split; [done|]. split; [done|]. exists ga. split; [done|]. cbn.
    rewrite decide_False in Hfirst; [done|]. congruence.
  - assert (gen_at (alter (FamilyMember.set_generation g0) (slot r0) s) a
            = Some ga) as Hga'.
    { rewrite gen_at_alter_ne; [done|]. intros Heq.
      apply (memberRefs_slot_inj members) in Heq; [|done..]. by subst. }
    destruct (decide (ref_id r0 = ref_id b)) as [Heq|Hne].
    + right. injection Hfirst as ->.
      apply (memberRefs_id_inj members) in Heq; [|done..]. subst r0.
      split; [set_solver|]. split; [set_solver|]. exists ga. split; [done|].
      apply gen_at_alter_eq. pose proof (inv_store _ _ Hinv) as Hs; cbn in Hs; by rewrite Hs.
    + left. split; [set_solver|]. split; [set_solver|]. exists ga.
      split; [done|]. cbn [queue].
      by rewrite enqueueChildren_app, firstGen_app, Hfirst.
Qed.

Lemma SibInv_step item rest v s g :
  BfsInv members (mkBfsState (item :: rest) v s g) →
  SibInv p q (mkBfsState (item :: rest) v s g) →
  SibInv p q (bfsBody mm item (mkBfsState rest v s g)).
Proof.
  intros Hinv [(Hpv & Hqv & Hfirst)|[Hone|[Hone|Hboth]]]; destruct item as [r0 g0].
  - cbn in *.
    assert (Hr0 : r0 ∈ refs) by (apply (inv_queue _ _ Hinv (r0, g0)); by left).
    rewrite !firstGen_cons in Hfirst. unfold bfsBody. cbn.
    destruct (decide (ref_id r0 ∈ v)) as [Hv|Hv]; cbn.
    { left. split; [done|]. split; [done|].
      cbn. rewrite !decide_False in Hfirst; [done|congruence..]. }
    assert (Hnew : gen_at (alter (FamilyMember.set_generation g0) (slot r0) s) r0
                   = Some g0).
    { apply gen_at_alter_eq. pose proof (inv_store _ _ Hinv) as Hs; cbn in Hs; by rewrite Hs. }
    destruct (decide (ref_id r0 = ref_id p)) as [Heqp|Hnep].
    + rewrite decide_False in Hfirst by congruence.
      apply (memberRefs_id_inj members) in Heqp; [|done..]. subst r0.
      right. left. split; [set_solver|]. split; [set_solver|].
      exists g0. split; [done|]. cbn [queue].
      by rewrite enqueueChildren_app, firstGen_app, <- Hfirst.
    + destruct (decide (ref_id r0 = ref_id q)) as [Heqq|Hneq].
      * apply (memberRefs_id_inj members) in Heqq; [|done..]. subst r0.
        right. right. left. split; [set_solver|]. split; [set_solver|].
        exists g0. split; [done|]. cbn [queue].
        by rewrite enqueueChildren_app, firstGen_app, Hfirst.
      * left. split; [set_solver|]. split; [set_solver|]. cbn [queue].
        rewrite enqueueChildren_app, !firstGen_app, Hfirst.
        rewrite (enqueue_same _ _ r0) by set_solver. done.
  - destruct (oneVisited_step p q r0 g0 rest v s g Hp Hq Hinv Hone) as [?|?].
    + right. by left.
    + right. right. by right.
  - destruct (oneVisited_step q p r0 g0 rest v s g Hq Hp Hinv Hone)
      as [?|(? & ? & g' & ? & ?)].
    + right. right. by left.
    + right. right. right. split; [done|]. split; [done|]. by exists g'.
  - destruct Hboth as (Hpv & Hqv & g' & Hgp & Hgq). cbn in *.
    assert (Hr0 : r0 ∈ refs) by (apply (inv_queue _ _ Hinv (r0, g0)); by left).
    right. right. right. unfold bfsBody, bothVisited. cbn.
    destruct (decide (ref_id r0 ∈ v)) as [Hv|Hv]; cbn.
    + split; [done|]. split; [done|]. by exists g'.
    + split; [set_solver|]. split; [set_solver|]. exists g'.
      rewrite !gen_at_alter_ne; [done|intros Heq..];
        apply (memberRefs_slot_inj members) in Heq; try done; by subst.
Qed.

(** When the traversal ends, both are visited and have the same
    generation, or none is visited. *)
Lemma siblings_same_generation s g :
  organizeByGenerations members mm = Some (s, g) →
  ∃ v, BfsInv members (mkBfsState [] v s g)
       ∧ (((ref_id p ∉ v) ∧ (ref_id q ∉ v))
          ∨ (ref_id p ∈ v ∧ ref_id q ∈ v
             ∧ ∃ gg, gen_at s p = Some gg ∧ gen_at s q = Some gg)).
Proof.
  unfold organizeByGenerations. fold (rootQueue members).
  destruct (bfsLoop _ _ _) as [st|] eqn:Hrun; [|done]. cbn.
  intros [= <- <-].
  apply (bfsLoop_inv (λ st, BfsInv members st ∧ SibInv p q st) mm)
    in Hrun as [[Hinv Hsib] Hqe].
  - exists (visited st). destruct st as [q0 v0 s0 g0]. cbn in *. subst q0.
    split; [done|].
    destruct Hsib as [(? & ? & _)|[Hone|[Hone|Hboth]]]; [by left| | |by right].
    + by destruct Hone as (_ & _ & ? & _ & ?).
    + by destruct Hone as (_ & _ & ? & _ & ?).
  - intros item rest v0 s0 g0 [Hinv Hsib].
    split; [by apply BfsInv_step|by apply SibInv_step].
  - split; [apply BfsInv_init|apply SibInv_init].
Qed.

End Siblings.

(** *** Well-formed pedigrees *)

Lemma refs_member r :
  r ∈ refs →
  ∃ m, m ∈ members ∧ members !! slot r = Some m
       ∧ ref_id r = FamilyMember.id m
       ∧ ref_parentIds r = FamilyMember.parentIds m
       ∧ ref_childrenIds r = FamilyMember.childrenIds m.
Proof.
  intros (m & Hm & ->)%elem_of_memberRefs. exists m.
  split; [by eapply list_elem_of_lookup_2|done].
Qed.

Lemma member_ref m :
  m ∈ members → ∃ r, r ∈ refs ∧ ref_id r = FamilyMember.id m
                     ∧ ref_parentIds r = FamilyMember.parentIds m
                     ∧ ref_childrenIds r = FamilyMember.childrenIds m.
Proof.
  intros (i & Hi)%list_elem_of_lookup. exists (refOf i m).
  split; [|done]. apply elem_of_memberRefs. by exists m.
Qed.

Lemma all_visited depth v s g :
  wellFormed members depth → BfsInv members (mkBfsState [] v s g) →
  ∀ r, r ∈ refs → ref_id r ∈ v.
Proof.
  intros Hwf Hinv.
  assert (∀ n r, r ∈ refs → (depth (ref_id r) < n)%nat → ref_id r ∈ v) as Hind.
  { induction n as [|n IH]; intros r Hr Hn; [lia|].
    destruct (ref_parentIds r) as [|pid pids] eqn:Hpar.
    - destruct (inv_roots _ _ Hinv r Hr Hpar) as [[? _]|(_ & q1 & q2 & Hq & _)];
        [done|]. cbn in Hq. by destruct q1.
    - destruct (refs_member r Hr) as (m & Hm & _ & Hid & Hpids & _).
      assert (pid ∈ FamilyMember.parentIds m) as Hpid
        by (rewrite <- Hpids, Hpar; by left).
      pose proof (wf_parent_exists _ _ Hwf m pid Hm Hpid) as Hex.
      apply list_elem_of_fmap in Hex as (pm & -> & Hpm).
      destruct (member_ref pm Hpm) as (rp & Hrp & Hrpid & _ & Hrpch).
      assert (ref_id rp ∈ v) as Hrpv.
      { apply IH; [done|]. rewrite Hrpid. rewrite Hid in Hn.
        pose proof (wf_acyclic _ _ Hwf m _ Hm Hpid). lia. }
      destruct (inv_closed _ _ Hinv rp (ref_id r) r Hrp Hrpv) as [?|[? Hin]];
        [| |done|by apply elem_of_nil in Hin].
      + rewrite Hrpch, Hid. by apply (wf_symmetric _ _ Hwf).
      + by apply refMap_lookup_elem. }
  intros r Hr. apply (Hind (S (depth (ref_id r)))); [done|lia].
Qed.

End Invariants.

(** *** The writes of the positioning *)

Lemma assignAll_app w1 w2 all :
  assignAll (w1 ++ w2) all = assignAll w2 (assignAll w1 all).
Proof. unfold assignAll. apply foldl_app. Qed.

Lemma foldl_ext_eq {A B} (f g : A → B → A) (l : list B) :
  (∀ a b, f a b = g a b) → ∀ a, foldl f a l = foldl g a l.
Proof.
  intros Hfg. induction l as [|b l IH]; intros a; [done|].
  cbn. by rewrite Hfg, IH.
Qed.

Lemma foldl_imap_pair {A B C} (F : A → B → A) (f : nat → C → B)
    (g : nat → nat) (l : list C) : ∀ a,
  foldl (λ a ix, F a (f ix.1 ix.2)) a (imap (λ i x, (g i, x)) l)
  = foldl F a (imap (λ i x, f (g i) x) l).
Proof.
  revert g. induction l as [|c l IH]; intros g a; [done|].
  cbn. apply (IH (g ∘ S)).
Qed.

Lemma positionGeneration_writes l g config mm all :
  positionGeneration l g config mm all
  = assignAll (groupsWrites config mm (- INR g * generationSpacing config) 0
                 (groupSiblings l mm)) all.
Proof.
  unfold positionGeneration. generalize (groupSiblings l mm) as groups.
  generalize 0. intros cx groups. revert cx all.
  induction groups as [|G groups IH]; intros cx all; [done|].
  cbn [foldl groupsWrites]. rewrite assignAll_app, <- IH. clear IH.
  f_equal. f_equal. unfold groupWrites, assignAll, groupWidth.
  rewrite <- (foldl_imap_pair (λ all w, assignPosition w.1 w.2 all)
                (λ index member,
                   (ref_id member,
                    mkPosition3D
                      (cx - (INR (length G) - 1) * siblingSpacing config / 2
                       + INR index * siblingSpacing config)
                      (- INR g * generationSpacing config)
                      (calculateZPosition member mm))) (λ i : nat, i) G).
  f_equal. apply foldl_ext_eq. by intros all' [index member].
Qed.

Lemma calculateLayout_writes members config s out :
  calculateLayout members config = Some (s, out) →
  ∃ gens, organizeByGenerations members (refMap members) = Some (s, gens)
          ∧ out = assignAll (layoutWrites config (refMap members) gens) s.
Proof.
  unfold calculateLayout.
  destruct (organizeByGenerations _ _) as [[s' gens]|]; [|done]. cbn.
  intros [= <- <-]. exists gens. split; [done|].
  unfold layoutWrites. generalize s' as all.
  induction gens as [|[g l] gens IH]; intros all; [done|].
  cbn [foldl mbind list_bind]. rewrite assignAll_app, IH.
  by rewrite positionGeneration_writes.
Qed.

Lemma assignPosition_unplace k pos l :
  unplace <$> assignPosition k pos l = unplace <$> l.
Proof.
  induction l as [|m l IH]; [done|]. cbn.
  destruct (String.eqb _ _); cbn; [done|]. by rewrite IH.
Qed.

Lemma assignAll_unplace writes : ∀ all,
  unplace <$> assignAll writes all = unplace <$> all.
Proof.
  induction writes as [|w writes IH]; intros all; [done|]. cbn.
  unfold assignAll in IH. by rewrite IH, assignPosition_unplace.
Qed.

Lemma unplace_ids (l l' : list FamilyMember.t) :
  unplace <$> l = unplace <$> l' →
  FamilyMember.id <$> l = FamilyMember.id <$> l'.
Proof.
  intros H. apply (f_equal (fmap FamilyMember.id)) in H.
  by rewrite <- !list_fmap_compose in H.
Qed.

Lemma assignPosition_lookup_ne k pos l i m :
  l !! i = Some m → FamilyMember.id m ≠ k →
  assignPosition k pos l !! i = Some m.
Proof.
  revert i. induction l as [|m0 l IH]; intros [|i] Hi Hne; try done; cbn in *.
  - injection Hi as ->. apply String.eqb_neq in Hne. by rewrite Hne.
  - destruct (String.eqb _ _); [done|]. by apply IH.
Qed.

Lemma assignPosition_lookup_eq k pos l i m :
  NoDup (FamilyMember.id <$> l) → l !! i = Some m → FamilyMember.id m = k →
  assignPosition k pos l !! i = Some (FamilyMember.set_position pos m).
Proof.
  revert i. induction l as [|m0 l IH]; intros [|i] Hnd Hi Hk; try done;
    cbn in *; apply NoDup_cons in Hnd as [Hm0 Hnd].
  - injection Hi as ->. apply String.eqb_eq in Hk. by rewrite Hk.
  - destruct (String.eqb_spec (FamilyMember.id m0) k) as [Heq|Hne].
    + exfalso. apply Hm0. rewrite Heq, <- Hk.
      apply list_elem_of_fmap_2. by eapply list_elem_of_lookup_2.
    + by apply IH.
Qed.

Lemma assignAll_lookup_notin writes : ∀ all i m,
  all !! i = Some m → FamilyMember.id m ∉ writes.*1 →
  assignAll writes all !! i = Some m.
Proof.
  induction writes as [|[k pos] writes IH]; intros all i m Hi Hk; [done|].
  cbn. apply IH.
  - apply assignPosition_lookup_ne; [done|]. intros <-. apply Hk. by left.
  - intros Hin. apply Hk. by right.
Qed.

(** With distinct ids and every id written at most once, the member with
    id [k] ends at the position written for [k]. *)
Lemma assignAll_lookup writes : ∀ all i m pos,
  NoDup writes.*1 → NoDup (FamilyMember.id <$> all) →
  all !! i = Some m → (FamilyMember.id m, pos) ∈ writes →
  assignAll writes all !! i = Some (FamilyMember.set_position pos m).
Proof.
  induction writes as [|[k0 pos0] writes IH]; intros all i m pos Hnd Hids Hi Hin;
    [by apply elem_of_nil in Hin|].
  cbn in Hnd. apply NoDup_cons in Hnd as [Hk0 Hnd]. cbn.
  apply elem_of_cons in Hin as [Heq|Hin].
  - injection Heq as <- <-.
    apply assignAll_lookup_notin; [|done].
    by apply assignPosition_lookup_eq.
  - apply IH; [done| | |done].
    + by rewrite (unplace_ids _ _ (assignPosition_unplace k0 pos0 all)).
    + apply assignPosition_lookup_ne; [done|]. intros <-. apply Hk0.
      by apply (list_elem_of_fmap_2 fst) in Hin.
Qed.

(** *** Sibling groups *)

Lemma haveSameParents_spec a b :
  haveSameParents a b = true ↔
  length (ref_parentIds a) = length (ref_parentIds b)
  ∧ (list_to_set (ref_parentIds a) : gset string)
    = list_to_set (ref_parentIds b).
Proof.
  unfold haveSameParents.
  destruct (Nat.eqb_spec (length (ref_parentIds a)) (length (ref_parentIds b)))
    as [Hlen|Hlen]; cbn; [|naive_solver].
  rewrite andb_true_iff, Nat.eqb_eq, forallb_forall. split.
  - intros [Hsize Hall]. split; [done|].
    apply set_subseteq_size_eq; [|lia].
    intros k Hk. specialize (Hall k).
    rewrite <- list_elem_of_In, elem_of_elements in Hall.
    specialize (Hall Hk). by apply bool_decide_eq_true_1 in Hall.
  - intros [_ Heq]. rewrite Heq. split; [done|].
    intros k Hk. apply bool_decide_eq_true_2.
    by apply list_elem_of_In, elem_of_elements in Hk.
Qed.

Lemma haveSameParents_refl a : haveSameParents a a = true.
Proof. by apply haveSameParents_spec. Qed.

Lemma haveSameParents_sym a b :
  haveSameParents a b = true → haveSameParents b a = true.
Proof. rewrite !haveSameParents_spec. naive_solver. Qed.

Lemma haveSameParents_trans a b c :
  haveSameParents a b = true → haveSameParents b c = true →
  haveSameParents a c = true.
Proof. rewrite !haveSameParents_spec. naive_solver congruence. Qed.

Lemma haveSameParents_root a b :
  haveSameParents a b = true → isRoot a → isRoot b.
Proof.
  rewrite haveSameParents_spec. unfold isRoot. intros [Hlen _] Ha.
  rewrite Ha in Hlen. by destruct (ref_parentIds b).
Qed.

Lemma groupSiblings_fold l mm :
  groupSiblings l mm = (foldl (siblingStep l mm) ([], ∅) l).1.
Proof.
  unfold groupSiblings. f_equal. apply foldl_ext_eq. by intros [groups processed] m.
Qed.

Lemma processed_union (processed : gset string) (siblings : list MemberRef) k :
  k ∈ foldl (λ processed sibling, processed ∪ {[ref_id sibling]})
            processed siblings
  ↔ k ∈ processed ∨ k ∈ ref_id <$> siblings.
Proof.
  revert processed. induction siblings as [|r siblings IH]; intros processed; cbn.
  - split; [by left|]. intros [?|?%elem_of_nil]; done.
  - rewrite IH, elem_of_union, elem_of_singleton, elem_of_cons. naive_solver.
Qed.

Section Groups.
Context (l : list MemberRef) (mm : gmap string MemberRef).
Context (Hl : NoDup (ref_id <$> l)).

Lemma id_inj_l a b : a ∈ l → b ∈ l → ref_id a = ref_id b → a = b.
Proof. intros. by apply (RiskFacts.NoDup_fmap_eq ref_id l). Qed.

Lemma findSiblings_elem a r :
  a ∈ l →
  r ∈ findSiblings a l mm ↔
  (isRoot a ∧ r = a) ∨ (¬ isRoot a ∧ r ∈ l ∧ haveSameParents a r = true).
Proof.
  intros Ha. unfold findSiblings, isRoot.
  destruct (ref_parentIds a) as [|pid pids] eqn:Hpar; cbn.
  - rewrite list_elem_of_singleton. naive_solver.
  - rewrite elem_of_List_filter. naive_solver.
Qed.

Lemma findSiblings_self a : a ∈ l → a ∈ findSiblings a l mm.
Proof.
  intros Ha. apply findSiblings_elem; [done|].
  destruct (ref_parentIds a) as [|pid pids] eqn:Hpar; [by left|].
  right. unfold isRoot. rewrite Hpar. split; [done|].
  split; [done|apply haveSameParents_refl].
Qed.

Lemma findSiblings_NoDup a : a ∈ l → NoDup (ref_id <$> findSiblings a l mm).
Proof.
  intros Ha. unfold findSiblings.
  destruct (length (ref_parentIds a) =? 0)%nat; [apply NoDup_singleton|].
  apply (NoDup_fmap_2_strong ref_id).
  - intros x y [Hx _]%elem_of_List_filter [Hy _]%elem_of_List_filter.
    by apply id_inj_l.
  - apply NoDup_ListNoDup, List.NoDup_filter, NoDup_ListNoDup.
    by apply (NoDup_fmap_1 ref_id).
Qed.

Lemma GroupInv_step st a :
  a ∈ l → GroupInv l st → GroupInv l (siblingStep l mm st a).
Proof.
  intros Ha [Hsub Hproc Honce Hclosed Hsame]. destruct st as [groups processed].
  cbn in *. unfold siblingStep. case_decide as Hap; [by split|].
  split; cbn.
  - intros G r [HG|HG]%elem_of_app Hr; [by eapply Hsub|].
    apply list_elem_of_singleton in HG as ->.
    destruct (proj1 (findSiblings_elem a r Ha) Hr) as [[_ ->]|(_ & ? & _)]; done.
  - intros k. rewrite processed_union, Hproc, concat_app, fmap_app, elem_of_app.
    cbn. by rewrite app_nil_r.
  - rewrite concat_app, fmap_app. cbn. rewrite app_nil_r.
    apply NoDup_app. split; [done|]. split; [|by apply findSiblings_NoDup].
    intros k Hk (c & -> & Hc)%list_elem_of_fmap.
    apply list_elem_of_fmap in Hk as (r & Hid & Hr).
    apply elem_of_concat in Hr as (G & Hr & HG).
    destruct (proj1 (findSiblings_elem a c Ha) Hc) as [[_ ->]|(Hna & Hc' & Hac)].
    + apply Hap, Hproc. rewrite Hid. apply list_elem_of_fmap_2.
      apply elem_of_concat. eauto.
    + assert (r = c) as -> by (apply id_inj_l; [by eapply Hsub|done|done]).
      apply Hap, Hproc. apply list_elem_of_fmap_2, elem_of_concat.
      exists G. split; [|done].
      apply (Hclosed G c a); [done|done| |done|by apply haveSameParents_sym].
      intros Hroot. apply Hna.
      by apply (haveSameParents_root c a); [apply haveSameParents_sym|].
  - intros G x c [HG|HG]%elem_of_app Hx Hnx Hc Hxc.
    + apply (Hclosed G x c); done.
    + apply list_elem_of_singleton in HG as ->.
      destruct (proj1 (findSiblings_elem a x Ha) Hx)
        as [[Hroot ->]|(Hna & Hx' & Hax)]; [done|].
      apply findSiblings_elem; [done|]. right. split; [done|]. split; [done|].
      by apply (haveSameParents_trans a x c).
  - intros G x y0 [HG|HG]%elem_of_app Hx Hy.
    + by apply (Hsame G).
    + apply list_elem_of_singleton in HG as ->.
      destruct (proj1 (findSiblings_elem a x Ha) Hx) as [[? ->]|(? & _ & Hax)];
        destruct (proj1 (findSiblings_elem a y0 Ha) Hy) as [[? ->]|(? & _ & Hay)];
        try done.
      * apply haveSameParents_refl.
      * by apply (haveSameParents_trans x a y0); [apply haveSameParents_sym|].
Qed.

Lemma siblingStep_processed st a :
  a ∈ l → ref_id a ∈ (siblingStep l mm st a).2
  ∧ st.2 ⊆ (siblingStep l mm st a).2.
Proof.
  intros Ha. destruct st as [groups processed]. unfold siblingStep.
  case_decide; cbn; [done|]. split.
  - apply processed_union. right. apply list_elem_of_fmap_2.
    by apply findSiblings_self.
  - intros k Hk. apply processed_union. by left.
Qed.

Lemma siblingFold_inv todo : ∀ st,
  (∀ a, a ∈ todo → a ∈ l) → GroupInv l st →
  GroupInv l (foldl (siblingStep l mm) st todo)
  ∧ st.2 ⊆ (foldl (siblingStep l mm) st todo).2
  ∧ ∀ a, a ∈ todo → ref_id a ∈ (foldl (siblingStep l mm) st todo).2.
Proof.
  induction todo as [|a todo IH]; intros st Hsub Hinv.
  - split; [done|]. split; [done|]. by intros a ?%elem_of_nil.
  - cbn [foldl].
    assert (a ∈ l) as Ha by (apply Hsub; by left).
    destruct (IH (siblingStep l mm st a)) as (Hinv' & Hmono & Hall).
    + intros b Hb. apply Hsub. by right.
    + by apply GroupInv_step.
    + destruct (siblingStep_processed st a Ha) as [Hself Hstep].
      split; [done|]. split; [set_solver|].
      intros b [->|Hb]%elem_of_cons; [set_solver|by apply Hall].
Qed.

(** The groups partition the generation: every member is in exactly one
    group, and a group holds exactly the members with the parents of one. *)
Lemma groupSiblings_spec :
  NoDup (ref_id <$> concat (groupSiblings l mm))
  ∧ (∀ r, r ∈ concat (groupSiblings l mm) → r ∈ l)
  ∧ ∀ a, a ∈ l → ∃ G, G ∈ groupSiblings l mm ∧ a ∈ G
      ∧ (∀ b, b ∈ G → b ∈ l ∧ haveSameParents a b = true)
      ∧ (¬ isRoot a → ∀ c, c ∈ l → haveSameParents a c = true → c ∈ G).
Proof.
  rewrite groupSiblings_fold.
  destruct (siblingFold_inv l ([], ∅)) as (Hinv & _ & Hall); [done| |].
  { split; cbn;
      [intros ? ? ?%elem_of_nil; done | intros k; set_solver | apply NoDup_nil_2
      | intros ? ? ? ?%elem_of_nil; done | intros ? ? ? ?%elem_of_nil; done]. }
  destruct Hinv as [Hsub Hproc Honce Hclosed Hsame].
  split; [done|]. split.
  - intros r (G & Hr & HG)%elem_of_concat. by eapply Hsub.
  - intros a Ha. specialize (Hall a Ha). apply Hproc in Hall.
    apply list_elem_of_fmap in Hall as (r & Hid & Hr).
    apply elem_of_concat in Hr as (G & Hr & HG).
    assert (r = a) as -> by (apply id_inj_l; [by eapply Hsub|done|done]).
    exists G. split; [done|]. split; [done|]. split.
    + intros b Hb. split; [by eapply Hsub|by apply (Hsame G)].
    + intros Hna c Hc Hac. by apply (Hclosed G a c).
Qed.

End Groups.

(** *** Which positions are written *)

Lemma groupWrites_keys config mm y startX G :
  (groupWrites config mm y startX G).*1 = ref_id <$> G.
Proof.
  apply list_eq. intros i. unfold groupWrites.
  rewrite !list_lookup_fmap, list_lookup_imap. by destruct (G !! i).
Qed.

Lemma groupsWrites_keys config mm y groups : ∀ cx,
  (groupsWrites config mm y cx groups).*1 = ref_id <$> concat groups.
Proof.
  induction groups as [|G groups IH]; intros cx; [done|].
  cbn. by rewrite !fmap_app, groupWrites_keys, IH.
Qed.

Lemma groupsWrites_elem config mm y groups G : ∀ cx,
  G ∈ groups →
  ∃ startX, ∀ a r, G !! a = Some r →
    (ref_id r,
     mkPosition3D (startX + INR a * siblingSpacing config) y
                  (calculateZPosition r mm))
    ∈ groupsWrites config mm y cx groups.
Proof.
  induction groups as [|G0 groups IH]; intros cx HG; [by apply elem_of_nil in HG|].
  cbn. apply elem_of_cons in HG as [->|HG].
  - exists (cx - groupWidth config G0 / 2). intros a r Ha.
    apply elem_of_app. left. unfold groupWrites.
    apply list_elem_of_lookup. exists a. by rewrite list_lookup_imap, Ha.
  - destruct (IH (cx + groupWidth config G0 + branchSpacing config) HG)
      as [startX Hw].
    exists startX. intros a r Ha. apply elem_of_app. right. by apply Hw.
Qed.

Lemma layoutWrites_elem config mm gens g l w :
  (g, l) ∈ gens →
  w ∈ groupsWrites config mm (- INR g * generationSpacing config) 0
        (groupSiblings l mm) →
  w ∈ layoutWrites config mm gens.
Proof.
  intros Hgl Hw. unfold layoutWrites. apply list_elem_of_bind.
  exists (g, l). by split.
Qed.

Lemma layoutWrites_keys_sub config mm gens k :
  NoDup (ref_id <$> concat (snd <$> gens)) →
  k ∈ (layoutWrites config mm gens).*1 →
  k ∈ ref_id <$> concat (snd <$> gens).
Proof.
  intros Hnd (w & -> & Hw)%list_elem_of_fmap.
  unfold layoutWrites in Hw. apply list_elem_of_bind in Hw as ([g l] & Hw & Hgl).
  cbn in Hw. apply (list_elem_of_fmap_2 fst) in Hw.
  rewrite groupsWrites_keys in Hw.
  apply list_elem_of_fmap in Hw as (r & -> & Hr).
  apply list_elem_of_fmap_2. apply elem_of_concat. exists l.
  split; [|by apply (list_elem_of_fmap_2 snd) in Hgl].
  assert (NoDup (ref_id <$> l)) as Hl.
  { apply list_elem_of_split in Hgl as (g1 & g2 & ->).
    rewrite fmap_app, concat_app, fmap_app in Hnd. cbn in Hnd.
    rewrite fmap_app in Hnd.
    apply NoDup_app in Hnd as (_ & _ & Hnd).
    by apply NoDup_app in Hnd as (Hnd & _ & _). }
  by apply (groupSiblings_spec l mm Hl).
Qed.

Lemma layoutWrites_NoDup config mm gens :
  NoDup (ref_id <$> concat (snd <$> gens)) →
  NoDup (layoutWrites config mm gens).*1.
Proof.
  induction gens as [|[g l] gens IH]; intros Hnd; [apply NoDup_nil_2|].
  cbn in Hnd. rewrite fmap_app in Hnd.
  apply NoDup_app in Hnd as (Hl & Hdisj & Hrest).
  unfold layoutWrites in *. cbn [mbind list_bind]. rewrite fmap_app.
  apply NoDup_app. split; [|split; [|by apply IH]].
  - cbn. rewrite groupsWrites_keys. by apply (groupSiblings_spec l mm Hl).
  - intros k Hk Hk'. cbn in Hk. rewrite groupsWrites_keys in Hk.
    apply (Hdisj k).
    + apply list_elem_of_fmap in Hk as (r & -> & Hr).
      apply list_elem_of_fmap_2. by apply (groupSiblings_spec l mm Hl).
    + by apply (layoutWrites_keys_sub config mm gens k Hrest).
Qed.

(** *** The result of the layout *)

Lemma unplace_fields a b :
  unplace a = unplace b →
  FamilyMember.id a = FamilyMember.id b
  ∧ FamilyMember.parentIds a = FamilyMember.parentIds b
  ∧ FamilyMember.childrenIds a = FamilyMember.childrenIds b
  ∧ FamilyMember.generation a = FamilyMember.generation b.
Proof. unfold unplace, FamilyMember.set_position. by intros [= ]. Qed.

Section Result.
Context (members : list FamilyMember.t) (config : TreeLayoutConfig).
Context (Hids : NoDup (FamilyMember.id <$> members)).
Context (s out : list FamilyMember.t) (gens : list (nat * list MemberRef)).
Context (v : gset string).
Context (Horg : organizeByGenerations members (refMap members) = Some (s, gens)).
Context (Hinv : BfsInv members (mkBfsState [] v s gens)).
Context (Hout : out = assignAll (layoutWrites config (refMap members) gens) s).

Lemma out_unplace : unplace <$> out = unplace <$> s.
Proof. rewrite Hout. apply assignAll_unplace. Qed.

Lemma store_ids : FamilyMember.id <$> s = FamilyMember.id <$> members.
Proof.
  rewrite <- !memberRefs_ids. f_equal. apply (inv_store _ _ Hinv).
Qed.

(** The member of the result behind a reference. *)
Lemma out_member r :
  r ∈ memberRefs members →
  ∃ ms mo, s !! slot r = Some ms ∧ out !! slot r = Some mo
    ∧ unplace mo = unplace ms
    ∧ FamilyMember.id mo = ref_id r
    ∧ FamilyMember.parentIds mo = ref_parentIds r
    ∧ FamilyMember.childrenIds mo = ref_childrenIds r
    ∧ gen_at s r = Some (FamilyMember.generation mo).
Proof.
  intros Hr. pose proof (inv_store _ _ Hinv) as Hs. cbn in Hs.
  rewrite <- Hs in Hr. apply elem_of_memberRefs in Hr as (ms & Hms & Hr).
  pose proof out_unplace as Hu.
  apply (f_equal (λ l, l !! slot r)) in Hu.
  rewrite !list_lookup_fmap, Hms in Hu. cbn in Hu.
  destruct (out !! slot r) as [mo|] eqn:Hmo; [|done].
  assert (unplace mo = unplace ms) as Hu' by (apply (inj Some); exact Hu).
  destruct (unplace_fields _ _ Hu') as (Hid & Hpar & Hch & Hgen).
  exists ms, mo. split; [done|]. split; [done|]. split; [done|].
  unfold gen_at. rewrite Hms, Hr. cbn. by rewrite Hid, Hpar, Hch, Hgen.
Qed.

Lemma out_ref i p :
  out !! i = Some p →
  refOf i p ∈ memberRefs members ∧ gen_at s (refOf i p) = Some (FamilyMember.generation p).
Proof.
  intros Hp. pose proof (inv_store _ _ Hinv) as Hs. cbn in Hs.
  pose proof out_unplace as Hu.
  apply (f_equal (λ l, l !! i)) in Hu.
  rewrite !list_lookup_fmap, Hp in Hu. cbn in Hu.
  destruct (s !! i) as [ms|] eqn:Hms; [|done].
  assert (unplace p = unplace ms) as Hu' by (apply (inj Some); exact Hu).
  destruct (unplace_fields _ _ Hu') as (Hid & Hpar & Hch & Hgen).
  assert (refOf i p = refOf i ms) as Href
    by (unfold refOf; by rewrite Hid, Hpar, Hch).
  split.
  - rewrite <- Hs, Href. apply elem_of_memberRefs. by exists ms.
  - unfold gen_at. cbn. rewrite Hms. cbn. by rewrite Hgen.
Qed.

(** The position of a member is the one written for its id. *)
Lemma out_position r pos mo :
  r ∈ memberRefs members →
  (ref_id r, pos) ∈ layoutWrites config (refMap members) gens →
  out !! slot r = Some mo → FamilyMember.position mo = pos.
Proof.
  intros Hr Hw Hmo. pose proof (inv_store _ _ Hinv) as Hs. cbn in Hs.
  rewrite <- Hs in Hr. apply elem_of_memberRefs in Hr as (ms & Hms & Hr).
  assert (FamilyMember.id ms = ref_id r) as Hid by (by rewrite Hr).
  rewrite <- Hid in Hw.
  pose proof (assignAll_lookup _ s (slot r) ms pos
                (layoutWrites_NoDup config (refMap members) gens
                   (inv_once _ _ Hinv))) as Hl.
  rewrite store_ids in Hl. specialize (Hl Hids Hms Hw).
  rewrite <- Hout, Hmo in Hl. by injection Hl as ->.
Qed.

End Result.

Lemma calculateLayout_result members config :
  NoDup (FamilyMember.id <$> members) →
  ∃ s out gens v,
    calculateLayout members config = Some (s, out)
    ∧ organizeByGenerations members (refMap members) = Some (s, gens)
    ∧ BfsInv members (mkBfsState [] v s gens)
    ∧ out = assignAll (layoutWrites config (refMap members) gens) s.
Proof.
  intros Hids.
  destruct (calculateLayout_total members config) as [[s out] Hrun].
  destruct (calculateLayout_writes _ _ _ _ Hrun) as (gens & Horg & Hout).
  destruct (organizeByGenerations_inv members Hids s gens Horg) as [v Hinv].
  by exists s, out, gens, v.
Qed.

(** *** Checking well-formedness *)

Lemma wellFormedb_true members depth :
  wellFormedb members depth = true → wellFormed members depth.
Proof.
  unfold wellFormedb. rewrite !andb_true_iff, !forallb_forall.
  intros ((((H1 & H2) & H3) & H4) & H5). split.
  - by apply bool_decide_eq_true_1 in H1.
  - intros m Hm%list_elem_of_In. specialize (H2 m Hm).
    by apply bool_decide_eq_true_1 in H2.
  - intros m pid Hm%list_elem_of_In Hpid%list_elem_of_In.
    specialize (H3 m Hm). rewrite forallb_forall in H3.
    specialize (H3 pid Hpid). by apply bool_decide_eq_true_1 in H3.
  - intros m c Hm%list_elem_of_In Hc%list_elem_of_In.
    specialize (H4 m Hm). rewrite forallb_forall in H4.
    specialize (H4 c Hc). by apply bool_decide_eq_true_1 in H4.
  - intros m pid Hm%list_elem_of_In Hpid%list_elem_of_In.
    specialize (H5 m Hm). rewrite forallb_forall in H5.
    specialize (H5 pid Hpid). by apply Nat.ltb_lt in H5.
Qed.

(** *** Generations after the layout *)

(** C7, counterexample: in [Sample.blended] the member "p" is a child of
    the root "a" and of "b", itself a child of the root "c".  The traversal
    reaches "p" from "a" first: "p" and its parent "b" both end in
    generation 1. *)
Lemma every_parent_counterexample : ¬ every_parent_one_generation_up.
Proof.
  intros H.
  destruct (H Sample.blended Sample.blended_depth DEFAULT_CONFIG)
    as (ms1 & out & Hrun & _ & Hall).
  { apply wellFormedb_true. vm_compute. reflexivity. }
  assert (∃ b p, out !! 2%nat = Some b ∧ out !! 3%nat = Some p
                 ∧ FamilyMember.id b ∈ FamilyMember.parentIds p
                 ∧ FamilyMember.generation b = 1%nat
                 ∧ FamilyMember.generation p = 1%nat)
    as (b & p & Hb & Hp & Hpar & Hgb & Hgp).
  { vm_compute in Hrun. injection Hrun as _ <-.
    do 2 eexists. split; [reflexivity|]. split; [reflexivity|].
    cbn. split; [set_solver|done]. }
  specialize (Hall p b (list_elem_of_lookup_2 _ _ _ Hp)
                (list_elem_of_lookup_2 _ _ _ Hb) Hpar).
  lia.
Qed.

(** C7, amended: in a well-formed pedigree every root ends in generation 0
    and every member with parents ends one generation below at least one of
    its parents (the one the traversal visits first), not below every one of
    them. *)
Theorem generation_of_first_parent members depth config :
  wellFormed members depth →
  ∃ ms1 out,
    calculateLayout members config = Some (ms1, out)
    ∧ (∀ p, p ∈ out → FamilyMember.parentIds p = [] →
         FamilyMember.generation p = 0%nat)
    ∧ (∀ p, p ∈ out → FamilyMember.parentIds p ≠ [] →
         ∃ q, q ∈ out ∧ FamilyMember.id q ∈ FamilyMember.parentIds p
              ∧ FamilyMember.generation p = S (FamilyMember.generation q))
    ∧ (∀ p, p ∈ out →
         (∀ q1 q2, q1 ∈ out → q2 ∈ out →
            FamilyMember.id q1 ∈ FamilyMember.parentIds p →
            FamilyMember.id q2 ∈ FamilyMember.parentIds p →
            FamilyMember.generation q1 = FamilyMember.generation q2) →
         ∀ q, q ∈ out → FamilyMember.id q ∈ FamilyMember.parentIds p →
              FamilyMember.generation p = S (FamilyMember.generation q)).
Proof.
  intros Hwf. pose proof (wf_ids _ _ Hwf) as Hids.
  destruct (calculateLayout_result members config Hids)
    as (s & out & gens & v & Hrun & Horg & Hinv & Hout).
  exists s, out. split; [done|].
  pose proof (all_visited members Hids depth v s gens Hwf Hinv) as Hall.
  assert (Hfirst : ∀ p, p ∈ out → FamilyMember.parentIds p ≠ [] →
            ∃ q, q ∈ out ∧ FamilyMember.id q ∈ FamilyMember.parentIds p
                 ∧ FamilyMember.generation p = S (FamilyMember.generation q)).
  { intros p (i & Hi)%list_elem_of_lookup Hnr.
    destruct (out_ref _ _ _ _ _ _ Hinv Hout i p Hi) as [Hr Hg].
    pose proof (Hall _ Hr) as Hv.
    destruct (inv_visited _ _ Hinv (refOf i p) _ Hr Hv Hg)
      as [[Hroot _]|(r' & g' & Hr' & Hr'v & Hg' & Heq & Hch)]; [done|].
    destruct (out_member _ _ _ _ _ _ Hinv Hout r' Hr')
      as (ms & mo & Hms & Hmo & Hu & Hid & Hpar & Hch' & Hgen).
    exists mo. split; [by eapply list_elem_of_lookup_2|]. split.
    - destruct (refs_member _ _ Hr') as (m' & Hm' & _ & Hid' & _ & Hch'').
      destruct (refs_member _ _ Hr) as (m & Hm & _ & Hidm & Hparm & _).
      cbn in Hch, Hidm, Hparm. rewrite Hid, Hid', Hparm.
      apply (wf_symmetric _ _ Hwf m' m Hm' Hm).
      by rewrite <- Hch'', <- Hidm.
    - cbn in Hg'. congruence. }
  split; [|split; [exact Hfirst|]].
  - intros p (i & Hi)%list_elem_of_lookup Hroot.
    destruct (out_ref _ _ _ _ _ _ Hinv Hout i p Hi) as [Hr Hg].
    destruct (inv_roots _ _ Hinv (refOf i p) Hr Hroot)
      as [[_ Hg0]|(_ & q1 & q2 & Hq & _)]; [cbn in Hg0; congruence|].
    cbn in Hq. by destruct q1.
  - intros p Hp Hsame q Hq Hpar.
    destruct (Hfirst p Hp) as (q0 & Hq0 & Hpar0 & ->).
    + intros Hnil. rewrite Hnil in Hpar. by apply elem_of_nil in Hpar.
    + f_equal. by apply Hsame.
Qed.

Lemma generation_of_first_parent_witness :
  ∃ ms1 out,
    calculateLayout Sample.blended DEFAULT_CONFIG = Some (ms1, out)
    ∧ (∀ p, p ∈ out → FamilyMember.parentIds p = [] →
         FamilyMember.generation p = 0%nat)
    ∧ (∀ p, p ∈ out → FamilyMember.parentIds p ≠ [] →
         ∃ q, q ∈ out ∧ FamilyMember.id q ∈ FamilyMember.parentIds p
              ∧ FamilyMember.generation p = S (FamilyMember.generation q)).
Proof.
  destruct (generation_of_first_parent Sample.blended Sample.blended_depth
              DEFAULT_CONFIG) as (ms1 & out & Hrun & Hroots & Hfirst & _).
  - apply wellFormedb_true. vm_compute. reflexivity.
  - by exists ms1, out.
Defined.

(** *** Full siblings after the layout *)

Lemma same_parents_refs members depth i j p q :
  wellFormed members depth →
  members !! i = Some p → members !! j = Some q →
  (list_to_set (FamilyMember.parentIds q) : gset string)
  = list_to_set (FamilyMember.parentIds p) →
  haveSameParents (refOf i p) (refOf j q) = true
  ∧ ∀ r, r ∈ memberRefs members →
      ref_id (refOf i p) ∈ ref_childrenIds r
      ↔ ref_id (refOf j q) ∈ ref_childrenIds r.
Proof.
  intros Hwf Hp Hq Hset.
  assert (p ∈ members) as Hpm by (by eapply list_elem_of_lookup_2).
  assert (q ∈ members) as Hqm by (by eapply list_elem_of_lookup_2).
  split.
  - apply haveSameParents_spec. cbn. split; [|done].
    rewrite <- (size_list_to_set (C:=gset string) (FamilyMember.parentIds p))
      by apply (wf_parent_set _ _ Hwf p Hpm).
    rewrite <- (size_list_to_set (C:=gset string) (FamilyMember.parentIds q))
      by apply (wf_parent_set _ _ Hwf q Hqm).
    by rewrite Hset.
  - intros r (m & Hm & _ & Hid & _ & Hch)%refs_member. cbn. rewrite Hch.
    rewrite (wf_symmetric _ _ Hwf m p Hm Hpm), (wf_symmetric _ _ Hwf m q Hm Hqm).
    rewrite <- (elem_of_list_to_set (C:=gset string) _ (FamilyMember.parentIds p)).
    rewrite <- (elem_of_list_to_set (C:=gset string) _ (FamilyMember.parentIds q)).
    by rewrite Hset.
Qed.

Lemma group_NoDup (groups : list (list MemberRef)) G :
  NoDup (ref_id <$> concat groups) → G ∈ groups → NoDup (ref_id <$> G).
Proof.
  intros Hnd (g1 & g2 & ->)%list_elem_of_split.
  rewrite concat_app in Hnd. cbn in Hnd. rewrite !fmap_app in Hnd.
  apply NoDup_app in Hnd as (_ & _ & Hnd).
  by apply NoDup_app in Hnd as (Hnd & _ & _).
Qed.

Lemma generation_list_NoDup (gens : list (nat * list MemberRef)) g l :
  NoDup (ref_id <$> concat (snd <$> gens)) → (g, l) ∈ gens →
  NoDup (ref_id <$> l).
Proof.
  intros Hnd Hgl. apply (group_NoDup (snd <$> gens)); [done|].
  by apply (list_elem_of_fmap_2 snd) in Hgl.
Qed.

Lemma generation_list_unique (gens : list (nat * list MemberRef)) g l l' :
  NoDup (fst <$> gens) → (g, l) ∈ gens → (g, l') ∈ gens → l = l'.
Proof.
  intros Hnd H1 H2.
  assert ((g, l) = (g, l')) as [= ->]; [|done].
  by apply (RiskFacts.NoDup_fmap_eq fst gens).
Qed.

(** C8. In a well-formed pedigree the members with the parents of [p]
    ([p] has parents) form one sibling group: they all end in one
    generation [g], with y coordinate [- g * generationSpacing], and the
    member at index [a] of the group has x coordinate
    [startX + a * siblingSpacing]. *)
Theorem siblings_placed_together members depth config i p :
  wellFormed members depth →
  members !! i = Some p → FamilyMember.parentIds p ≠ [] →
  ∃ ms1 out (g : nat) (startX : R) (group : list nat),
    calculateLayout members config = Some (ms1, out)
    ∧ NoDup group
    ∧ (∀ j q, members !! j = Some q →
         j ∈ group ↔
         (list_to_set (FamilyMember.parentIds q) : gset string)
         = list_to_set (FamilyMember.parentIds p))
    ∧ (∀ a j, group !! a = Some j →
         ∃ q', out !! j = Some q'
           ∧ FamilyMember.generation q' = g
           ∧ x (FamilyMember.position q') = startX + INR a * siblingSpacing config
           ∧ y (FamilyMember.position q') = - INR g * generationSpacing config).
Proof.
  intros Hwf Hp Hnr. pose proof (wf_ids _ _ Hwf) as Hids.
  destruct (calculateLayout_result members config Hids)
    as (s & out & gens & v & Hrun & Horg & Hinv & Hout).
  pose proof (all_visited members Hids depth v s gens Hwf Hinv) as Hall.
  set (rp := refOf i p).
  assert (Hrp : rp ∈ memberRefs members)
    by (apply elem_of_memberRefs; by exists p).
  destruct (inv_complete _ _ Hinv rp Hrp (Hall rp Hrp)) as (gp & l & Hgl & Hrpl).
  pose proof (generation_list_NoDup gens gp l (inv_once _ _ Hinv) Hgl) as Hl.
  destruct (groupSiblings_spec l (refMap members) Hl) as (Hgnd & Hgsub & Hgrp).
  destruct (Hgrp rp Hrpl) as (G & HG & HrpG & HGsame & HGclosed).
  destruct (groupsWrites_elem config (refMap members)
              (- INR gp * generationSpacing config)
              (groupSiblings l (refMap members)) G 0 HG) as [startX Hw].
  assert (HGrefs : ∀ r, r ∈ G → r ∈ memberRefs members
                                ∧ gen_at s r = Some gp).
  { intros r Hr. destruct (HGsame r Hr) as [Hrl _].
    destruct (inv_sound _ _ Hinv gp r) as (? & _ & ?); [by exists l|done]. }
  exists s, out, gp, startX, (slot <$> G).
  split; [done|]. split; [|split].
  - apply (NoDup_fmap_2_strong slot).
    + intros a b Ha Hb. apply (memberRefs_slot_inj members); by apply HGrefs.
    + apply (NoDup_fmap_1 ref_id).
      by apply (group_NoDup (groupSiblings l (refMap members))).
  - intros j q Hq. split.
    + intros (r & -> & Hr)%list_elem_of_fmap.
      destruct (HGsame r Hr) as [_ Hsame].
      destruct (HGrefs r Hr) as [Hrr _].
      apply elem_of_memberRefs in Hrr as (m & Hm & Hrm).
      assert (m = q) as -> by congruence.
      apply haveSameParents_spec in Hsame as [_ Hsame].
      rewrite Hrm in Hsame. by cbn in Hsame.
    + intros Hset.
      destruct (same_parents_refs members depth i j p q Hwf Hp Hq Hset)
        as [Hsame Hchildren].
      set (rq := refOf j q) in *.
      assert (Hrq : rq ∈ memberRefs members)
        by (apply elem_of_memberRefs; by exists q).
      assert (rq ∈ l) as Hrql.
      { destruct (decide (ref_id rp = ref_id rq)) as [Heq|Hne].
        { apply (memberRefs_id_inj members) in Heq; [|done..]. by rewrite <- Heq. }
        destruct (inv_complete _ _ Hinv rq Hrq (Hall rq Hrq))
          as (gq & l' & Hgl' & Hrql').
        destruct (inv_sound _ _ Hinv gp rp) as (_ & _ & Hgp); [by exists l|].
        destruct (inv_sound _ _ Hinv gq rq) as (_ & _ & Hgq); [by exists l'|].
        cbn in Hgp, Hgq.
        destruct (siblings_same_generation members Hids rp rq Hrp Hrq Hne)
          with (s := s) (g := gens) as (v' & Hinv' & Hcase); [| | |done|].
        - done.
        - intros Hroot. apply Hnr.
          apply (haveSameParents_root rq rp); [|done].
          by apply haveSameParents_sym.
        - done.
        - destruct Hcase as [[Hnv _]|(_ & _ & gg & Hg1 & Hg2)].
          + exfalso. apply Hnv.
            by apply (all_visited members Hids depth v' s gens Hwf Hinv').
          + assert (gq = gp) as -> by congruence.
            by rewrite (generation_list_unique gens gp l l' (inv_keys _ _ Hinv)). }
      apply list_elem_of_fmap. exists rq. split; [done|].
      by apply HGclosed.
  - intros a j Ha. rewrite list_lookup_fmap in Ha.
    destruct (G !! a) as [r|] eqn:Hr; [|done]. injection Ha as <-.
    assert (r ∈ G) as HrG by (by eapply list_elem_of_lookup_2).
    destruct (HGrefs r HrG) as [Hrr Hgr].
    destruct (out_member _ _ _ _ _ _ Hinv Hout r Hrr)
      as (ms & mo & Hms & Hmo & _ & _ & _ & _ & Hgen).
    exists mo. split; [done|]. split; [congruence|].
    rewrite (out_position members config Hids s out gens v Hinv Hout r _ mo Hrr
               (layoutWrites_elem _ _ _ gp l _ Hgl (Hw a r Hr)) Hmo).
    done.
Qed.

Lemma siblings_placed_together_witness :
  ∃ ms1 out (g : nat) (startX : R) (group : list nat),
    calculateLayout Sample.household DEFAULT_CONFIG = Some (ms1, out)
    ∧ NoDup group
    ∧ (∀ j q, Sample.household !! j = Some q →
         j ∈ group ↔
         (list_to_set (FamilyMember.parentIds q) : gset string)
         = list_to_set ["ma"; "pa"])
    ∧ (∀ a j, group !! a = Some j →
         ∃ q', out !! j = Some q'
           ∧ FamilyMember.generation q' = g
           ∧ x (FamilyMember.position q') = startX + INR a * 3
           ∧ y (FamilyMember.position q') = - INR g * 4).
Proof.
  apply (siblings_placed_together Sample.household Sample.household_depth
           DEFAULT_CONFIG 2 (Sample.person "kid1" female ["ma"; "pa"] [] [])).
  - apply wellFormedb_true. vm_compute. reflexivity.
  - reflexivity.
  - discriminate.
Defined.

End LayoutFacts.

(** ** More properties of the risk engine *)

Module RiskMore.
Import GeneticSimulator RiskSpec RiskTerms RiskFacts.
Local Open Scope R_scope.

(** *** The member map *)

Lemma slotMap_fold_notin (ms : list FamilyMember.t) k : ∀ (mp : gmap string nat) n,
  k ∉ FamilyMember.id <$> ms →
  (foldl (λ '(mp, slot) m, (<[FamilyMember.id m := slot]> mp, S slot))
         (mp, n) ms).1 !! k = mp !! k.
Proof.
  induction ms as [|m ms IH]; intros mp n Hk; [done|]. cbn.
  cbn in Hk. apply not_elem_of_cons in Hk as [Hne Hk].
  rewrite IH by done. by rewrite lookup_insert_ne.
Qed.

Lemma slotMap_fold_Some (ms : list FamilyMember.t) k a : ∀ (mp : gmap string nat) n,
  (foldl (λ '(mp, slot) m, (<[FamilyMember.id m := slot]> mp, S slot))
         (mp, n) ms).1 !! k = Some a →
  (mp !! k = Some a ∧ k ∉ FamilyMember.id <$> ms)
  ∨ ∃ i p, a = (n + i)%nat ∧ ms !! i = Some p ∧ FamilyMember.id p = k
           ∧ k ∉ FamilyMember.id <$> drop (S i) ms.
Proof.
  induction ms as [|m ms IH]; intros mp n Ha.
  - left. split; [done|]. cbn. apply not_elem_of_nil.
  - cbn in Ha. apply IH in Ha as [[Ha Hk]|(i & p & -> & Hi & Hp & Hk)].
    + destruct (decide (FamilyMember.id m = k)) as [<-|Hne].
      * rewrite lookup_insert_eq in Ha. injection Ha as <-.
        right. exists 0%nat, m. split; [lia|]. cbn. by rewrite ?drop_0.
      * rewrite lookup_insert_ne in Ha by done. left. split; [done|].
        cbn. by apply not_elem_of_cons.
    + right. exists (S i), p. split; [lia|]. done.
Qed.

Lemma slotMap_lookup_Some ms k a :
  slotMap ms !! k = Some a →
  ∃ p, ms !! a = Some p ∧ FamilyMember.id p = k.
Proof.
  unfold slotMap. intros Ha.
  apply slotMap_fold_Some in Ha as [[Ha _]|(i & p & -> & Hi & Hp & _)].
  - by rewrite lookup_empty in Ha.
  - eauto.
Qed.

Lemma slotMap_lookup_None ms k :
  k ∉ FamilyMember.id <$> ms → slotMap ms !! k = None.
Proof.
  intros Hk. unfold slotMap. by rewrite slotMap_fold_notin.
Qed.

Lemma slotMap_lookup_is_Some ms k :
  k ∈ FamilyMember.id <$> ms → is_Some (slotMap ms !! k).
Proof.
  unfold slotMap. generalize (∅ : gmap string nat) 0%nat.
  induction ms as [|m ms IH]; intros mp n Hk; [by apply elem_of_nil in Hk|].
  cbn. cbn in Hk.
  destruct (decide (k ∈ FamilyMember.id <$> ms)) as [Hin|Hnin].
  - by apply IH.
  - apply elem_of_cons in Hk as [->|Hk]; [|done].
    rewrite slotMap_fold_notin by done. rewrite lookup_insert_eq. eauto.
Qed.

(** With distinct ids the map sends an id to the member that carries it. *)
Lemma resolve_unique ms p :
  NoDup (FamilyMember.id <$> ms) → p ∈ ms →
  slotMap ms !! FamilyMember.id p ≫= (λ a, ms !! a) = Some p.
Proof.
  intros Hnd Hp.
  destruct (slotMap_lookup_is_Some ms (FamilyMember.id p)) as [a Ha].
  { by apply list_elem_of_fmap_2. }
  rewrite Ha. cbn.
  destruct (slotMap_lookup_Some ms _ a Ha) as (q & Hq & Hid).
  rewrite Hq. f_equal.
  eapply (NoDup_fmap_eq FamilyMember.id ms); eauto.
  by eapply list_elem_of_lookup_2.
Qed.

Lemma resolve_perm ms ms' k :
  NoDup (FamilyMember.id <$> ms) → ms ≡ₚ ms' →
  slotMap ms !! k ≫= (λ a, ms !! a) = slotMap ms' !! k ≫= (λ a, ms' !! a).
Proof.
  intros Hnd Hperm.
  assert (Hnd' : NoDup (FamilyMember.id <$> ms')) by (by rewrite <- Hperm).
  destruct (decide (k ∈ FamilyMember.id <$> ms)) as [Hin|Hnin].
  - apply list_elem_of_fmap in Hin as (p & -> & Hp).
    rewrite resolve_unique by done.
    rewrite resolve_unique; [done|done|by rewrite <- Hperm].
  - rewrite slotMap_lookup_None by done.
    rewrite slotMap_lookup_None; [done|by rewrite <- Hperm].
Qed.

(** *** What the parental rules read of the parents *)

Lemma existsb_ids k (l : list Disease.t) :
  existsb (λ d, String.eqb (Disease.id d) k) l
  = existsb (λ i, String.eqb i k) (Disease.id <$> l).
Proof. induction l as [|d l IH]; [done|]. cbn. by rewrite IH. Qed.

Lemma isAffected_traits d p p' :
  sameTraits p p' → isAffected d p = isAffected d p'.
Proof.
  intros [_ Hd]. unfold isAffected. by rewrite !existsb_ids, Hd.
Qed.

Lemma filter_affected_traits d ps ps' :
  Forall2 sameTraits ps ps' →
  Forall2 sameTraits (List.filter (isAffected d) ps)
                     (List.filter (isAffected d) ps').
Proof.
  induction 1 as [|p p' ps ps' Hp _ IH]; [constructor|]. cbn.
  rewrite (isAffected_traits d p p' Hp).
  destruct (isAffected d p'); [by constructor|done].
Qed.

Lemma find_gender_traits g ps ps' :
  Forall2 sameTraits ps ps' →
  is_Some (List.find (λ p, Gender_eqb (FamilyMember.gender p) g) ps)
  ↔ is_Some (List.find (λ p, Gender_eqb (FamilyMember.gender p) g) ps').
Proof.
  induction 1 as [|p p' ps ps' [Hg _] _ IH]; [done|]. cbn. rewrite Hg.
  destruct (Gender_eqb _ g); [|done]. split; eauto.
Qed.

Lemma calculateParentalRisk_traits ps ps' d g :
  Forall2 sameTraits ps ps' →
  calculateParentalRisk ps d g = calculateParentalRisk ps' d g.
Proof.
  intros H. unfold calculateParentalRisk.
  pose proof (filter_affected_traits d ps ps' H) as Hf.
  pose proof (Forall2_length _ _ _ Hf) as Hlen.
  pose proof (find_gender_traits female _ _ Hf) as Hmo.
  pose proof (find_gender_traits male _ _ Hf) as Hfa.
  destruct (Disease.type d).
  - unfold calculateDominantRisk. by rewrite Hlen.
  - unfold calculateRecessiveRisk. by rewrite Hlen.
  - unfold calculateXLinkedRisk. revert Hmo Hfa.
    destruct (List.find _ (List.filter _ ps)),
             (List.find _ (List.filter _ ps')),
             (List.find _ (List.filter _ ps)),
             (List.find _ (List.filter _ ps'));
      intros [? ?] [? ?]; first [done | exfalso; eapply is_Some_None; eauto].
  - unfold calculateMultifactorialRisk. by rewrite Hlen.
Qed.

Lemma calculateMemberDiseaseRisk_traits s s' mm mm' m d :
  Forall2 sameTraits (resolveParents s mm m) (resolveParents s' mm' m) →
  calculateMemberDiseaseRisk s m d mm = calculateMemberDiseaseRisk s' m d mm'.
Proof.
  intros H. unfold calculateMemberDiseaseRisk.
  destruct (isAffected d m); [done|].
  rewrite (Forall2_length _ _ _ H).
  by rewrite (calculateParentalRisk_traits _ _ d _ H).
Qed.

Lemma sameTraits_refl p : sameTraits p p.
Proof. by split. Qed.

Lemma Forall2_omap {A B} (R : B → B → Prop) (f g : A → option B) l :
  (∀ a, a ∈ l → option_Forall2 R (f a) (g a)) →
  Forall2 R (omap f l) (omap g l).
Proof.
  induction l as [|a l IH]; intros H; [constructor|]. cbn.
  pose proof (H a (list_elem_of_here _ _)) as Ha.
  assert (Forall2 R (omap f l) (omap g l)) as Hl.
  { apply IH. intros b Hb. apply H. by apply list_elem_of_further. }
  destruct Ha; [by constructor|done].
Qed.

Lemma bind_fmap_length {A B C} (f : A → B → C) (ds : list A) (ms : list B) :
  length (ds ≫= λ d, f d <$> ms) = (length ds * length ms)%nat.
Proof.
  induction ds as [|d ds IH]; [done|]. cbn.
  rewrite length_app, length_fmap, IH. done.
Qed.

Lemma riskOf_ids ms d m :
  memberId (riskOf ms d m) = FamilyMember.id m
  ∧ diseaseId (riskOf ms d m) = Disease.id d.
Proof.
  unfold riskOf, calculateMemberDiseaseRisk.
  destruct (isAffected d m); [done|]. by destruct (0 <? _)%nat.
Qed.

(** X1. The returned array holds one record per disease and member, disease
    by disease in catalog order and, within a disease, member by member in
    array order; each record names its member and its disease. *)
Theorem risks_in_catalog_order ms ds i j m d :
  ms !! i = Some m → ds !! j = Some d →
  length (calculateFamilyRisks ms ds).1 = (length ds * length ms)%nat
  ∧ ∃ g, (calculateFamilyRisks ms ds).1 !! (j * length ms + i)%nat = Some g
         ∧ memberId g = FamilyMember.id m ∧ diseaseId g = Disease.id d.
Proof.
  intros Hm Hd. rewrite calculateFamilyRisks_spec. cbn [fst]. split.
  - apply bind_fmap_length.
  - rewrite (bind_fmap_lookup (riskOf ms) ds ms j i d m) by done.
    eexists. split; [done|]. apply riskOf_ids.
Qed.

Lemma risks_in_catalog_order_witness :
  length (calculateFamilyRisks Sample.family Sample.catalog).1 = (2 * 3)%nat
  ∧ ∃ g, (calculateFamilyRisks Sample.family Sample.catalog).1
           !! (1 * 3 + 2)%nat = Some g
         ∧ memberId g = "son" ∧ diseaseId g = "hemophilia-a".
Proof.
  apply (risks_in_catalog_order Sample.family Sample.catalog 2 1
           Sample.son Sample.hemophilia); reflexivity.
Defined.

Lemma resolveParents_dangling ms m :
  (∀ pid, pid ∈ FamilyMember.parentIds m → pid ∉ FamilyMember.id <$> ms) →
  resolveParents ms (slotMap ms) m = [].
Proof.
  unfold resolveParents.
  generalize (FamilyMember.parentIds m) as pids.
  induction pids as [|pid pids IH]; intros Hp; [done|]. cbn.
  rewrite slotMap_lookup_None by (apply Hp; left). cbn.
  apply IH. intros k Hk. apply Hp. by right.
Qed.

(** X2. Parent ids that no member carries are ignored: when none of the
    ids in [parentIds] belongs to a member, a member who is not diagnosed
    gets the population score [min(prevalence * penetrance, 0.95)] with the
    label "population", as a member without parents does. *)
Theorem dangling_parents_population ms ds i j m d :
  ms !! i = Some m → ds !! j = Some d →
  (∀ pid, pid ∈ FamilyMember.parentIds m → pid ∉ FamilyMember.id <$> ms) →
  Disease.id d ∉ Disease.id <$> FamilyMember.diseases m →
  ∃ g, (calculateFamilyRisks ms ds).1 !! (j * length ms + i)%nat = Some g
       ∧ riskScore g = Rmin (Disease.prevalence d * Disease.penetrance d) 0.95
       ∧ inheritancePattern g = "population".
Proof.
  intros Hm Hd Hp Hna. apply isAffected_false in Hna.
  rewrite calculateFamilyRisks_spec. cbn [fst].
  rewrite (bind_fmap_lookup (riskOf ms) ds ms j i d m) by done.
  eexists. split; [done|].
  unfold riskOf, calculateMemberDiseaseRisk.
  rewrite Hna, (resolveParents_dangling ms m Hp). done.
Qed.

Lemma dangling_parents_population_witness :
  ∃ g, (calculateFamilyRisks [Sample.son] Sample.catalog).1
         !! (0 * 1 + 0)%nat = Some g
       ∧ riskScore g = Rmin (0.0002 * 0.9) 0.95
       ∧ inheritancePattern g = "population".
Proof.
  apply (dangling_parents_population [Sample.son] Sample.catalog 0 0
           Sample.son Sample.marfan).
  - reflexivity.
  - reflexivity.
  - intros pid Hpid. cbn in *. set_solver.
  - cbn. set_solver.
Defined.

(** X3. The score grows with the parental risk.  For a prevalence in
    [0,1] and a penetrance that is not negative, a member who is not
    diagnosed and has a resolved parent gets at least the score of parental
    risk 0, [min(combineRisks(prevalence, 0) * penetrance, 0.95)]; and of
    two families in which a parent of the member resolves, the one with
    the larger parental risk gives the larger score, or the same.  The
    bound is the code's combination with 0, not the population score
    [min(prevalence * penetrance, 0.95)] of a member without parents. *)
Theorem score_grows_with_parental_risk store mm store' mm' m d :
  0 <= Disease.prevalence d <= 1 → 0 <= Disease.penetrance d →
  Disease.id d ∉ Disease.id <$> FamilyMember.diseases m →
  let parents := resolveParents store mm m in
  let parents' := resolveParents store' mm' m in
  let p := risk (calculateParentalRisk parents d (FamilyMember.gender m)) in
  let p' := risk (calculateParentalRisk parents' d (FamilyMember.gender m)) in
  parents ≠ [] → parents' ≠ [] →
  Rmin (combineRisks (Disease.prevalence d) 0 * Disease.penetrance d) 0.95
  <= riskScore (calculateMemberDiseaseRisk store m d mm)
  ∧ (p <= p' →
     riskScore (calculateMemberDiseaseRisk store m d mm)
     <= riskScore (calculateMemberDiseaseRisk store' m d mm')).
Proof.
  intros Hprev Hpen Hna parents parents' p p' Hne Hne'.
  apply isAffected_false in Hna.
  rewrite !calculateMemberDiseaseRisk_unaffected by done.
  fold parents parents'. fold p p'.
  pose proof (calculateParentalRisk_bounds parents d
                (FamilyMember.gender m)) as Hp.
  fold p in Hp.
  assert (Hmono : ∀ a b, a <= b →
            Rmin (combineRisks (Disease.prevalence d) a
                  * Disease.penetrance d) 0.95
            <= Rmin (combineRisks (Disease.prevalence d) b
                     * Disease.penetrance d) 0.95).
  { intros a b Hab. apply Rle_min_compat_r.
    apply Rmult_le_compat_r; [done|]. unfold combineRisks. nra. }
  destruct parents; [done|]. destruct parents'; [done|]. cbn [length Nat.ltb Nat.leb].
  split; [apply Hmono; lra|apply Hmono].
Qed.

Lemma score_grows_with_parental_risk_witness :
  Rmin (combineRisks 0.0002 0 * 0.9) 0.95
  <= riskScore (calculateMemberDiseaseRisk Sample.family Sample.son
                  Sample.marfan (slotMap Sample.family)).
Proof.
  refine (proj1 (score_grows_with_parental_risk
                   Sample.family (slotMap Sample.family)
                   Sample.family (slotMap Sample.family)
                   Sample.son Sample.marfan _ _ _ _ _)).
  - cbn. lra.
  - cbn. lra.
  - cbn. set_solver.
  - by vm_compute.
  - by vm_compute.
Defined.

(** X4. A score of 1 means diagnosed: the record of a member has
    [riskScore = 1] exactly when the member is diagnosed with the disease,
    and then the label is "affected"; every other score is at most 0.95 and
    its label is not "affected". *)
Theorem score_one_iff_diagnosed store mm m d :
  let g := calculateMemberDiseaseRisk store m d mm in
  (riskScore g = 1 ↔ Disease.id d ∈ Disease.id <$> FamilyMember.diseases m)
  ∧ (inheritancePattern g = "affected"
     ↔ Disease.id d ∈ Disease.id <$> FamilyMember.diseases m)
  ∧ (Disease.id d ∉ Disease.id <$> FamilyMember.diseases m →
     riskScore g <= 0.95).
Proof.
  intros g. subst g. rewrite <- isAffected_true.
  destruct (isAffected d m) eqn:Haff.
  - unfold calculateMemberDiseaseRisk. rewrite Haff. cbn.
    split; [done|]. split; [done|].
    intros Hna. by destruct Hna.
  - pose proof (calculateMemberDiseaseRisk_unaffected store mm m d Haff) as Hr.
    cbn zeta in Hr.
    assert (riskScore (calculateMemberDiseaseRisk store m d mm) <= 0.95) as Hle.
    { rewrite Hr. apply Rmin_r. }
    split; [|split; [|done]].
    + split; [lra|done].
    + split; [|done]. unfold calculateMemberDiseaseRisk. rewrite Haff.
      destruct (0 <? _)%nat; cbn; [|done].
      unfold calculateParentalRisk, calculateDominantRisk,
        calculateRecessiveRisk, calculateXLinkedRisk,
        calculateMultifactorialRisk.
      repeat case_match; by cbn.
Qed.

(** X5. The order of the members array does not matter: with distinct ids,
    a member gets the same record for a disease whatever the position of
    the members in the array. *)
Theorem members_order_irrelevant ms ms' ds i i' j m d :
  NoDup (FamilyMember.id <$> ms) → ms ≡ₚ ms' →
  ms !! i = Some m → ms' !! i' = Some m → ds !! j = Some d →
  (calculateFamilyRisks ms ds).1 !! (j * length ms + i)%nat
  = (calculateFamilyRisks ms' ds).1 !! (j * length ms' + i')%nat.
Proof.
  intros Hnd Hperm Hm Hm' Hd. rewrite !calculateFamilyRisks_spec. cbn [fst].
  rewrite (bind_fmap_lookup (riskOf ms) ds ms j i d m) by done.
  rewrite (bind_fmap_lookup (riskOf ms') ds ms' j i' d m) by done.
  f_equal. unfold riskOf. apply calculateMemberDiseaseRisk_traits.
  unfold resolveParents. apply Forall2_omap. intros pid _.
  rewrite (resolve_perm ms ms' pid Hnd Hperm).
  destruct (slotMap ms' !! pid ≫= _); constructor. apply sameTraits_refl.
Qed.

Lemma members_order_irrelevant_witness :
  (calculateFamilyRisks Sample.family Sample.catalog).1 !! (0 * 3 + 2)%nat
  = (calculateFamilyRisks [Sample.son; Sample.father; Sample.mother]
       Sample.catalog).1 !! (0 * 3 + 0)%nat.
Proof.
  apply (members_order_irrelevant Sample.family
           [Sample.son; Sample.father; Sample.mother] Sample.catalog
           2 0 0 Sample.son Sample.marfan).
  - apply (proj1 (bool_decide_eq_true
             (NoDup (FamilyMember.id <$> Sample.family)))).
    vm_compute. reflexivity.
  - unfold Sample.family.
    etrans; [apply (Permutation_swap Sample.father Sample.mother)|].
    etrans; [apply perm_skip, (Permutation_swap Sample.son Sample.mother)|].
    apply (Permutation_swap Sample.son Sample.father).
  - reflexivity.
  - reflexivity.
  - reflexivity.
Defined.

(** X6. Only the parents count, and of them only the sex and the
    diagnoses: replacing the member object of slot [a] by one with the same
    id leaves the records of every other member [m] as they were, unless
    the replaced member is a parent of [m] and its sex or its diagnoses
    changed.  A diagnosis of a grandparent does not reach a grandchild. *)
Theorem only_parents_count ms ds a q q' i j m :
  ms !! a = Some q → FamilyMember.id q' = FamilyMember.id q →
  ms !! i = Some m → i ≠ a →
  (FamilyMember.id q ∈ FamilyMember.parentIds m → sameTraits q q') →
  (calculateFamilyRisks (<[a := q']> ms) ds).1 !! (j * length ms + i)%nat
  = (calculateFamilyRisks ms ds).1 !! (j * length ms + i)%nat.
Proof.
  intros Ha Hid Hm Hia Hq. rewrite !calculateFamilyRisks_spec. cbn [fst].
  assert (Hm' : <[a := q']> ms !! i = Some m)
    by (by rewrite list_lookup_insert_ne).
  assert (Hmap : slotMap (<[a := q']> ms) = slotMap ms).
  { apply slotMap_ids. rewrite list_fmap_insert, Hid.
    apply list_insert_id. by rewrite list_lookup_fmap, Ha. }
  destruct (ds !! j) as [d|] eqn:Hd.
  - rewrite <- (length_insert ms a q') at 1.
    rewrite (bind_fmap_lookup (riskOf (<[a := q']> ms)) ds _ j i d m) by done.
    rewrite (bind_fmap_lookup (riskOf ms) ds ms j i d m) by done.
    f_equal. unfold riskOf. apply calculateMemberDiseaseRisk_traits.
    unfold resolveParents. rewrite Hmap. apply Forall2_omap. intros pid Hpid.
    destruct (slotMap ms !! pid) as [b|] eqn:Hb; cbn; [|constructor].
    destruct (decide (b = a)) as [->|Hne].
    + rewrite list_lookup_insert_eq by (by eapply lookup_lt_Some).
      rewrite Ha. constructor.
      destruct (slotMap_lookup_Some ms pid a Hb) as (p & Hp & Hpid').
      assert (p = q) as -> by congruence. subst pid.
      destruct (Hq Hpid) as [Hg Hdis]. by split.
    + rewrite list_lookup_insert_ne by done.
      destruct (ms !! b); constructor. apply sameTraits_refl.
  - assert (Hlen : ∀ l : list FamilyMember.t, length l = length ms →
              (ds ≫= λ d, riskOf l d <$> l) !! (j * length ms + i)%nat = None).
    { intros l Hl. apply lookup_ge_None_2.
      rewrite bind_fmap_length, Hl.
      apply lookup_ge_None_1 in Hd. nia. }
    rewrite (Hlen ms eq_refl). apply Hlen. apply length_insert.
Qed.

Lemma only_parents_count_witness :
  (calculateFamilyRisks
     (<[1%nat := Sample.person "c" female [] ["b"] [Sample.marfan]]>
        Sample.blended) Sample.catalog).1 !! (0 * 4 + 3)%nat
  = (calculateFamilyRisks Sample.blended Sample.catalog).1 !! (0 * 4 + 3)%nat.
Proof.
  apply (only_parents_count Sample.blended Sample.catalog 1
           (Sample.person "c" female [] ["b"] [])
           (Sample.person "c" female [] ["b"] [Sample.marfan])
           3 0 (Sample.person "p" male ["a"; "b"] [] [])).
  - reflexivity.
  - reflexivity.
  - reflexivity.
  - lia.
  - cbn. intros H. exfalso. set_solver.
Defined.

End RiskMore.

(** ** More properties of the layout engine *)

Module LayoutMore.
Import TreeLayoutEngine LayoutSpec LayoutTerms LayoutFacts.
Local Open Scope R_scope.

#[local] Arguments memberRefs : simpl never.
#[local] Arguments refMap : simpl never.
#[local] Arguments rootRefs : simpl never.

Section Levels.
Context (members : list FamilyMember.t).
Context (Hids : NoDup (FamilyMember.id <$> members)).
Local Abbreviation refs := (memberRefs members).
Local Abbreviation mm := (refMap members).

Lemma BfsLevel_init :
  BfsLevel members (mkBfsState (rootQueue members) ∅ members []).
Proof.
  split; cbn.
  - exists 0%nat, (rootQueue members), []. rewrite app_nil_r.
    split; [done|]. split; [|split; [constructor|]].
    + apply Forall_forall. intros item Hin.
      by apply elem_of_rootQueue in Hin as (_ & _ & ?).
    + intros r g _ Hv. by apply not_elem_of_empty in Hv.
  - intros r g c rc _ Hv. by apply not_elem_of_empty in Hv.
  - done.
Qed.

Lemma BfsLevel_step item rest v s g :
  BfsInv members (mkBfsState (item :: rest) v s g) →
  BfsLevel members (mkBfsState (item :: rest) v s g) →
  BfsLevel members (bfsBody mm item (mkBfsState rest v s g)).
Proof.
  intros [Hq Hs _ _ _ _ _ _ _ _] [Hlvl Hch Hun]. cbn in *.
  destruct item as [r0 g0].
  assert (Hr0 : r0 ∈ refs) by (apply (Hq (r0, g0)); by left).
  (* the head of the queue is on the current level *)
  assert (∃ qa qb, rest = qa ++ qb
            ∧ Forall (λ item, item.2 = g0) qa
            ∧ Forall (λ item, item.2 = S g0) qb
            ∧ ∀ r gg, r ∈ refs → ref_id r ∈ v →
                gen_at s r = Some gg → (gg ≤ g0)%nat) as Hlvl'.
  { destruct Hlvl as (h & qa & qb & Hsplit & Hqa & Hqb & Hle).
    destruct qa as [|a qa]; cbn in Hsplit.
    - subst qb. apply Forall_cons in Hqb as [Hg0 Hqb]. cbn in Hg0. subst g0.
      exists rest, []. rewrite app_nil_r. split; [done|].
      split; [done|]. split; [constructor|].
      intros r gg Hr Hrv Hg. specialize (Hle r gg Hr Hrv Hg). lia.
    - injection Hsplit as <- ->. apply Forall_cons in Hqa as [Hg0 Hqa].
      cbn in Hg0. subst h. by exists qa, qb. }
  clear Hlvl. destruct Hlvl' as (qa & qb & -> & Hqa & Hqb & Hle).
  assert (Hhead : ∀ rc gc, (rc, gc) ∈ (r0, g0) :: qa ++ qb → (g0 ≤ gc)%nat).
  { intros rc gc [Heq|Hin]%elem_of_cons; [by injection Heq as _ ->|].
    apply elem_of_app in Hin as [Hin|Hin].
    - rewrite Forall_forall in Hqa. specialize (Hqa _ Hin). cbn in Hqa. lia.
    - rewrite Forall_forall in Hqb. specialize (Hqb _ Hin). cbn in Hqb. lia. }
  unfold bfsBody. cbn.
  destruct (decide (ref_id r0 ∈ v)) as [Hv|Hv].
  { split; cbn.
    - by exists g0, qa, qb.
    - intros r gg c rc Hr Hrv Hg Hc Hmm.
      destruct (Hch r gg c rc Hr Hrv Hg Hc Hmm)
        as [?|(Hcv & gc & Hin & Hgc)]; [by left|right].
      split; [done|]. exists gc. split; [|done].
      apply elem_of_cons in Hin as [Heq|Hin]; [|done].
      injection Heq as -> ->. exfalso. apply Hcv.
      by apply refMap_lookup_Some in Hmm as [_ <-].
    - done. }
  set (v' := v ∪ {[ref_id r0]}).
  set (s' := alter (FamilyMember.set_generation g0) (slot r0) s).
  assert (Hkeep : ∀ r, r ∈ refs → ref_id r ≠ ref_id r0 →
            s' !! slot r = s !! slot r).
  { intros r Hr Hne. unfold s'. apply list_lookup_alter_ne. intros Heq.
    symmetry in Heq.
    apply (memberRefs_slot_inj members) in Heq; [|done..]. by subst. }
  assert (Hkeepg : ∀ r, r ∈ refs → ref_id r ∈ v → gen_at s' r = gen_at s r).
  { intros r Hr Hrv. unfold gen_at. rewrite Hkeep; [done|done|].
    intros Heq. by rewrite Heq in Hrv. }
  assert (Hnew : gen_at s' r0 = Some g0).
  { apply gen_at_alter_eq. by rewrite Hs. }
  split; cbn; fold v' s'.
  - exists g0, qa, (qb ++ enqueueChildren mm v' g0 (ref_childrenIds r0) []).
    split; [by rewrite enqueueChildren_app, <- app_assoc|].
    split; [done|]. split.
    + apply Forall_app. split; [done|]. apply Forall_forall.
      intros item [Hin|(Hg & _)]%enqueueChildren_elem;
        [by apply elem_of_nil in Hin|done].
    + intros r gg Hr [Hrv|Heq%elem_of_singleton]%elem_of_union Hg.
      * rewrite Hkeepg in Hg by done. by eapply Hle.
      * apply (memberRefs_id_inj members) in Heq; [|done..]. subst r.
        rewrite Hnew in Hg. injection Hg as <-. done.
  - intros r gg c rc Hr Hrv Hg Hc Hmm.
    pose proof (refMap_lookup_Some _ _ _ Hmm) as [Hrc Hrcid].
    apply elem_of_union in Hrv as [Hrv|Heq%elem_of_singleton].
    + rewrite Hkeepg in Hg by done.
      destruct (Hch r gg c rc Hr Hrv Hg Hc Hmm)
        as [[Hcv Hgc]|(Hcv & gc & Hin & Hgc)].
      * left. split; [set_solver|]. intros gc Hgc'.
        rewrite Hkeepg in Hgc' by (by rewrite ?Hrcid). by apply Hgc.
      * destruct (decide (c = ref_id r0)) as [Heq|Hne].
        -- left. split; [set_solver|]. intros gc' Hgc'.
           assert (rc = r0) as ->.
           { apply (memberRefs_id_inj members); [done..|congruence]. }
           rewrite Hnew in Hgc'. injection Hgc' as <-.
           specialize (Hhead _ _ Hin). lia.
        -- right. split; [set_solver|]. exists gc. split; [|done].
           apply enqueueChildren_elem. left.
           apply elem_of_cons in Hin as [Heq|Hin]; [|done].
           injection Heq as -> ->. congruence.
    + apply (memberRefs_id_inj members) in Heq; [|done..]. subst r.
      rewrite Hnew in Hg. injection Hg as <-.
      destruct (decide (c ∈ v')) as [Hcv|Hcv].
      * left. split; [done|]. intros gc Hgc.
        apply elem_of_union in Hcv as [Hcv|Heq%elem_of_singleton].
        -- rewrite Hkeepg in Hgc by (by rewrite ?Hrcid).
           assert (gc ≤ g0)%nat; [|lia].
           eapply (Hle rc); [done| |done]. by rewrite Hrcid.
        -- assert (rc = r0) as ->.
           { apply (memberRefs_id_inj members); [done..|congruence]. }
           rewrite Hnew in Hgc. injection Hgc as <-. lia.
      * right. split; [done|]. exists (S g0). split; [|done].
        apply enqueueChildren_elem. right. cbn. split; [done|]. by exists c.
  - intros r Hr Hrv. rewrite Hkeep; [|done|set_solver].
    apply Hun; [done|set_solver].
Qed.


(** The state the traversal ends in. *)
Lemma organizeByGenerations_levels s g :
  organizeByGenerations members mm = Some (s, g) →
  ∃ v, BfsInv members (mkBfsState [] v s g)
       ∧ BfsLevel members (mkBfsState [] v s g).
Proof.
  unfold organizeByGenerations. fold (rootQueue members).
  destruct (bfsLoop _ _ _) as [st|] eqn:Hrun; [|done]. cbn.
  intros [= <- <-].
  apply (bfsLoop_inv (λ st, BfsInv members st ∧ BfsLevel members st) mm)
    in Hrun as [[Hinv Hlvl] Hq].
  - exists (visited st). destruct st. cbn in *. by subst.
  - intros item rest v s g [Hinv Hlvl]. split.
    + by apply BfsInv_step.
    + by apply BfsLevel_step.
  - split; [by apply BfsInv_init|apply BfsLevel_init].
Qed.

Section Final.
Context (v : gset string) (s : list FamilyMember.t).
Context (g : list (nat * list MemberRef)).
Context (Hinv : BfsInv members (mkBfsState [] v s g)).
Context (Hlvl : BfsLevel members (mkBfsState [] v s g)).

Lemma gen_at_is_Some r : r ∈ refs → is_Some (gen_at s r).
Proof.
  intros Hr. destruct Hinv as [_ Hs _ _ _ _ _ _ _ _]. cbn in Hs.
  rewrite <- Hs in Hr. apply elem_of_memberRefs in Hr as (m & Hm & _).
  unfold gen_at. rewrite Hm. by eexists.
Qed.

Lemma member_ref_slot i m :
  members !! i = Some m → refOf i m ∈ refs.
Proof.
  intros Hm. apply elem_of_memberRefs. exists m. by split.
Qed.

Lemma visited_reach gg : ∀ r,
  r ∈ refs → ref_id r ∈ v → gen_at s r = Some gg →
  reach members (ref_id r) gg.
Proof.
  destruct Hinv as [_ _ _ _ _ _ _ _ Hvis _]. cbn in Hvis.
  induction gg as [|gg IH]; intros r Hr Hrv Hg.
  - destruct (Hvis r 0%nat Hr Hrv Hg) as [[Hroot _]|(r' & g' & _ & _ & _ & ? & _)];
      [|done].
    destruct (refs_member members r Hr) as (m & Hm & _ & -> & Hp & _).
    apply reach_root; [done|]. by rewrite <- Hp.
  - destruct (Hvis r (S gg) Hr Hrv Hg)
      as [[_ ?]|(r' & g' & Hr' & Hr'v & Hg' & [= ->] & Hc)]; [done|].
    destruct (refs_member members r' Hr') as (m' & Hm' & _ & Hid' & _ & Hch').
    apply (reach_child members m'); [done| | |].
    + rewrite <- Hid'. by apply IH.
    + by rewrite <- Hch'.
    + rewrite <- memberRefs_ids. by apply list_elem_of_fmap_2.
Qed.

Lemma reach_visited k n :
  reach members k n →
  ∃ r gg, r ∈ refs ∧ ref_id r = k ∧ k ∈ v
          ∧ gen_at s r = Some gg ∧ (gg ≤ n)%nat.
Proof.
  destruct Hinv as [_ _ _ _ _ _ Hroots _ _ Hclosed]. cbn in *.
  destruct Hlvl as [_ Hch _]. cbn in Hch.
  induction 1 as [m Hm Hp|m c n Hm _ IH Hc Hcin].
  - destruct (member_ref members m Hm) as (r & Hr & Hid & Hpr & _).
    destruct (Hroots r Hr) as [[Hrv Hg]|(_ & q1 & q2 & Hq & _)].
    + unfold isRoot. congruence.
    + exists r, 0%nat. rewrite <- Hid. by eauto.
    + by destruct q1.
  - destruct IH as (r & gg & Hr & Hid & Hrv & Hg & Hle).
    destruct (refs_member members r Hr) as (m' & Hm' & _ & Hid' & _ & Hch').
    assert (m' = m) as ->.
    { apply (RiskFacts.NoDup_fmap_eq FamilyMember.id members); [done..|].
      congruence. }
    rewrite <- memberRefs_ids in Hcin.
    apply list_elem_of_fmap in Hcin as (rc & -> & Hrc).
    pose proof (refMap_lookup_elem members rc Hids Hrc) as Hmm.
    rewrite <- Hid in Hrv. rewrite <- Hch' in Hc.
    destruct (Hclosed r _ rc Hr Hrv Hc Hmm) as [Hcv|(? & Hin)];
      [|by apply elem_of_nil in Hin].
    destruct (gen_at_is_Some rc Hrc) as [gc Hgc].
    exists rc, gc. split; [done|]. split; [done|]. split; [done|].
    split; [done|].
    destruct (Hch r gg _ rc Hr Hrv Hg Hc Hmm) as [[_ Hgc']|[Hn _]]; [|done].
    specialize (Hgc' gc Hgc). lia.
Qed.

End Final.
End Levels.

Lemma calculateLayout_levels members config :
  NoDup (FamilyMember.id <$> members) →
  ∃ s out gens v,
    calculateLayout members config = Some (s, out)
    ∧ BfsInv members (mkBfsState [] v s gens)
    ∧ BfsLevel members (mkBfsState [] v s gens)
    ∧ out = assignAll (layoutWrites config (refMap members) gens) s.
Proof.
  intros Hids.
  destruct (calculateLayout_total members config) as [[s out] Hrun].
  destruct (calculateLayout_writes members config s out Hrun)
    as (gens & Horg & Hout).
  destruct (organizeByGenerations_levels members Hids s gens Horg)
    as (v & Hinv & Hlvl).
  by exists s, out, gens, v.
Qed.

(** X7. With distinct ids, the generation of a member that can be reached
    from a root through [childrenIds] is the length of the shortest such
    path. *)
Theorem generation_is_shortest_path members config :
  NoDup (FamilyMember.id <$> members) →
  ∃ ms1 out,
    calculateLayout members config = Some (ms1, out)
    ∧ ∀ i p n, out !! i = Some p → reach members (FamilyMember.id p) n →
        reach members (FamilyMember.id p) (FamilyMember.generation p)
        ∧ (FamilyMember.generation p ≤ n)%nat.
Proof.
  intros Hids.
  destruct (calculateLayout_levels members config Hids)
    as (s & out & gens & v & Hrun & Hinv & Hlvl & Hout).
  exists s, out. split; [done|]. intros i p n Hp Hreach.
  destruct (out_ref members config s out gens v Hinv Hout i p Hp) as [Hr Hg].
  destruct (reach_visited members Hids v s gens Hinv Hlvl _ _ Hreach)
    as (r & gg & Hr' & Hid & Hv & Hg' & Hle).
  assert (r = refOf i p) as ->.
  { by apply (memberRefs_id_inj members). }
  assert (gg = FamilyMember.generation p) as -> by congruence.
  split; [|done].
  by apply (visited_reach members v s gens Hinv _ (refOf i p)).
Qed.

Lemma generation_is_shortest_path_witness :
  ∃ ms1 out,
    calculateLayout Sample.blended DEFAULT_CONFIG = Some (ms1, out)
    ∧ ∀ i p n, out !! i = Some p →
        reach Sample.blended (FamilyMember.id p) n →
        reach Sample.blended (FamilyMember.id p) (FamilyMember.generation p)
        ∧ (FamilyMember.generation p ≤ n)%nat.
Proof.
  apply (generation_is_shortest_path Sample.blended DEFAULT_CONFIG).
  apply (proj1 (bool_decide_eq_true
                  (NoDup (FamilyMember.id <$> Sample.blended)))).
  vm_compute. reflexivity.
Defined.

(** X8. With distinct ids, a member that cannot be reached from a root
    through [childrenIds] (a member with parents that no reached member
    lists as a child, a member of a cycle) is left as it was: the layout
    writes neither its generation nor its position. *)
Theorem unreached_member_untouched members config :
  NoDup (FamilyMember.id <$> members) →
  ∃ ms1 out,
    calculateLayout members config = Some (ms1, out)
    ∧ ∀ i m, members !! i = Some m →
        (∀ n, ¬ reach members (FamilyMember.id m) n) →
        ms1 !! i = Some m ∧ out !! i = Some m.
Proof.
  intros Hids.
  destruct (calculateLayout_levels members config Hids)
    as (s & out & gens & v & Hrun & Hinv & Hlvl & Hout).
  exists s, out. split; [done|]. intros i m Hm Hno.
  pose proof (member_ref_slot members i m Hm) as Hr.
  assert (Hnv : ref_id (refOf i m) ∉ v).
  { intros Hv.
    destruct (gen_at_is_Some members v s gens Hinv _ Hr) as [gg Hg].
    apply (Hno gg).
    by apply (visited_reach members v s gens Hinv gg (refOf i m)). }
  assert (Hs : s !! i = Some m).
  { destruct Hlvl as [_ _ Hun]. cbn in Hun.
    rewrite <- Hm. by apply (Hun (refOf i m)). }
  split; [done|]. subst out. apply assignAll_lookup_notin; [done|].
  intros Hk. destruct Hinv as [_ _ Hsound _ _ Honce _ _ _ _]. cbn in *.
  apply layoutWrites_keys_sub in Hk; [|done].
  apply list_elem_of_fmap in Hk as (r & Hid & Hin).
  apply elem_of_concat_placed in Hin as [gg Hpl].
  destruct (Hsound gg r Hpl) as (_ & Hrv & _). apply Hnv. cbn.
  by rewrite Hid.
Qed.

Lemma unreached_member_untouched_witness :
  ∃ ms1 out,
    calculateLayout Sample.cycle DEFAULT_CONFIG = Some (ms1, out)
    ∧ ∀ i m, Sample.cycle !! i = Some m →
        (∀ n, ¬ reach Sample.cycle (FamilyMember.id m) n) →
        ms1 !! i = Some m ∧ out !! i = Some m.
Proof.
  apply (unreached_member_untouched Sample.cycle DEFAULT_CONFIG).
  apply (proj1 (bool_decide_eq_true
                  (NoDup (FamilyMember.id <$> Sample.cycle)))).
  vm_compute. reflexivity.
Defined.

(** X9. In a well-formed pedigree no member is more than one generation
    below any of its parents: [p.generation <= q.generation + 1] for every
    parent [q] of [p]. *)
Theorem at_most_one_below_each_parent members depth config :
  wellFormed members depth →
  ∃ ms1 out,
    calculateLayout members config = Some (ms1, out)
    ∧ ∀ p q, p ∈ out → q ∈ out →
        FamilyMember.id q ∈ FamilyMember.parentIds p →
        (FamilyMember.generation p ≤ S (FamilyMember.generation q))%nat.
Proof.
  intros Hwf. pose proof (wf_ids _ _ Hwf) as Hids.
  destruct (calculateLayout_levels members config Hids)
    as (s & out & gens & v & Hrun & Hinv & Hlvl & Hout).
  exists s, out. split; [done|]. intros p q Hp Hq Hpar.
  apply list_elem_of_lookup in Hp as [i Hp].
  apply list_elem_of_lookup in Hq as [j Hq].
  destruct (out_ref members config s out gens v Hinv Hout i p Hp) as [Hrp Hgp].
  destruct (out_ref members config s out gens v Hinv Hout j q Hq) as [Hrq Hgq].
  destruct (refs_member members _ Hrp) as (mp & Hmp & _ & Hidp & Hpp & _).
  destruct (refs_member members _ Hrq) as (mq & Hmq & _ & Hidq & _ & Hcq).
  cbn in Hidp, Hpp, Hidq, Hcq.
  assert (Hvq : ref_id (refOf j q) ∈ v)
    by (by eapply (all_visited members Hids depth)).
  pose proof (visited_reach members v s gens Hinv _ _ Hrq Hvq Hgq) as Hreach.
  assert (reach members (FamilyMember.id p) (S (FamilyMember.generation q)))
    as Hreach'.
  { apply (reach_child members mq).
    - done.
    - by rewrite <- Hidq.
    - rewrite Hidp. apply (wf_symmetric _ _ Hwf); [done..|].
      by rewrite <- Hidq, <- Hpp.
    - rewrite Hidp. by apply list_elem_of_fmap_2. }
  destruct (reach_visited members Hids v s gens Hinv Hlvl _ _ Hreach')
    as (r & gg & Hr & Hid & _ & Hg & Hle).
  assert (r = refOf i p) as -> by (by apply (memberRefs_id_inj members)).
  assert (gg = FamilyMember.generation p) as -> by congruence. done.
Qed.

Lemma at_most_one_below_each_parent_witness :
  ∃ ms1 out,
    calculateLayout Sample.blended DEFAULT_CONFIG = Some (ms1, out)
    ∧ ∀ p q, p ∈ out → q ∈ out →
        FamilyMember.id q ∈ FamilyMember.parentIds p →
        (FamilyMember.generation p ≤ S (FamilyMember.generation q))%nat.
Proof.
  apply (at_most_one_below_each_parent Sample.blended Sample.blended_depth
           DEFAULT_CONFIG).
  apply wellFormedb_true. vm_compute. reflexivity.
Defined.

(** *** What the layout writes *)

Lemma applyWrites_generation log s :
  FamilyMember.set_generation 0 <$> applyWrites log s
  = FamilyMember.set_generation 0 <$> s.
Proof.
  apply list_eq. intros i. rewrite !list_lookup_fmap, applyWrites_lookup.
  destruct (s !! i) as [m|]; [|done]. cbn. f_equal.
  by destruct (lastWrite log i).
Qed.

Lemma organizeByGenerations_store members mm s gens :
  organizeByGenerations members mm = Some (s, gens) →
  ∃ log, s = applyWrites log members.
Proof.
  unfold organizeByGenerations.
  destruct (bfsLoop _ _ _) as [st|] eqn:Hrun; [|done]. cbn.
  intros [= <- <-].
  destruct (bfsLoop_store _ _ _ _ Hrun) as [log Hlog]. cbn in Hlog.
  specialize (Hlog members). rewrite Hrun in Hlog.
  injection Hlog as Hst. exists log. by rewrite Hst.
Qed.

(** X10. On every input the layout returns, and all it writes is
    [generation] and [position]: the caller's member objects come back with
    at most their [generation] changed (their [position] is never written),
    and the returned copies differ from them at most in [position]. *)
Theorem layout_writes_generation_and_position members config :
  ∃ ms1 out,
    calculateLayout members config = Some (ms1, out)
    ∧ FamilyMember.set_generation 0 <$> ms1
      = FamilyMember.set_generation 0 <$> members
    ∧ unplace <$> out = unplace <$> ms1.
Proof.
  destruct (calculateLayout_total members config) as [[s out] Hrun].
  destruct (calculateLayout_writes members config s out Hrun)
    as (gens & Horg & Hout).
  exists s, out. split; [done|]. split.
  - apply organizeByGenerations_store in Horg as [log ->].
    apply applyWrites_generation.
  - by eapply out_unplace.
Qed.

(** *** Sibling groups *)

(** X11. [haveSameParents] is an equivalence: it holds exactly when the
    two [parentIds] arrays have the same length and the same elements, in
    any order. *)
Theorem same_parents_equivalence a b c :
  (haveSameParents a b = true
   ↔ length (ref_parentIds a) = length (ref_parentIds b)
     ∧ ∀ k, k ∈ ref_parentIds a ↔ k ∈ ref_parentIds b)
  ∧ haveSameParents a a = true
  ∧ haveSameParents a b = haveSameParents b a
  ∧ (haveSameParents a b = true → haveSameParents b c = true →
     haveSameParents a c = true).
Proof.
  split; [|split; [|split]].
  - rewrite haveSameParents_spec. split; intros [Hlen Hset]; (split; [done|]).
    + intros k.
      rewrite <- (elem_of_list_to_set (C:=gset string) k (ref_parentIds a)).
      rewrite Hset. apply elem_of_list_to_set.
    + apply set_eq. intros k. rewrite !elem_of_list_to_set. apply Hset.
  - apply haveSameParents_refl.
  - destruct (haveSameParents a b) eqn:Hab, (haveSameParents b a) eqn:Hba;
      try done.
    + apply haveSameParents_sym in Hab. congruence.
    + apply haveSameParents_sym in Hba. congruence.
  - apply haveSameParents_trans.
Qed.

Lemma siblingFold_groups l mm todo : ∀ st G,
  G ∈ (foldl (siblingStep l mm) st todo).1 →
  G ∈ st.1 ∨ ∃ x, x ∈ todo ∧ G = findSiblings x l mm.
Proof.
  induction todo as [|a todo IH]; intros st G HG; [by left|].
  cbn [foldl] in HG. apply IH in HG as [HG|(x & Hx & ->)].
  - destruct st as [groups processed]. unfold siblingStep in HG.
    case_decide; cbn in HG; [by left|].
    apply elem_of_app in HG as [HG|HG]; [by left|].
    apply list_elem_of_singleton in HG as ->. right. exists a.
    split; [by left|done].
  - right. exists x. split; [by right|done].
Qed.

(** X12. The sibling groups of a generation (ids distinct) partition it:
    every member is in exactly one group; the members of a group have the
    same parents, and a group of a member with parents holds every member
    of the generation with those parents; a member without parents is a
    group of its own. *)
Theorem sibling_groups_partition l mm :
  NoDup (ref_id <$> l) →
  concat (groupSiblings l mm) ≡ₚ l
  ∧ ∀ G a, G ∈ groupSiblings l mm → a ∈ G →
      (∀ b, b ∈ G → haveSameParents a b = true)
      ∧ (ref_parentIds a ≠ [] →
         ∀ c, c ∈ l → haveSameParents a c = true → c ∈ G)
      ∧ (ref_parentIds a = [] → G = [a]).
Proof.
  intros Hl.
  destruct (groupSiblings_spec l mm Hl) as (Honce & Hsub & Hall).
  assert (Hl' : NoDup l) by (by apply (NoDup_fmap_1 ref_id)).
  assert (Hfind : ∀ G, G ∈ groupSiblings l mm →
            ∃ x, x ∈ l ∧ G = findSiblings x l mm).
  { intros G HG. rewrite groupSiblings_fold in HG.
    apply siblingFold_groups in HG as [HG|?]; [|done].
    by apply elem_of_nil in HG. }
  split.
  - apply NoDup_Permutation; [by apply (NoDup_fmap_1 ref_id)|done|].
    intros r. split; [apply Hsub|]. intros Hr.
    destruct (Hall r Hr) as (G & HG & HrG & _).
    apply elem_of_concat. by exists G.
  - intros G a HG Ha. destruct (Hfind G HG) as (x & Hx & ->).
    destruct (proj1 (findSiblings_elem l mm x a Hx) Ha)
      as [[Hroot ->]|(Hnr & Ha' & Hxa)].
    + unfold findSiblings. unfold isRoot in Hroot. rewrite Hroot. cbn.
      split; [|split; [done|done]].
      intros b ->%list_elem_of_singleton. apply haveSameParents_refl.
    + split; [|split].
      * intros b Hb.
        destruct (proj1 (findSiblings_elem l mm x b Hx) Hb)
          as [[? _]|(_ & Hb' & Hxb)]; [done|].
        eapply haveSameParents_trans; [|done].
        by apply haveSameParents_sym.
      * intros _ c Hc Hac. apply findSiblings_elem; [done|]. right.
        split; [done|]. split; [done|].
        by eapply haveSameParents_trans.
      * intros Hroot. exfalso. apply Hnr.
        apply (haveSameParents_root a x); [|done].
        by apply haveSameParents_sym.
Qed.

Lemma sibling_groups_partition_witness :
  concat (groupSiblings (memberRefs Sample.household)
            (refMap Sample.household))
  ≡ₚ memberRefs Sample.household.
Proof.
  refine (proj1 (sibling_groups_partition (memberRefs Sample.household)
                   (refMap Sample.household) _)).
  apply (proj1 (bool_decide_eq_true
                  (NoDup (ref_id <$> memberRefs Sample.household)))).
  vm_compute. reflexivity.
Defined.

(** *** The hash of an id and the depth coordinate *)

Lemma toInt32_wrap n : ∃ k, toInt32 n = (n + 2 ^ 32 * k)%Z.
Proof.
  unfold toInt32. exists (- ((n + 2 ^ 31) / 2 ^ 32))%Z.
  pose proof (Z.div_mod (n + 2 ^ 31) (2 ^ 32) ltac:(lia)). lia.
Qed.

Lemma toInt32_add_mul n k : toInt32 (n + 2 ^ 32 * k) = toInt32 n.
Proof.
  unfold toInt32. f_equal.
  replace (n + 2 ^ 32 * k + 2 ^ 31)%Z with (n + 2 ^ 31 + k * 2 ^ 32)%Z by lia.
  apply Z.mod_add. lia.
Qed.

Lemma toInt32_range n : (- 2 ^ 31 ≤ toInt32 n < 2 ^ 31)%Z.
Proof.
  unfold toInt32. pose proof (Z.mod_pos_bound (n + 2 ^ 31) (2 ^ 32)). lia.
Qed.

Lemma hashString_step h P c :
  h = toInt32 P →
  Z.land (toInt32 (toInt32 (Z.shiftl h 5) - h + c))
         (toInt32 (toInt32 (Z.shiftl h 5) - h + c))
  = toInt32 (31 * P + c).
Proof.
  intros ->. rewrite Z.land_diag, Z.shiftl_mul_pow2 by lia.
  destruct (toInt32_wrap P) as [k1 H1]. rewrite H1.
  destruct (toInt32_wrap ((P + 2 ^ 32 * k1) * 2 ^ 5)) as [k2 H2]. rewrite H2.
  replace ((P + 2 ^ 32 * k1) * 2 ^ 5 + 2 ^ 32 * k2 - (P + 2 ^ 32 * k1) + c)%Z
    with (31 * P + c + 2 ^ 32 * (31 * k1 + k2))%Z by lia.
  apply toInt32_add_mul.
Qed.

Lemma hashString_wrapped str :
  hashString str
  = Z.abs (toInt32 (foldl (λ h c, 31 * h + Z.of_nat (Ascii.nat_of_ascii c))%Z
                          0%Z (String.list_ascii_of_string str))).
Proof.
  unfold hashString. f_equal.
  assert (0 = toInt32 0)%Z as H0 by done. revert H0.
  generalize 0%Z at 1 3 as h. generalize 0%Z as P.
  induction (String.list_ascii_of_string str) as [|c cs IH]; intros P h Hh;
    [done|].
  cbn [foldl]. apply IH. by apply hashString_step.
Qed.

Lemma hashString_bounds str : (0 ≤ hashString str ≤ 2 ^ 31)%Z.
Proof.
  rewrite hashString_wrapped.
  pose proof (toInt32_range
    (foldl (λ h c, 31 * h + Z.of_nat (Ascii.nat_of_ascii c))%Z
           0%Z (String.list_ascii_of_string str))). lia.
Qed.

(** X13. [hashString] is the polynomial hash with base 31 of the character
    codes, wrapped to a signed 32-bit integer, in absolute value; it lies
    between 0 and 2^31. *)
Theorem hashString_polynomial str :
  hashString str
  = Z.abs (toInt32 (foldl (λ h c, 31 * h + Z.of_nat (Ascii.nat_of_ascii c))%Z
                          0%Z (String.list_ascii_of_string str)))
  ∧ (0 ≤ hashString str ≤ 2 ^ 31)%Z.
Proof. split; [apply hashString_wrapped|apply hashString_bounds]. Qed.

Lemma calculateZPosition_range r mm :
  - 2 <= calculateZPosition r mm <= 2.
Proof.
  unfold calculateZPosition.
  pose proof (hashString_bounds (ref_id r)) as [H0 _].
  pose proof (Z.rem_bound_pos (hashString (ref_id r)) 5 H0 ltac:(lia)).
  split; apply IZR_le; lia.
Qed.

(** *** Where a reached member is placed *)

(** X14. With distinct ids, every member reached from a root is placed on
    the line of its generation, [y = - generation * generationSpacing], at
    the depth [z = hashString(id) % 5 - 2], a whole number from -2 to 2. *)
Theorem reached_member_coordinates members config :
  NoDup (FamilyMember.id <$> members) →
  ∃ ms1 out,
    calculateLayout members config = Some (ms1, out)
    ∧ ∀ i p n, out !! i = Some p → reach members (FamilyMember.id p) n →
        y (FamilyMember.position p)
        = - INR (FamilyMember.generation p) * generationSpacing config
        ∧ z (FamilyMember.position p)
          = IZR (Z.rem (hashString (FamilyMember.id p)) 5 - 2)
        ∧ - 2 <= z (FamilyMember.position p) <= 2.
Proof.
  intros Hids.
  destruct (calculateLayout_levels members config Hids)
    as (s & out & gens & v & Hrun & Hinv & Hlvl & Hout).
  exists s, out. split; [done|]. intros i p n Hp Hreach.
  destruct (out_ref members config s out gens v Hinv Hout i p Hp) as [Hr Hg].
  set (r := refOf i p) in *.
  destruct (reach_visited members Hids v s gens Hinv Hlvl _ _ Hreach)
    as (r' & gg & Hr' & Hid & Hv & _).
  assert (r' = r) as -> by (by apply (memberRefs_id_inj members)).
  destruct (inv_complete _ _ Hinv r Hr Hv) as (gp & l & Hgl & Hrl).
  destruct (inv_sound _ _ Hinv gp r) as (_ & _ & Hgp); [by exists l|].
  cbn in Hgp. assert (gp = FamilyMember.generation p) as -> by congruence.
  pose proof (generation_list_NoDup gens _ l (inv_once _ _ Hinv) Hgl) as Hl.
  destruct (groupSiblings_spec l (refMap members) Hl) as (_ & _ & Hgrp).
  destruct (Hgrp r Hrl) as (G & HG & HrG & _).
  destruct (groupsWrites_elem config (refMap members)
              (- INR (FamilyMember.generation p) * generationSpacing config)
              (groupSiblings l (refMap members)) G 0 HG) as [startX Hw].
  apply list_elem_of_lookup in HrG as [a Ha].
  rewrite (out_position members config Hids s out gens v Hinv Hout r _ p Hr
             (layoutWrites_elem _ _ _ _ l _ Hgl (Hw a r Ha)) Hp).
  cbn. split; [done|]. split; [done|]. apply calculateZPosition_range.
Qed.

Lemma reached_member_coordinates_witness :
  ∃ ms1 out,
    calculateLayout Sample.household DEFAULT_CONFIG = Some (ms1, out)
    ∧ ∀ i p n, out !! i = Some p →
        reach Sample.household (FamilyMember.id p) n →
        y (FamilyMember.position p) = - INR (FamilyMember.generation p) * 4
        ∧ z (FamilyMember.position p)
          = IZR (Z.rem (hashString (FamilyMember.id p)) 5 - 2)
        ∧ - 2 <= z (FamilyMember.position p) <= 2.
Proof.
  apply (reached_member_coordinates Sample.household DEFAULT_CONFIG).
  apply (proj1 (bool_decide_eq_true
                  (NoDup (FamilyMember.id <$> Sample.household)))).
  vm_compute. reflexivity.
Defined.

(** *** The roots *)

Lemma genList_push gens g0 r g :
  genList (pushGeneration gens g0 r) g
  = if (g0 =? g)%nat then genList gens g ++ [r] else genList gens g.
Proof.
  induction gens as [|[g1 l1] gens IH]; cbn.
  - by destruct (g0 =? g)%nat.
  - destruct (Nat.eqb_spec g1 g0) as [->|Hne]; cbn.
    + by destruct (g0 =? g)%nat.
    + destruct (Nat.eqb_spec g1 g) as [->|Hne'].
      * by rewrite (proj2 (Nat.eqb_neq g0 g)) by done.
      * done.
Qed.

Lemma genList_elem gens g :
  genList gens g ≠ [] → (g, genList gens g) ∈ gens.
Proof.
  induction gens as [|[g1 l1] gens IH]; cbn; [done|].
  destruct (Nat.eqb_spec g1 g) as [->|Hne]; intros H; [by left|].
  right. by apply IH.
Qed.

Section Roots.
Context (members : list FamilyMember.t).
Context (Hids : NoDup (FamilyMember.id <$> members)).
Local Abbreviation mm := (refMap members).

Lemma rootRefs_NoDup : NoDup (ref_id <$> rootRefs members).
Proof.
  unfold rootRefs. apply (NoDup_fmap_2_strong ref_id).
  - intros a b Ha%elem_of_List_filter Hb%elem_of_List_filter.
    apply (memberRefs_id_inj members); tauto.
  - apply NoDup_ListNoDup, List.NoDup_filter, NoDup_ListNoDup.
    apply (NoDup_fmap_1 ref_id). by rewrite memberRefs_ids.
Qed.

Lemma RootsFirst_init :
  RootsFirst members (mkBfsState (rootQueue members) ∅ members []).
Proof.
  exists 0%nat, []. cbn. rewrite app_nil_r, drop_0, take_0.
  split; [done|]. split; [constructor|]. split; [done|].
  intros r _. apply not_elem_of_empty.
Qed.

Lemma RootsFirst_step item rest v s g :
  RootsFirst members (mkBfsState (item :: rest) v s g) →
  RootsFirst members (bfsBody mm item (mkBfsState rest v s g)).
Proof.
  intros (k & q' & Hq & Hq' & Hgen & Hnv). cbn in *.
  destruct item as [r0 g0]. unfold bfsBody. cbn.
  destruct (drop k (rootRefs members)) as [|r1 rs] eqn:Hdrop; cbn in Hq.
  - (* no root is left in the queue *)
    subst q'. apply Forall_cons in Hq' as [Hg0 Hrest]. cbn in Hg0.
    case_decide; cbn.
    + exists k, rest. rewrite Hdrop. cbn. split; [done|]. split; [done|].
      split; [done|]. by intros r ?%elem_of_nil.
    + exists k, (enqueueChildren mm (v ∪ {[ref_id r0]}) g0
                   (ref_childrenIds r0) rest).
      rewrite Hdrop. cbn. split; [done|]. split; [|split].
      * apply Forall_forall.
        intros it [Hin|(Hg & _)]%enqueueChildren_elem.
        -- rewrite Forall_forall in Hrest. by apply Hrest.
        -- rewrite Hg. lia.
      * rewrite genList_push. by rewrite (proj2 (Nat.eqb_neq g0 0)) by done.
      * by intros r ?%elem_of_nil.
  - (* the head of the queue is the next root *)
    injection Hq as -> -> ->.
    assert (Hk : rootRefs members !! k = Some r1).
    { rewrite <- (Nat.add_0_r k), <- lookup_drop, Hdrop. done. }
    assert (Hdrop' : drop (S k) (rootRefs members) = rs).
    { pose proof (drop_S _ _ _ Hk) as Hd. congruence. }
    rewrite decide_False by (apply Hnv; by left). cbn.
    exists (S k), (q' ++ enqueueChildren mm (v ∪ {[ref_id r1]}) 0
                     (ref_childrenIds r1) []).
    rewrite Hdrop'. cbn [queue visited generations].
    split; [|split; [|split]].
    + by rewrite enqueueChildren_app, <- app_assoc.
    + apply Forall_app. split; [done|]. apply Forall_forall.
      intros it [Hin|(Hg & _)]%enqueueChildren_elem;
        [by apply elem_of_nil in Hin|]. rewrite Hg. lia.
    + rewrite genList_push. cbn. rewrite Hgen.
      by rewrite (take_S_r _ _ r1).
    + intros r Hr [Hrv|Heq%elem_of_singleton]%elem_of_union.
      * apply (Hnv r); [by right|done].
      * pose proof rootRefs_NoDup as Hnd.
        rewrite <- (take_drop k (rootRefs members)), Hdrop, fmap_app in Hnd.
        apply NoDup_app in Hnd as (_ & _ & Hnd). cbn in Hnd.
        apply NoDup_cons in Hnd as [Hnin _]. apply Hnin.
        rewrite <- Heq. by apply list_elem_of_fmap_2.
Qed.

Lemma organizeByGenerations_roots s g :
  organizeByGenerations members mm = Some (s, g) →
  genList g 0 = rootRefs members.
Proof.
  unfold organizeByGenerations. fold (rootQueue members).
  destruct (bfsLoop _ _ _) as [st|] eqn:Hrun; [|done]. cbn.
  intros [= <- <-].
  apply (bfsLoop_inv (RootsFirst members) mm) in Hrun
    as [(k & q' & Hq & _ & Hgen & _) Hq0].
  - rewrite Hq0 in Hq. symmetry in Hq.
    apply app_eq_nil in Hq as [Hq _]. apply fmap_nil_inv in Hq.
    rewrite Hgen. rewrite <- (take_drop k (rootRefs members)) at 2.
    by rewrite Hq, app_nil_r.
  - intros. by apply RootsFirst_step.
  - apply RootsFirst_init.
Qed.

End Roots.

(** Members without parents form groups of one, in their order. *)
Lemma siblingFold_roots l mm todo : ∀ groups (processed : gset string),
  (∀ r, r ∈ todo → ref_parentIds r = []) →
  NoDup (ref_id <$> todo) →
  (∀ r, r ∈ todo → ref_id r ∉ processed) →
  (foldl (siblingStep l mm) (groups, processed) todo).1
  = groups ++ ((λ r, [r]) <$> todo).
Proof.
  induction todo as [|a todo IH]; intros groups processed Hroot Hnd Hnp.
  - cbn. by rewrite app_nil_r.
  - cbn [foldl]. unfold siblingStep at 2.
    rewrite decide_False by (apply Hnp; by left).
    unfold findSiblings. rewrite (Hroot a) by (by left). cbn [length Nat.eqb foldl].
    cbn in Hnd. apply NoDup_cons in Hnd as [Ha Hnd].
    rewrite IH.
    + by rewrite <- app_assoc.
    + intros r Hr. apply Hroot. by right.
    + done.
    + intros r Hr [Hin|Heq%elem_of_singleton]%elem_of_union.
      * apply (Hnp r); [by right|done].
      * apply Ha. rewrite <- Heq. by apply list_elem_of_fmap_2.
Qed.

Lemma groupsWrites_singletons config mm yy rs : ∀ cx k r,
  rs !! k = Some r →
  ∃ pos, (ref_id r, pos) ∈ groupsWrites config mm yy cx ((λ r, [r]) <$> rs)
         ∧ x pos = Nat.iter k (λ currentX, currentX + branchSpacing config) cx
         ∧ y pos = yy
         ∧ z pos = calculateZPosition r mm.
Proof.
  induction rs as [|r0 rs IH]; intros cx k r Hk; [done|].
  cbn [fmap list_fmap groupsWrites]. destruct k as [|k]; cbn in Hk.
  - injection Hk as ->. eexists. split.
    + apply elem_of_app. left. unfold groupWrites. cbn. left.
    + cbn. unfold groupWidth. cbn. split; [lra|done].
  - destruct (IH (cx + groupWidth config [r0] + branchSpacing config) k r Hk)
      as (pos & Hin & Hx & Hy & Hz).
    exists pos. split; [apply elem_of_app; by right|].
    split; [|done]. rewrite Hx, Nat.iter_succ_r. f_equal.
    unfold groupWidth. cbn [length INR]. lra.
Qed.

Lemma filter_imap_lookup {A B} (P : A → bool) (Q : B → bool) (l : list A) :
  ∀ (f : nat → A → B) i a,
  (∀ i a, Q (f i a) = P a) →
  l !! i = Some a → P a = true →
  List.filter Q (imap f l) !! length (List.filter P (take i l)) = Some (f i a).
Proof.
  induction l as [|b l IH]; intros f i a HPQ Hi Ha; [done|].
  cbn [imap List.filter]. rewrite HPQ. destruct i as [|i]; cbn in Hi.
  - injection Hi as ->. by rewrite Ha.
  - cbn [take List.filter]. destruct (P b); cbn [length lookup list_lookup].
    + apply (IH (f ∘ S)); [intros; apply HPQ|done|done].
    + apply (IH (f ∘ S)); [intros; apply HPQ|done|done].
Qed.

Lemma rootRefs_lookup members i m :
  members !! i = Some m → FamilyMember.parentIds m = [] →
  rootRefs members
    !! length (List.filter
                 (λ m, (length (FamilyMember.parentIds m) =? 0)%nat)
                 (take i members))
  = Some (refOf i m).
Proof.
  intros Hm Hp. unfold rootRefs, memberRefs.
  apply (filter_imap_lookup
           (λ m, (length (FamilyMember.parentIds m) =? 0)%nat)); [done|done|].
  by rewrite Hp.
Qed.

Lemma rootRefs_root members r :
  r ∈ rootRefs members → ref_parentIds r = [].
Proof.
  intros [_ Hr]%elem_of_List_filter. apply Nat.eqb_eq in Hr.
  by destruct (ref_parentIds r).
Qed.

(** X15. With distinct ids the members without parents are generation 0
    and stand in a row on the line [y = 0], in array order: the first is at
    [x = 0] and each next one is one [currentX += branchSpacing] further,
    so the one with [k] members without parents before it in the array is
    at the cursor after [k] such additions from 0. *)
Theorem roots_in_a_row members config :
  NoDup (FamilyMember.id <$> members) →
  ∃ ms1 out,
    calculateLayout members config = Some (ms1, out)
    ∧ ∀ i m, members !! i = Some m → FamilyMember.parentIds m = [] →
        ∃ p, out !! i = Some p
          ∧ FamilyMember.generation p = 0%nat
          ∧ x (FamilyMember.position p)
            = Nat.iter
                (length (List.filter
                   (λ m, (length (FamilyMember.parentIds m) =? 0)%nat)
                   (take i members)))
                (λ currentX, currentX + branchSpacing config) 0
          ∧ y (FamilyMember.position p) = 0.
Proof.
  intros Hids.
  destruct (calculateLayout_result members config Hids)
    as (s & out & gens & v & Hrun & Horg & Hinv & Hout).
  exists s, out. split; [done|]. intros i m Hm Hp.
  pose proof (rootRefs_lookup members i m Hm Hp) as Hk.
  set (k := length _) in *. set (r := refOf i m) in *.
  pose proof (organizeByGenerations_roots members Hids s gens Horg) as Hgen.
  assert (Hr : r ∈ memberRefs members).
  { apply elem_of_memberRefs. by exists m. }
  assert (Hgl : (0%nat, rootRefs members) ∈ gens).
  { rewrite <- Hgen. apply genList_elem. rewrite Hgen.
    intros Hnil. by rewrite Hnil in Hk. }
  assert (Hgroups : groupSiblings (rootRefs members) (refMap members)
                    = (λ r, [r]) <$> rootRefs members).
  { rewrite groupSiblings_fold.
    rewrite (siblingFold_roots _ _ (rootRefs members) [] ∅); [done| | |].
    - apply rootRefs_root.
    - by apply rootRefs_NoDup.
    - intros ? _. apply not_elem_of_empty. }
  destruct (groupsWrites_singletons config (refMap members)
              (- INR 0 * generationSpacing config) (rootRefs members) 0 k r Hk)
    as (pos & Hw & Hx & Hy & Hz).
  rewrite <- Hgroups in Hw.
  destruct (out_member _ _ _ _ _ _ Hinv Hout r Hr)
    as (ms & mo & Hms & Hmo & _ & _ & _ & _ & Hg).
  exists mo. split; [done|].
  destruct (inv_sound _ _ Hinv 0%nat r) as (_ & _ & Hg0).
  { exists (rootRefs members). split; [done|].
    by eapply list_elem_of_lookup_2. }
  cbn in Hg0. split; [congruence|].
  rewrite (out_position members config Hids s out gens v Hinv Hout r pos mo Hr
             (layoutWrites_elem _ _ _ _ _ _ Hgl Hw) Hmo).
  rewrite Hx, Hy. cbn [INR]. split; [done|lra].
Qed.

Lemma roots_in_a_row_witness :
  ∃ ms1 out,
    calculateLayout Sample.blended DEFAULT_CONFIG = Some (ms1, out)
    ∧ ∀ i m, Sample.blended !! i = Some m → FamilyMember.parentIds m = [] →
        ∃ p, out !! i = Some p
          ∧ FamilyMember.generation p = 0%nat
          ∧ x (FamilyMember.position p)
            = Nat.iter
                (length (List.filter
                   (λ m, (length (FamilyMember.parentIds m) =? 0)%nat)
                   (take i Sample.blended)))
                (λ currentX, currentX + 2) 0
          ∧ y (FamilyMember.position p) = 0.
Proof.
  apply (roots_in_a_row Sample.blended DEFAULT_CONFIG).
  apply (proj1 (bool_decide_eq_true
                  (NoDup (FamilyMember.id <$> Sample.blended)))).
  vm_compute. reflexivity.
Defined.

End LayoutMore.

(** ** The bounding box *)

Module BoxFacts.
Import TreeLayoutEngine LayoutSpec LayoutTerms LayoutFacts.
Local Open Scope R_scope.

Lemma Math_min_le xs : ∀ a,
  Math_min a xs <= a ∧ ∀ b, b ∈ xs → Math_min a xs <= b.
Proof.
  unfold Math_min. induction xs as [|c xs IH]; intros a; cbn.
  - split; [lra|]. by intros b ?%elem_of_nil.
  - destruct (IH (Rmin a c)) as [H1 H2].
    pose proof (Rmin_l a c). pose proof (Rmin_r a c).
    split; [lra|]. intros b [->|Hb]%elem_of_cons; [lra|by apply H2].
Qed.

Lemma Math_max_ge xs : ∀ a,
  a <= Math_max a xs ∧ ∀ b, b ∈ xs → b <= Math_max a xs.
Proof.
  unfold Math_max. induction xs as [|c xs IH]; intros a; cbn.
  - split; [lra|]. by intros b ?%elem_of_nil.
  - destruct (IH (Rmax a c)) as [H1 H2].
    pose proof (Rmax_l a c). pose proof (Rmax_r a c).
    split; [lra|]. intros b [->|Hb]%elem_of_cons; [lra|by apply H2].
Qed.

Lemma Math_min_elem xs : ∀ a, Math_min a xs ∈ a :: xs.
Proof.
  unfold Math_min. induction xs as [|c xs IH]; intros a; cbn; [by left|].
  specialize (IH (Rmin a c)). apply elem_of_cons in IH as [->|IH].
  - unfold Rmin. destruct (Rle_dec a c); [by left|right; by left].
  - right. by right.
Qed.

Lemma Math_max_elem xs : ∀ a, Math_max a xs ∈ a :: xs.
Proof.
  unfold Math_max. induction xs as [|c xs IH]; intros a; cbn; [by left|].
  specialize (IH (Rmax a c)). apply elem_of_cons in IH as [->|IH].
  - unfold Rmax. destruct (Rle_dec a c); [right; by left|by left].
  - right. by right.
Qed.

Lemma coordinate_elem (f : Position3D → R) (members : list FamilyMember.t) v :
  v ∈ f <$> (FamilyMember.position <$> members) →
  ∃ m, m ∈ members ∧ f (FamilyMember.position m) = v.
Proof.
  intros (p & -> & (m & -> & Hm)%list_elem_of_fmap)%list_elem_of_fmap.
  by exists m.
Qed.

(** X16. The bounding box of a non-empty array is the smallest box that
    holds every member: each position lies between [min] and [max] in all
    three coordinates, each of the six bounds is the coordinate of some
    member, and [center] is the midpoint of [min] and [max]. *)
Theorem bounding_box_tight members m :
  m ∈ members →
  let box := calculateBoundingBox members in
  let lo := BoundingBox.min box in
  let hi := BoundingBox.max box in
  let pos := FamilyMember.position m in
  (x lo <= x pos <= x hi ∧ y lo <= y pos <= y hi ∧ z lo <= z pos <= z hi)
  ∧ (∀ f, f = x ∨ f = y ∨ f = z →
       (∃ a, a ∈ members ∧ f (FamilyMember.position a) = f lo)
       ∧ (∃ b, b ∈ members ∧ f (FamilyMember.position b) = f hi)
       ∧ f (BoundingBox.center box) = (f lo + f hi) / 2).
Proof.
  intros Hm box lo hi pos. subst box lo hi pos.
  unfold calculateBoundingBox.
  destruct (FamilyMember.position <$> members) as [|p ps] eqn:Hps.
  { apply fmap_nil_inv in Hps. subst. by apply elem_of_nil in Hm. }
  cbn [BoundingBox.min BoundingBox.max BoundingBox.center x y z].
  assert (Hin : ∀ f : Position3D → R,
            f (FamilyMember.position m) ∈ f p :: (f <$> ps)).
  { intros f. change (f p :: (f <$> ps)) with (f <$> (p :: ps)).
    rewrite <- Hps. by do 2 apply list_elem_of_fmap_2. }
  assert (Hbound : ∀ f : Position3D → R,
            Math_min (f p) (f <$> ps) <= f (FamilyMember.position m)
            <= Math_max (f p) (f <$> ps)).
  { intros f. destruct (Math_min_le (f <$> ps) (f p)) as [H1 H2].
    destruct (Math_max_ge (f <$> ps) (f p)) as [H3 H4].
    specialize (Hin f). apply elem_of_cons in Hin as [->|Hin]; [lra|].
    specialize (H2 _ Hin). specialize (H4 _ Hin). lra. }
  assert (Hatt : ∀ f : Position3D → R,
            (∃ a, a ∈ members
                  ∧ f (FamilyMember.position a) = Math_min (f p) (f <$> ps))
            ∧ (∃ b, b ∈ members
                    ∧ f (FamilyMember.position b) = Math_max (f p) (f <$> ps))).
  { intros f. split; apply (coordinate_elem f); rewrite Hps.
    - apply Math_min_elem.
    - apply Math_max_elem. }
  split; [by repeat split; apply Hbound|].
  intros f [-> | [-> | ->]]; cbn; (split; [apply Hatt|split; [apply Hatt|done]]).
Qed.

Lemma bounding_box_tight_witness :
  let box := calculateBoundingBox Sample.family in
  x (BoundingBox.min box) <= x (FamilyMember.position Sample.son)
  <= x (BoundingBox.max box).
Proof.
  refine (proj1 (proj1 (bounding_box_tight Sample.family Sample.son _))).
  unfold Sample.family. set_solver.
Defined.

End BoxFacts.

(** ** [optimizeLayout] on a pedigree without cycles *)

Module OptFacts.
Import TreeLayoutEngine LayoutSpec LayoutTerms LayoutFacts.
Local Open Scope R_scope.

#[local] Arguments memberRefs : simpl never.
#[local] Arguments refMap : simpl never.

(** *** Counting descendants in a pedigree without cycles *)

Lemma countFold_total fuel mm (cs : list string) : ∀ n,
  (∀ c rc, c ∈ cs → mm !! c = Some rc →
     is_Some (countDescendants fuel rc mm)) →
  is_Some
    (foldl (λ count childId,
              count ← count;
              match mm !! childId with
              | Some child =>
                  n ← countDescendants fuel child mm; Some (count + n)%nat
              | None => Some count
              end) (Some n) cs).
Proof.
  induction cs as [|c cs IH]; intros n Hcs; [by eexists|]. cbn.
  destruct (mm !! c) as [rc|] eqn:Hc.
  - destruct (Hcs c rc) as [k Hk]; [by left|done|]. rewrite Hk. cbn.
    apply IH. intros c' rc' Hc'. apply Hcs. by right.
  - apply IH. intros c' rc' Hc'. apply Hcs. by right.
Qed.

Section Acyclic.
Context (members : list FamilyMember.t) (depth : string → nat).
Context (Hwf : wellFormed members depth).
Local Abbreviation refs := (memberRefs members).
Local Abbreviation mm := (refMap members).
Local Abbreviation top := (max_list (depth ∘ FamilyMember.id <$> members)).

Lemma depth_le_top r : r ∈ refs → (depth (ref_id r) ≤ top)%nat.
Proof.
  intros Hr. destruct (refs_member members r Hr) as (m & Hm & _ & -> & _).
  apply max_list_elem_of_le.
  by apply (list_elem_of_fmap_2 (depth ∘ FamilyMember.id)).
Qed.

Lemma child_deeper r c rc :
  r ∈ refs → c ∈ ref_childrenIds r → mm !! c = Some rc →
  rc ∈ refs ∧ (depth (ref_id r) < depth (ref_id rc))%nat.
Proof.
  intros Hr Hc Hmm. apply refMap_lookup_Some in Hmm as [Hrc Hid].
  split; [done|].
  destruct (refs_member members r Hr) as (m & Hm & _ & Hidm & _ & Hch).
  destruct (refs_member members rc Hrc) as (mc & Hmc & _ & Hidc & Hpc & _).
  rewrite Hidm, Hidc. apply (wf_acyclic _ _ Hwf); [done|].
  apply (wf_symmetric _ _ Hwf); [done..|].
  by rewrite <- Hidc, Hid, <- Hch.
Qed.

Lemma countDescendants_total fuel : ∀ r,
  r ∈ refs → (top - depth (ref_id r) < fuel)%nat →
  is_Some (countDescendants fuel r mm).
Proof.
  induction fuel as [|fuel IH]; intros r Hr Hfuel; [lia|]. cbn.
  apply countFold_total. intros c rc Hc Hmm.
  destruct (child_deeper r c rc Hr Hc Hmm) as [Hrc Hlt].
  apply IH; [done|]. pose proof (depth_le_top rc Hrc). lia.
Qed.

(** With one more level of fuel the count is defined for any reference,
    a member of the array or not: the children that resolve are members. *)
Lemma countDescendants_any fuel r :
  (S top < fuel)%nat → is_Some (countDescendants fuel r mm).
Proof.
  destruct fuel as [|fuel]; [lia|]. intros Hfuel. cbn.
  apply countFold_total. intros c rc _ Hmm.
  apply refMap_lookup_Some in Hmm as [Hrc _].
  apply countDescendants_total; [done|]. lia.
Qed.

End Acyclic.

Lemma insertBy_total {A} (cmp : A → A → option Z) a l :
  (∀ a b, is_Some (cmp a b)) → is_Some (insertBy cmp a l).
Proof.
  intros Hcmp. induction l as [|b l IH]; cbn; [by eexists|].
  destruct (Hcmp a b) as [c ->]. cbn.
  destruct (c <=? 0)%Z; [by eexists|].
  destruct IH as [l' ->]. by eexists.
Qed.

Lemma sortBy_total {A} (cmp : A → A → option Z) l :
  (∀ a b, is_Some (cmp a b)) → is_Some (sortBy cmp l).
Proof.
  intros Hcmp. induction l as [|a l IH]; cbn; [by eexists|].
  destruct IH as [l' ->]. cbn. by apply insertBy_total.
Qed.

(** X17. On a well-formed pedigree (no cycle) [optimizeLayout] returns,
    and what it returns are the members in their input order, unchanged:
    the arrays it sorts are local and do not reach the result. *)
Theorem optimizeLayout_acyclic members depth :
  wellFormed members depth →
  ∃ fuel0, ∀ fuel, (fuel0 ≤ fuel)%nat →
    optimizeLayout fuel members = Some members.
Proof.
  intros Hwf.
  exists (S (S (max_list (depth ∘ FamilyMember.id <$> members)))).
  intros fuel Hfuel. unfold optimizeLayout.
  match goal with |- (mapM ?f ?l ≫= _) = _ =>
    destruct (proj2 (mapM_is_Some f l)) as [x Hx] end.
  - apply Forall_forall. intros [gg l] _. cbn.
    apply sortBy_total. intros a b.
    destruct (countDescendants_any members depth Hwf fuel a) as [na ->]; [lia|].
    destruct (countDescendants_any members depth Hwf fuel b) as [nb ->]; [lia|].
    by eexists.
  - by rewrite Hx.
Qed.

Lemma optimizeLayout_acyclic_witness :
  ∃ fuel0, ∀ fuel, (fuel0 ≤ fuel)%nat →
    optimizeLayout fuel Sample.household = Some Sample.household.
Proof.
  apply (optimizeLayout_acyclic Sample.household Sample.household_depth).
  apply wellFormedb_true. vm_compute. reflexivity.
Defined.

End OptFacts.

(** ** Properties of the catalog *)

Module CatalogFacts.
Import GeneticSimulator RiskSpec RiskFacts Diseases.
Local Open Scope R_scope.

Lemma catalog_ids_NoDup : NoDup (Disease.id <$> PREDEFINED_DISEASES).
Proof.
  apply (proj1 (bool_decide_eq_true
                  (NoDup (Disease.id <$> PREDEFINED_DISEASES)))).
  vm_compute. reflexivity.
Qed.

Lemma catalog_rates d :
  d ∈ PREDEFINED_DISEASES →
  0 < Disease.prevalence d < 1 ∧ 0 < Disease.penetrance d <= 1.
Proof.
  unfold PREDEFINED_DISEASES. intros Hd.
  repeat (apply elem_of_cons in Hd as [->|Hd]; [cbn; lra|]).
  by apply elem_of_nil in Hd.
Qed.

(** X18. The entries of the predefined catalog have distinct ids, so each
    is the one [getDiseaseById] finds under its id, and an id that no
    entry has gives [undefined]; every prevalence lies strictly between 0
    and 1 and every penetrance in (0, 1]. *)
Theorem catalog_lookup d id :
  d ∈ PREDEFINED_DISEASES →
  getDiseaseById (Disease.id d) = Some d
  ∧ (0 < Disease.prevalence d < 1 ∧ 0 < Disease.penetrance d <= 1)
  ∧ (id ∉ Disease.id <$> PREDEFINED_DISEASES → getDiseaseById id = None).
Proof.
  intros Hd. split; [|split; [by apply catalog_rates|]].
  - revert Hd. unfold PREDEFINED_DISEASES. intros Hd.
    repeat (apply elem_of_cons in Hd as [->|Hd]; [reflexivity|]).
    by apply elem_of_nil in Hd.
  - intros Hid. unfold getDiseaseById.
    destruct (List.find _ _) as [d'|] eqn:Hfind; [|done].
    apply find_some in Hfind as [Hin Heq]. apply String.eqb_eq in Heq.
    exfalso. apply Hid. rewrite <- Heq. apply list_elem_of_fmap_2.
    by apply list_elem_of_In.
Qed.

Lemma catalog_lookup_witness :
  getDiseaseById "marfan"
  = Some (Disease.mk "marfan" "Marfan Syndrome" dominant 0.0002 0.9
      "A connective tissue disorder that affects the heart, blood vessels, bones, and eyes."
      "#0d9488").
Proof.
  refine (proj1 (catalog_lookup
    (Disease.mk "marfan" "Marfan Syndrome" dominant 0.0002 0.9
      "A connective tissue disorder that affects the heart, blood vessels, bones, and eyes."
      "#0d9488") "unknown" _)).
  unfold PREDEFINED_DISEASES. do 10 apply list_elem_of_further.
  apply list_elem_of_here.
Defined.

(** X19. Every id listed in [DISEASE_CATEGORIES] is the id of a catalog
    entry, so [getDiseasesByCategory] returns one disease per listed id, in
    the listed order; and every catalog entry is in exactly one category. *)
Theorem categories_partition_catalog :
  (∀ category,
     Disease.id <$> getDiseasesByCategory category
     = DISEASE_CATEGORIES category)
  ∧ categories ≫= DISEASE_CATEGORIES ≡ₚ Disease.id <$> PREDEFINED_DISEASES.
Proof.
  split.
  - intros []; reflexivity.
  - apply NoDup_Permutation.
    + apply (proj1 (bool_decide_eq_true
                      (NoDup (categories ≫= DISEASE_CATEGORIES)))).
      vm_compute. reflexivity.
    + apply catalog_ids_NoDup.
    + intros k. split; intros Hk.
      * cbn in Hk.
        repeat (apply elem_of_cons in Hk as [->|Hk];
                [apply (proj1 (bool_decide_eq_true _)); vm_compute; reflexivity|]).
        by apply elem_of_nil in Hk.
      * cbn in Hk.
        repeat (apply elem_of_cons in Hk as [->|Hk];
                [apply (proj1 (bool_decide_eq_true _)); vm_compute; reflexivity|]).
        by apply elem_of_nil in Hk.
Qed.

(** X20. With the predefined catalog, as the application calls the risk
    engine, every member ends with a score in [0,1] under the id of each of
    the twelve diseases. *)
Theorem predefined_scores_are_probabilities ms i j m d :
  ms !! i = Some m → PREDEFINED_DISEASES !! j = Some d →
  ∃ m' v,
    (calculateFamilyRisks ms PREDEFINED_DISEASES).2 !! i = Some m'
    ∧ FamilyMember.riskScores m' !! Disease.id d = Some v
    ∧ 0 <= v <= 1.
Proof.
  intros Hm Hd.
  destruct (riskScores_lookup ms PREDEFINED_DISEASES i j m d Hm Hd
              catalog_ids_NoDup) as (m' & Hm' & Hv).
  exists m', (riskScore (riskOf ms d m)). split; [done|]. split; [done|].
  destruct (catalog_rates d) as [Hprev Hpen].
  { by eapply list_elem_of_lookup_2. }
  apply riskScore_bounds; lra.
Qed.

Lemma predefined_scores_are_probabilities_witness :
  ∃ m' v,
    (calculateFamilyRisks Sample.family PREDEFINED_DISEASES).2 !! 2%nat
    = Some m'
    ∧ FamilyMember.riskScores m' !! "marfan" = Some v
    ∧ 0 <= v <= 1.
Proof.
  apply (predefined_scores_are_probabilities Sample.family 2 10 Sample.son
           (Disease.mk "marfan" "Marfan Syndrome" dominant 0.0002 0.9
      "A connective tissue disorder that affects the heart, blood vessels, bones, and eyes."
      "#0d9488")); reflexivity.
Defined.

End CatalogFacts.

(** ** Properties of the member form *)

Module FormFacts.
Import GeneticSimulator Diseases FamilyMemberForm RiskFacts CatalogFacts.

Lemma includes_spec id ids : includes id ids = true ↔ id ∈ ids.
Proof.
  unfold includes. rewrite existsb_exists. split.
  - intros (k & Hk & ->%String.eqb_eq). by apply list_elem_of_In.
  - intros Hid. exists id. split; [by apply list_elem_of_In|].
    apply String.eqb_refl.
Qed.

Lemma includes_false id ids : includes id ids = false ↔ id ∉ ids.
Proof.
  rewrite <- includes_spec. by destruct (includes id ids).
Qed.

Lemma filter_ne_notin (id : string) ids :
  id ∉ ids → List.filter (λ k, negb (String.eqb k id)) ids = ids.
Proof.
  induction ids as [|k ids IH]; intros Hid; [done|]. cbn.
  apply not_elem_of_cons in Hid as [Hne Hid].
  rewrite (proj2 (String.eqb_neq k id)) by done. cbn. by rewrite IH.
Qed.

Lemma elem_of_filter_ne (id k : string) ids :
  k ∈ List.filter (λ k, negb (String.eqb k id)) ids ↔ k ∈ ids ∧ k ≠ id.
Proof.
  rewrite !list_elem_of_In, filter_In, negb_true_iff, String.eqb_neq. done.
Qed.

(** X21. A click in the parent selector keeps the parents distinct and at
    most two: a click on a selected parent removes it; a click on another
    member adds it at the end when fewer than two are selected, and a
    second click then takes it away again; with two selected the click
    changes nothing. *)
Theorem parent_toggle_two_distinct parentId parentIds :
  NoDup parentIds → (length parentIds ≤ 2)%nat →
  let ids := handleParentToggle parentId parentIds in
  NoDup ids ∧ (length ids ≤ 2)%nat
  ∧ (parentId ∈ parentIds →
     (parentId ∉ ids) ∧ ∀ k, k ≠ parentId → k ∈ ids ↔ k ∈ parentIds)
  ∧ (parentId ∉ parentIds → (length parentIds < 2)%nat →
     ids = parentIds ++ [parentId]
     ∧ handleParentToggle parentId ids = parentIds)
  ∧ (parentId ∉ parentIds → length parentIds = 2%nat → ids = parentIds).
Proof.
  intros Hnd Hlen ids. subst ids. unfold handleParentToggle.
  destruct (includes parentId parentIds) eqn:Hinc.
  - apply includes_spec in Hinc.
    split; [by apply NoDup_ListNoDup, List.NoDup_filter, NoDup_ListNoDup|].
    split. { etrans; [apply List.filter_length_le|done]. }
    split; [|split; intros Hn; done].
    intros _. split.
    + rewrite elem_of_filter_ne. naive_solver.
    + intros k Hk. rewrite elem_of_filter_ne. naive_solver.
  - apply includes_false in Hinc.
    assert (Hnd' : NoDup (parentIds ++ [parentId])).
    { apply NoDup_app. split; [done|]. split; [|apply NoDup_singleton].
      intros k Hk ->%list_elem_of_singleton. done. }
    split. { apply (sublist_NoDup _ _ Hnd'), sublist_take. }
    split. { rewrite length_take. lia. }
    split; [done|]. split.
    + intros _ Hlt. rewrite take_ge by (rewrite length_app; cbn; lia).
      split; [done|].
      rewrite (proj2 (includes_spec parentId (parentIds ++ [parentId])))
        by (apply elem_of_app; right; by left).
      rewrite List.filter_app. cbn. rewrite String.eqb_refl. cbn.
      by rewrite filter_ne_notin, app_nil_r.
    + intros _ Heq. rewrite <- Heq. by rewrite take_app_length.
Qed.

Lemma parent_toggle_two_distinct_witness :
  NoDup (handleParentToggle "pa" ["ma"])
  ∧ (length (handleParentToggle "pa" ["ma"]) ≤ 2)%nat.
Proof.
  destruct (parent_toggle_two_distinct "pa" ["ma"]) as (H1 & H2 & _).
  - apply NoDup_singleton.
  - cbn. lia.
  - by split.
Defined.

(** X22. A click in the disease selector keeps the selected ids distinct:
    a click on a selected disease removes it and leaves the others, a
    click on another disease appends it, and a second click on it restores
    the selection. *)
Theorem disease_toggle_distinct diseaseId diseaseIds :
  NoDup diseaseIds →
  let ids := handleDiseaseToggle diseaseId diseaseIds in
  NoDup ids
  ∧ (diseaseId ∈ ids ↔ diseaseId ∉ diseaseIds)
  ∧ (∀ k, k ≠ diseaseId → k ∈ ids ↔ k ∈ diseaseIds)
  ∧ (diseaseId ∉ diseaseIds →
     ids = diseaseIds ++ [diseaseId]
     ∧ handleDiseaseToggle diseaseId ids = diseaseIds).
Proof.
  intros Hnd ids. subst ids. unfold handleDiseaseToggle.
  destruct (includes diseaseId diseaseIds) eqn:Hinc.
  - apply includes_spec in Hinc.
    split; [by apply NoDup_ListNoDup, List.NoDup_filter, NoDup_ListNoDup|].
    split; [rewrite elem_of_filter_ne; naive_solver|].
    split; [|done]. intros k Hk. rewrite elem_of_filter_ne. naive_solver.
  - apply includes_false in Hinc.
    split.
    { apply NoDup_app. split; [done|]. split; [|apply NoDup_singleton].
      intros k Hk ->%list_elem_of_singleton. done. }
    split; [rewrite elem_of_app, list_elem_of_singleton; naive_solver|].
    split; [intros k Hk; rewrite elem_of_app, list_elem_of_singleton;
            naive_solver|].
    intros _. split; [done|].
    rewrite (proj2 (includes_spec diseaseId (diseaseIds ++ [diseaseId])))
      by (apply elem_of_app; right; by left).
    rewrite List.filter_app. cbn. rewrite String.eqb_refl. cbn.
    by rewrite filter_ne_notin, app_nil_r.
Qed.

Lemma disease_toggle_distinct_witness :
  NoDup (handleDiseaseToggle "marfan" ["tay-sachs"]).
Proof.
  refine (proj1 (disease_toggle_distinct "marfan" ["tay-sachs"] _)).
  apply NoDup_singleton.
Defined.

(** X23. The member the form saves is diagnosed, in the sense of the risk
    engine, with exactly the catalog diseases whose ids are selected; the
    diseases are stored in catalog order, each once. *)
Theorem saved_diagnoses diseaseIds d m :
  d ∈ PREDEFINED_DISEASES →
  FamilyMember.diseases m = selectedDiseases diseaseIds →
  (isAffected d m = true ↔ Disease.id d ∈ diseaseIds)
  ∧ NoDup (Disease.id <$> FamilyMember.diseases m)
  ∧ FamilyMember.diseases m ⊆ PREDEFINED_DISEASES.
Proof.
  intros Hd Hm. rewrite Hm. unfold selectedDiseases. split; [|split].
  - rewrite isAffected_true, Hm. unfold selectedDiseases.
    rewrite list_elem_of_fmap. split.
    + intros (d' & Hid & Hd'). apply LayoutFacts.elem_of_List_filter in Hd' as [_ Hinc].
      apply includes_spec in Hinc. congruence.
    + intros Hid. exists d. split; [done|].
      apply LayoutFacts.elem_of_List_filter. split; [done|]. by apply includes_spec.
  - apply (NoDup_fmap_2_strong Disease.id).
    + intros a b [Ha _]%LayoutFacts.elem_of_List_filter [Hb _]%LayoutFacts.elem_of_List_filter.
      by apply (NoDup_fmap_eq Disease.id PREDEFINED_DISEASES a b
                  catalog_ids_NoDup).
    + apply NoDup_ListNoDup, List.NoDup_filter, NoDup_ListNoDup.
      apply (NoDup_fmap_1 Disease.id), catalog_ids_NoDup.
  - intros a [Ha _]%LayoutFacts.elem_of_List_filter. done.
Qed.

Lemma saved_diagnoses_witness :
  isAffected Sample.marfan
    (FamilyMember.mk "new" "New" 0 male [] [] (selectedDiseases ["marfan"])
       ∅ (mkPosition3D 0 0 0) 0) = true
  ↔ "marfan" ∈ ["marfan"].
Proof.
  refine (proj1 (saved_diagnoses ["marfan"]
    (Disease.mk "marfan" "Marfan Syndrome" dominant 0.0002 0.9
      "A connective tissue disorder that affects the heart, blood vessels, bones, and eyes."
      "#0d9488")
    (FamilyMember.mk "new" "New" 0 male [] [] (selectedDiseases ["marfan"])
       ∅ (mkPosition3D 0 0 0) 0) _ _)).
  - unfold PREDEFINED_DISEASES. do 10 apply list_elem_of_further.
    apply list_elem_of_here.
  - reflexivity.
Defined.

End FormFacts.

(** ** Properties of the risk panel *)

Module PanelFacts.
Import GeneticSimulator RiskSpec RiskTerms RiskFacts RiskMore.
Import RiskAnalysisPanel PanelTerms.
Local Open Scope R_scope.

Lemma filter_member_fmap {A} (f : A → GeneticRisk) (ms : list A) k :
  List.filter (λ risk, String.eqb (memberId risk) k) (f <$> ms)
  = f <$> List.filter (λ m, String.eqb (memberId (f m)) k) ms.
Proof.
  induction ms as [|m ms IH]; [done|]. cbn.
  destruct (String.eqb _ k); cbn; by rewrite IH.
Qed.

Lemma filter_id_unique (ms : list FamilyMember.t) m :
  NoDup (FamilyMember.id <$> ms) → m ∈ ms →
  List.filter (λ m', String.eqb (FamilyMember.id m') (FamilyMember.id m)) ms
  = [m].
Proof.
  induction ms as [|a ms IH]; intros Hnd Hm; [by apply elem_of_nil in Hm|].
  cbn in Hnd. apply NoDup_cons in Hnd as [Ha Hnd]. cbn.
  assert (Hnone : ∀ l : list FamilyMember.t,
            FamilyMember.id m ∉ FamilyMember.id <$> l →
            List.filter (λ m', String.eqb (FamilyMember.id m')
                                          (FamilyMember.id m)) l = []).
  { clear. induction l as [|b l IH]; intros Hn; [done|]. cbn in *.
    apply not_elem_of_cons in Hn as [Hne Hn].
    rewrite (proj2 (String.eqb_neq _ _)) by done. by apply IH. }
  apply elem_of_cons in Hm as [->|Hm].
  - rewrite String.eqb_refl. f_equal. by apply Hnone.
  - rewrite (proj2 (String.eqb_neq _ _)); [by apply IH|].
    intros Heq. apply Ha. rewrite Heq. by apply list_elem_of_fmap_2.
Qed.

Lemma risks_of_member ms ds m :
  NoDup (FamilyMember.id <$> ms) → m ∈ ms →
  List.filter (λ risk, String.eqb (memberId risk) (FamilyMember.id m))
              (ds ≫= λ d, riskOf ms d <$> ms)
  = (λ d, riskOf ms d m) <$> ds.
Proof.
  intros Hnd Hm. induction ds as [|d ds IH]; [done|]. cbn.
  rewrite List.filter_app, IH. cbn. f_equal.
  rewrite filter_member_fmap.
  rewrite (List.filter_ext _
             (λ m', String.eqb (FamilyMember.id m') (FamilyMember.id m))).
  - by rewrite filter_id_unique.
  - intros m'. by rewrite (proj1 (riskOf_ids ms d m')).
Qed.

(** X24. With distinct ids the panel shows, for a selected member of the
    family, one record per catalog disease, in catalog order; with no
    member selected it shows none. *)
Theorem selected_member_risks ms ds m sel :
  NoDup (FamilyMember.id <$> ms) → m ∈ ms →
  FamilyMember.id sel = FamilyMember.id m →
  selectedMemberRisks (riskAnalysis ms ds).1 (Some sel)
  = (λ d, calculateMemberDiseaseRisk ms m d (slotMap ms)) <$> ds
  ∧ selectedMemberRisks (riskAnalysis ms ds).1 None = [].
Proof.
  intros Hnd Hm Hsel. split; [|done]. unfold selectedMemberRisks, riskAnalysis.
  destruct ms as [|m0 ms0]; [by apply elem_of_nil in Hm|].
  cbn [length Nat.eqb]. rewrite calculateFamilyRisks_spec. cbn [fst].
  rewrite Hsel. by apply risks_of_member.
Qed.

Lemma selected_member_risks_witness :
  selectedMemberRisks (riskAnalysis Sample.family Sample.catalog).1
    (Some Sample.son)
  = (λ d, calculateMemberDiseaseRisk Sample.family Sample.son d
            (slotMap Sample.family)) <$> Sample.catalog.
Proof.
  refine (proj1 (selected_member_risks Sample.family Sample.catalog
                   Sample.son Sample.son _ _ _)).
  - apply (proj1 (bool_decide_eq_true
                    (NoDup (FamilyMember.id <$> Sample.family)))).
    vm_compute. reflexivity.
  - unfold Sample.family. set_solver.
  - reflexivity.
Defined.

(** *** The table of members at risk *)

Lemma scoresOf_snoc k rs r :
  scoresOf k (rs ++ [r])
  = scoresOf k rs ++ (if String.eqb (memberId r) k then [riskScore r] else []).
Proof.
  unfold scoresOf. rewrite List.filter_app, fmap_app. cbn.
  by destruct (String.eqb _ k).
Qed.

Lemma findMember_id F k m : findMember F k = Some m → FamilyMember.id m = k.
Proof.
  intros [_ H]%find_some. by apply String.eqb_eq in H.
Qed.

Lemma MapInv_init F : MapInv F [] ([], ∅).
Proof.
  split; [apply NoDup_nil_2|]. split.
  - intros k. cbn. rewrite lookup_empty. split; [by intros ?%elem_of_nil|].
    by intros [? ?].
  - intros k. cbn. by rewrite lookup_empty.
Qed.

Lemma MapInv_step F rs st r :
  MapInv F rs st → MapInv F (rs ++ [r]) (riskMapStep F st r).
Proof.
  destruct st as [keys table]. intros (Hnd & Hkeys & Htab).
  cbn [fst snd] in *.
  unfold riskMapStep. fold (findMember F (memberId r)).
  destruct (findMember F (memberId r)) as [m|] eqn:Hfind.
  2:{ split; [done|]. split; [done|]. intros k. cbn [fst snd].
      rewrite scoresOf_snoc, Htab.
      destruct (String.eqb_spec (memberId r) k) as [<-|Hne];
        [|by rewrite app_nil_r].
      rewrite Hfind. by destruct (scoresOf (memberId r) rs). }
  pose proof (findMember_id F _ m Hfind) as Hid. rewrite Hid.
  pose proof (Htab (memberId r)) as Hcur. rewrite Hfind in Hcur.
  assert (Hother : ∀ k, k ≠ memberId r →
            scoresOf k (rs ++ [r]) = scoresOf k rs).
  { intros k Hne. rewrite scoresOf_snoc.
    rewrite (proj2 (String.eqb_neq _ _)) by done. by rewrite app_nil_r. }
  destruct (table !! memberId r) as [e|] eqn:Hlk.
  - (* the member has an entry *)
    destruct (scoresOf (memberId r) rs) as [|s0 rest] eqn:Hsc; [done|].
    injection Hcur as ->. unfold MapInv. cbn [fst snd member maxRisk riskCount].
    split; [done|]. split.
    + intros k. rewrite Hkeys.
      destruct (decide (k = memberId r)) as [->|Hne].
      * rewrite lookup_insert_eq, Hlk. split; by eauto.
      * by rewrite lookup_insert_ne.
    + intros k. destruct (decide (k = memberId r)) as [->|Hne].
      * rewrite lookup_insert_eq, scoresOf_snoc, Hsc, String.eqb_refl, Hfind.
        cbn [app]. f_equal. f_equal.
        -- by rewrite foldl_app.
        -- change (s0 :: rest ++ [riskScore r])
             with ((s0 :: rest) ++ [riskScore r]).
           rewrite List.filter_app, length_app. cbn [List.filter].
           destruct (above 0.3 (riskScore r)); cbn [length]; lia.
      * rewrite lookup_insert_ne by done. rewrite Hother by done. apply Htab.
  - (* the first record of the member *)
    assert (Hsc : scoresOf (memberId r) rs = []).
    { destruct (scoresOf (memberId r) rs); [done|discriminate]. }
    unfold MapInv. cbn [fst snd]. split; [|split].
    + apply NoDup_app. split; [done|]. split; [|apply NoDup_singleton].
      intros k Hk ->%list_elem_of_singleton.
      apply Hkeys in Hk as [? Hk]. congruence.
    + intros k. rewrite elem_of_app, list_elem_of_singleton, Hkeys.
      destruct (decide (k = memberId r)) as [->|Hne].
      * rewrite lookup_insert_eq. split; by eauto.
      * rewrite lookup_insert_ne by done. naive_solver.
    + intros k. destruct (decide (k = memberId r)) as [->|Hne].
      * rewrite lookup_insert_eq, scoresOf_snoc, Hsc, String.eqb_refl, Hfind.
        cbn. by destruct (above 0.3 (riskScore r)).
      * rewrite lookup_insert_ne by done. rewrite Hother by done. apply Htab.
Qed.

Lemma MapInv_fold F rs :
  MapInv F rs (foldl (riskMapStep F) ([], ∅) rs).
Proof.
  induction rs as [|r rs IH] using rev_ind; [apply MapInv_init|].
  rewrite foldl_app. cbn. by apply MapInv_step.
Qed.

(** *** The sort *)

Lemma insertWith_perm {A} (cmp : A → A → R) a l :
  insertWith cmp a l ≡ₚ a :: l.
Proof.
  induction l as [|b l IH]; cbn; [done|].
  destruct (Rle_dec _ _); [done|]. rewrite IH. apply Permutation_swap.
Qed.

Lemma sortWith_perm {A} (cmp : A → A → R) l : sortWith cmp l ≡ₚ l.
Proof.
  induction l as [|a l IH]; cbn; [done|].
  by rewrite insertWith_perm, IH.
Qed.

Lemma insertWith_sorted a l :
  StronglySorted (λ a b, maxRisk b <= maxRisk a) l →
  StronglySorted (λ a b, maxRisk b <= maxRisk a)
                 (insertWith (λ a b, maxRisk b - maxRisk a) a l).
Proof.
  induction 1 as [|b l Hl IH Hb]; cbn.
  - repeat constructor.
  - destruct (Rle_dec _ _) as [Hle|Hgt].
    + constructor; [by constructor|]. constructor; [lra|].
      eapply Forall_impl; [done|]. cbn. intros c Hc. lra.
    + constructor; [done|]. rewrite insertWith_perm.
      constructor; [lra|done].
Qed.

Lemma sortWith_sorted l :
  StronglySorted (λ a b, maxRisk b <= maxRisk a)
                 (sortWith (λ a b, maxRisk b - maxRisk a) l).
Proof.
  induction l as [|a l IH]; cbn; [constructor|]. by apply insertWith_sorted.
Qed.

Lemma above_spec t s : above t s = true ↔ t < s.
Proof. unfold above. by destruct (Rlt_dec t s). Qed.

Lemma elem_of_values (keys : list string) (table : gmap string HighRisk) item :
  (∀ k, k ∈ keys ↔ is_Some (table !! k)) →
  item ∈ omap (λ k, table !! k) keys ↔ ∃ k, table !! k = Some item.
Proof.
  intros Hkeys. rewrite list_elem_of_omap. split.
  - intros (k & _ & Hk). by exists k.
  - intros (k & Hk). exists k. split; [|done]. apply Hkeys. by eexists.
Qed.

Lemma elem_of_highRiskMembers rs F item :
  item ∈ highRiskMembers rs F ↔
  (∃ k s0 rest m,
     scoresOf k rs = s0 :: rest ∧ findMember F k = Some m
     ∧ item = mkHighRisk m (foldl Rmax s0 rest)
                (length (List.filter (above 0.3) (s0 :: rest))))
  ∧ 0.3 < maxRisk item.
Proof.
  unfold highRiskMembers. pose proof (MapInv_fold F rs) as Hinv.
  destruct (foldl (riskMapStep F) ([], ∅) rs) as [keys table].
  destruct Hinv as (_ & Hkeys & Htab). cbn [fst snd] in *.
  rewrite sortWith_perm, LayoutFacts.elem_of_List_filter, above_spec.
  rewrite (elem_of_values keys table item Hkeys).
  split; intros [H Habove]; (split; [|done]).
  - destruct H as [k Hk]. rewrite Htab in Hk.
    destruct (scoresOf k rs) as [|s0 rest] eqn:Hsc; [done|].
    destruct (findMember F k) as [m|] eqn:Hm; [|done].
    injection Hk as <-. by exists k, s0, rest, m.
  - destruct H as (k & s0 & rest & m & Hsc & Hm & ->).
    exists k. by rewrite Htab, Hsc, Hm.
Qed.

Lemma highRiskMembers_sorted rs F :
  StronglySorted (λ a b, maxRisk b <= maxRisk a) (highRiskMembers rs F).
Proof.
  unfold highRiskMembers. destruct (foldl _ _ _). apply sortWith_sorted.
Qed.

Lemma findMember_unique F m :
  NoDup (FamilyMember.id <$> F) → m ∈ F →
  findMember F (FamilyMember.id m) = Some m.
Proof.
  intros Hnd Hm. unfold findMember.
  destruct (List.find _ F) as [m'|] eqn:Hfind.
  - apply find_some in Hfind as [Hin Heq]. apply String.eqb_eq in Heq.
    f_equal. apply (NoDup_fmap_eq FamilyMember.id F); [done| |done|done].
    by apply list_elem_of_In.
  - pose proof (find_none _ _ Hfind m) as Hnone. cbn in Hnone.
    rewrite String.eqb_refl in Hnone.
    by specialize (Hnone (proj1 (list_elem_of_In _ _) Hm)).
Qed.

Lemma findMember_fmap (g : FamilyMember.t → FamilyMember.t) F k :
  (∀ m, FamilyMember.id (g m) = FamilyMember.id m) →
  findMember (g <$> F) k = g <$> findMember F k.
Proof.
  intros Hg. unfold findMember. induction F as [|m F IH]; [done|]. cbn.
  rewrite Hg. by destruct (String.eqb _ k).
Qed.

(** X25. The list of members at risk is sorted by the largest score,
    highest first, and holds entries above 0.3 only.  With distinct ids a
    member of the family is listed exactly when one of its scores is above
    0.3; its entry then carries the largest of its scores and the number
    of its scores above 0.3. *)
Theorem high_risk_members ms ds :
  NoDup (FamilyMember.id <$> ms) →
  let hr :=
    highRiskMembers (riskAnalysis ms ds).1 (riskAnalysis ms ds).2 in
  let score m d := riskScore (calculateMemberDiseaseRisk ms m d (slotMap ms)) in
  StronglySorted (λ a b, maxRisk b <= maxRisk a) hr
  ∧ (∀ item, item ∈ hr → 0.3 < maxRisk item)
  ∧ ∀ m, m ∈ ms →
      ((∃ item, item ∈ hr
                ∧ FamilyMember.id (member item) = FamilyMember.id m)
       ↔ ∃ d, d ∈ ds ∧ 0.3 < score m d)
      ∧ ∀ item, item ∈ hr →
          FamilyMember.id (member item) = FamilyMember.id m →
          (∀ d, d ∈ ds → score m d <= maxRisk item)
          ∧ (∃ d, d ∈ ds ∧ maxRisk item = score m d)
          ∧ riskCount item
            = length (List.filter (λ d, above 0.3 (score m d)) ds).
Proof.
  intros Hnd hr score.
  split; [apply highRiskMembers_sorted|].
  split; [by intros item [_ ?]%elem_of_highRiskMembers|].
  intros m Hm. subst hr. unfold riskAnalysis.
  assert ((length ms =? 0)%nat = false) as ->.
  { clear -Hm. destruct ms; [by apply elem_of_nil in Hm|done]. }
  rewrite calculateFamilyRisks_spec. cbn [fst snd].
  set (rs := ds ≫= λ d, riskOf ms d <$> ms).
  set (g := λ m, FamilyMember.set_riskScores (scoresFrom ms ds m ∅) m).
  assert (Hfind : ∀ m', m' ∈ ms →
            findMember (g <$> ms) (FamilyMember.id m') = Some (g m')).
  { intros m' Hm'. rewrite findMember_fmap by done.
    by rewrite findMember_unique. }
  assert (Hscores : scoresOf (FamilyMember.id m) rs = score m <$> ds).
  { unfold scoresOf, rs. rewrite risks_of_member by done.
    by rewrite <- list_fmap_compose. }
  assert (Hentry : ∀ item,
            item ∈ highRiskMembers rs (g <$> ms) →
            FamilyMember.id (member item) = FamilyMember.id m →
            ∃ s0 rest, score m <$> ds = s0 :: rest
              ∧ maxRisk item = foldl Rmax s0 rest
              ∧ riskCount item
                = length (List.filter (above 0.3) (s0 :: rest))).
  { intros item [(k & s0 & rest & m' & Hsc & Hm' & ->) _]%elem_of_highRiskMembers
      Hid. cbn in Hid.
    apply findMember_id in Hm'. assert (k = FamilyMember.id m) as -> by congruence.
    rewrite Hscores in Hsc. by exists s0, rest. }
  split; [split|].
  - intros (item & Hitem & Hid).
    destruct (Hentry item Hitem Hid) as (s0 & rest & Hsc & Hmax & _).
    apply elem_of_highRiskMembers in Hitem as [_ Habove].
    pose proof (BoxFacts.Math_max_elem rest s0) as Hin.
    unfold TreeLayoutEngine.Math_max in Hin.
    rewrite <- Hmax, <- Hsc in Hin.
    apply list_elem_of_fmap in Hin as (d & Hd & Hin). exists d.
    split; [done|]. by rewrite <- Hd.
  - intros (d & Hd & Habove).
    destruct (score m <$> ds) as [|s0 rest] eqn:Hsc.
    { apply fmap_nil_inv in Hsc. subst. by apply elem_of_nil in Hd. }
    exists (mkHighRisk (g m) (foldl Rmax s0 rest)
              (length (List.filter (above 0.3) (s0 :: rest)))).
    split; [|done]. apply elem_of_highRiskMembers. split.
    + exists (FamilyMember.id m), s0, rest, (g m).
      split; [by rewrite Hscores|]. split; [by apply Hfind|done].
    + cbn. destruct (BoxFacts.Math_max_ge rest s0) as [H0 Hrest].
      unfold TreeLayoutEngine.Math_max in *.
      assert (score m d ∈ s0 :: rest) as Hin.
      { rewrite <- Hsc. by apply list_elem_of_fmap_2. }
      apply elem_of_cons in Hin as [Heq|Hin]; [lra|].
      specialize (Hrest _ Hin). lra.
  - intros item Hitem Hid.
    destruct (Hentry item Hitem Hid) as (s0 & rest & Hsc & Hmax & Hcount).
    destruct (BoxFacts.Math_max_ge rest s0) as [H0 Hrest].
    pose proof (BoxFacts.Math_max_elem rest s0) as Hin.
    unfold TreeLayoutEngine.Math_max in *.
    split; [|split].
    + intros d Hd. rewrite Hmax.
      assert (score m d ∈ s0 :: rest) as Hin'.
      { rewrite <- Hsc. by apply list_elem_of_fmap_2. }
      apply elem_of_cons in Hin' as [->|Hin']; [done|by apply Hrest].
    + rewrite <- Hmax, <- Hsc in Hin.
      apply list_elem_of_fmap in Hin as (d & Hd & Hin). by exists d.
    + rewrite Hcount, <- Hsc. clear.
      induction ds as [|d ds IH]; [done|]. cbn.
      destruct (above 0.3 (score m d)); cbn; by rewrite IH.
Qed.

Lemma high_risk_members_witness :
  StronglySorted (λ a b, maxRisk b <= maxRisk a)
    (highRiskMembers (riskAnalysis Sample.family Sample.catalog).1
                     (riskAnalysis Sample.family Sample.catalog).2).
Proof.
  refine (proj1 (high_risk_members Sample.family Sample.catalog _)).
  apply (proj1 (bool_decide_eq_true
                  (NoDup (FamilyMember.id <$> Sample.family)))).
  vm_compute. reflexivity.
Defined.

End PanelFacts.

(** ** Deleting a member *)

Module AppFacts.
Import GeneticSimulator RiskSpec RiskFacts RiskMore App.
Local Open Scope R_scope.

Lemma elem_of_handleDeleteMember memberId state m :
  m ∈ familyMembers (handleDeleteMember memberId state)
  ↔ m ∈ familyMembers state ∧ FamilyMember.id m ≠ memberId.
Proof.
  cbn. rewrite LayoutFacts.elem_of_List_filter, negb_true_iff.
  by rewrite String.eqb_neq.
Qed.

(** X26. Deleting a member removes the member objects with that id and
    nothing else: the other members stay as they are, in their order, and
    still list the deleted id among their parents and children.  The risk
    engine then ignores it: a member who is not diagnosed and whose other
    parent ids belong to no member gets the population score. *)
Theorem deleted_parent_is_ignored memberId state ds i j m d :
  let members := familyMembers (handleDeleteMember memberId state) in
  members !! i = Some m → ds !! j = Some d →
  (∀ pid, pid ∈ FamilyMember.parentIds m →
     pid = memberId ∨ pid ∉ FamilyMember.id <$> familyMembers state) →
  Disease.id d ∉ Disease.id <$> FamilyMember.diseases m →
  (∀ m', m' ∈ members
         ↔ m' ∈ familyMembers state ∧ FamilyMember.id m' ≠ memberId)
  ∧ members `sublist_of` familyMembers state
  ∧ ∃ g, (calculateFamilyRisks members ds).1 !! (j * length members + i)%nat
         = Some g
       ∧ riskScore g = Rmin (Disease.prevalence d * Disease.penetrance d) 0.95
       ∧ inheritancePattern g = "population".
Proof.
  intros members Hm Hd Hp Hna.
  split; [intros m'; apply elem_of_handleDeleteMember|]. split.
  { subst members. cbn. generalize (familyMembers state) as l.
    induction l as [|a l IH]; cbn; [constructor|].
    destruct (negb _); by constructor. }
  apply isAffected_false in Hna.
  rewrite calculateFamilyRisks_spec. cbn [fst].
  rewrite (bind_fmap_lookup (riskOf members) ds members j i d m) by done.
  eexists. split; [done|].
  unfold riskOf, calculateMemberDiseaseRisk.
  rewrite Hna, (resolveParents_dangling members m); [done|].
  intros pid Hpid (m' & -> & Hm')%list_elem_of_fmap.
  apply elem_of_handleDeleteMember in Hm' as [Hin Hne].
  destruct (Hp _ Hpid) as [?|Hnot]; [done|].
  apply Hnot. by apply list_elem_of_fmap_2.
Qed.

Lemma deleted_parent_is_ignored_witness :
  ∃ g, (calculateFamilyRisks
          (familyMembers
             (handleDeleteMember "c" (mkState Sample.blended None)))
          Sample.catalog).1 !! (0 * 3 + 1)%nat = Some g
       ∧ riskScore g = Rmin (0.0002 * 0.9) 0.95
       ∧ inheritancePattern g = "population".
Proof.
  refine (proj2 (proj2 (deleted_parent_is_ignored "c"
    (mkState Sample.blended None) Sample.catalog 1 0
    (Sample.person "b" male ["c"] ["p"] []) Sample.marfan _ _ _ _))).
  - reflexivity.
  - reflexivity.
  - intros pid Hpid. left. cbn in Hpid. set_solver.
  - cbn. set_solver.
Defined.

End AppFacts.

(** ** Properties of the auto-save manager *)

Module SaveFacts.
Import AutoSave SaveTerms.
Local Open Scope R_scope.

(** *** [parseInt] reads back what [toString] wrote *)

Lemma pretty_N_char_digit d :
  (d < 10)%N →
  isDigit (pretty_N_char d) ∧ digitValue 10 (pretty_N_char d) = Some d.
Proof.
  intros Hd. unfold isDigit.
  assert (d = 0 ∨ d = 1 ∨ d = 2 ∨ d = 3 ∨ d = 4 ∨ d = 5 ∨ d = 6 ∨ d = 7
          ∨ d = 8 ∨ d = 9)%N as Hcases by lia.
  repeat (destruct Hcases as [->|Hcases]; [vm_compute; intuition congruence|]).
  subst. vm_compute. intuition congruence.
Qed.

Lemma pretty_N_go_digits x : ∀ s,
  Forall isDigit (String.list_ascii_of_string s) →
  Forall isDigit (String.list_ascii_of_string (pretty_N_go x s)).
Proof.
  induction (N.lt_wf_0 x) as [x _ IH]. intros s Hs.
  destruct (decide (x = 0)%N) as [->|Hx]; [by rewrite pretty_N_go_0|].
  rewrite pretty_N_go_step by lia. apply IH.
  - apply N.div_lt; lia.
  - cbn. constructor; [|done].
    apply pretty_N_char_digit, N.mod_lt. lia.
Qed.

Lemma parseDigits_pretty x : ∀ s acc,
  (0 < x)%N →
  ∃ m, parseDigits 10 acc (String.list_ascii_of_string (pretty_N_go x s))
       = parseDigits 10 (Some (default 0 acc * m + x)%N)
                     (String.list_ascii_of_string s).
Proof.
  induction (N.lt_wf_0 x) as [x _ IH]. intros s acc Hx.
  rewrite pretty_N_go_step by done.
  pose proof (N.div_mod x 10 ltac:(lia)) as Hdm.
  pose proof (N.mod_lt x 10 ltac:(lia)) as Hlt.
  destruct (pretty_N_char_digit _ Hlt) as [_ Hval].
  destruct (decide (x `div` 10 = 0)%N) as [H0|Hne].
  - rewrite H0, pretty_N_go_0. cbn. rewrite Hval. exists 10%N.
    do 2 f_equal. lia.
  - destruct (IH (x `div` 10)%N ltac:(apply N.div_lt; lia)
                (String (pretty_N_char (x `mod` 10)) s) acc ltac:(lia))
      as [m Hm].
    rewrite Hm. cbn. rewrite Hval. exists (m * 10)%N. cbn.
    do 2 f_equal. lia.
Qed.

Lemma isDigit_plain c :
  isDigit c →
  isWhiteSpace c = false
  ∧ (Ascii.N_of_ascii c =? 45)%N = false
  ∧ (Ascii.N_of_ascii c =? 43)%N = false
  ∧ (Ascii.N_of_ascii c =? 120)%N = false
  ∧ (Ascii.N_of_ascii c =? 88)%N = false.
Proof.
  unfold isDigit, isWhiteSpace. intros Hc.
  repeat split; try (apply N.eqb_neq; lia).
  apply orb_false_iff. split; [|apply N.eqb_neq; lia].
  apply andb_false_iff. right. apply N.leb_gt. lia.
Qed.

Lemma parseInt_digits sign (l : list Ascii.ascii) n :
  Forall isDigit l → parseDigits 10 None l = Some n →
  (let input := l in
   let '(radix, input) :=
     match input with
     | c0 :: c1 :: rest =>
         if ((Ascii.N_of_ascii c0 =? 48)
             && ((Ascii.N_of_ascii c1 =? 120) || (Ascii.N_of_ascii c1 =? 88)))%N
         then (16%N, rest) else (10%N, input)
     | _ => (10%N, input)
     end in
   (λ n, sign * Z.of_N n)%Z <$> parseDigits radix None input)
  = Some (sign * Z.of_N n)%Z.
Proof.
  intros Hl Hn. cbn zeta.
  destruct l as [|c0 [|c1 rest]]; [by rewrite Hn..|].
  apply Forall_cons in Hl as [_ Hl]. apply Forall_cons in Hl as [H1 _].
  destruct (isDigit_plain c1 H1) as (_ & _ & _ & -> & ->).
  rewrite andb_false_r. by rewrite Hn.
Qed.

Lemma parseInt_pretty_pos p :
  Forall isDigit (String.list_ascii_of_string (pretty (Npos p)))
  ∧ parseDigits 10 None (String.list_ascii_of_string (pretty (Npos p)))
    = Some (Npos p).
Proof.
  unfold pretty, pretty_N. rewrite decide_False by done. split.
  - apply pretty_N_go_digits. constructor.
  - destruct (parseDigits_pretty (Npos p) "" None ltac:(lia)) as [m ->].
    done.
Qed.

Lemma parseInt_pretty (t : Z) : parseInt (pretty t) = Some t.
Proof.
  destruct t as [|p|p]; [done| |].
  - destruct (parseInt_pretty_pos p) as [Hd Hv].
    change (pretty (Z.pos p)) with (pretty (Npos p)).
    unfold parseInt.
    destruct (String.list_ascii_of_string (pretty (Npos p)))
      as [|c rest] eqn:Hl; [done|].
    pose proof Hd as Hd'. apply Forall_cons in Hd' as [Hc _].
    destruct (isDigit_plain c Hc) as (Hw & Hm & Hp & _).
    cbn [skipWhiteSpace]. rewrite Hw, Hm, Hp.
    exact (parseInt_digits 1 (c :: rest) (Npos p) Hd Hv).
  - destruct (parseInt_pretty_pos p) as [Hd Hv].
    change (pretty (Z.neg p)) with ("-" +:+ pretty (Npos p)).
    remember (pretty (Npos p)) as str eqn:Hstr. clear Hstr.
    exact (parseInt_digits (-1) _ (Npos p) Hd Hv).
Qed.

Lemma pretty_Z_nonempty (t : Z) : String.eqb (pretty t) "" = false.
Proof.
  destruct (String.eqb_spec (pretty t) "") as [Heq|]; [|done].
  pose proof (parseInt_pretty t) as H. by rewrite Heq in H.
Qed.

Section Environment.
Context (JSON_parse : string → option Json).
Context (JSON_stringify : Json → string).
Context (toJson : FamilyMember.t → Json).

(** X27. After [clearSavedData] the manager reports no saved session:
    nothing loads, no save is recent at any age limit, there is no time of
    a last save, the recovery dialog has nothing to offer, and a family
    counts as unsaved exactly when it is not empty. *)
Theorem cleared_storage_reports_nothing maxAgeMinutes now members this :
  let this' := clearSavedData this in
  loadSavedData JSON_parse this' = None
  ∧ hasRecentSave maxAgeMinutes now this' = false
  ∧ getLastSaveTime this' = None
  ∧ getSessionRecoveryInfo JSON_parse now this'
    = mkSessionRecoveryInfo false None 0 false
  ∧ hasUnsavedChanges JSON_parse JSON_stringify toJson members this'
    = (0 <? length members)%nat
  ∧ inSync this'.
Proof.
  intros this'.
  assert (Hkey : storage this' !! AUTO_SAVE_KEY = None).
  { unfold this', clearSavedData. cbn.
    rewrite lookup_delete_ne by done. apply lookup_delete_eq. }
  assert (Hts : storage this' !! AUTO_SAVE_TIMESTAMP_KEY = None).
  { unfold this', clearSavedData. cbn. apply lookup_delete_eq. }
  assert (Hload : loadSavedData JSON_parse this' = None).
  { unfold loadSavedData. by rewrite Hkey. }
  assert (Hrecent : ∀ m, hasRecentSave m now this' = false).
  { intros m. unfold hasRecentSave. by rewrite Hts. }
  assert (Htime : getLastSaveTime this' = None).
  { unfold getLastSaveTime. by rewrite Hts. }
  split; [done|]. split; [done|]. split; [done|]. split; [|split].
  - unfold getSessionRecoveryInfo, getSaveInfo.
    rewrite Hload, Htime, Hrecent. done.
  - unfold hasUnsavedChanges. by rewrite Hload.
  - by left.
Qed.

(** X28. After a [saveData] that writes (the data string is not the one
    saved last) at a time [t] that a [Date] can hold, the storage holds the
    data string, the time of the last save reads back as [t], and the save
    counts as recent exactly while [now - t <= maxAgeMinutes * 60 * 1000]. *)
Theorem saved_session_is_recent maxAgeMinutes now t members this :
  (Z.abs t <= 8640000000000000)%Z →
  JSON_stringify (saveObject toJson members t) ≠ lastSaveData this →
  let this' := saveData JSON_stringify toJson t members this in
  storage this' !! AUTO_SAVE_KEY
  = Some (JSON_stringify (saveObject toJson members t))
  ∧ getLastSaveTime this' = Some (Some t)
  ∧ (hasRecentSave maxAgeMinutes now this' = true
     ↔ IZR (now - t) <= maxAgeMinutes * 60 * 1000)
  ∧ inSync this'.
Proof.
  intros Ht Hne this'.
  assert (Hthis : this'
            = mkManager
                (<[AUTO_SAVE_TIMESTAMP_KEY := pretty t]>
                   (<[AUTO_SAVE_KEY :=
                        JSON_stringify (saveObject toJson members t)]>
                      (storage this)))
                (JSON_stringify (saveObject toJson members t))).
  { unfold this', saveData.
    by rewrite (proj2 (String.eqb_neq _ _) Hne). }
  assert (Hkey : storage this' !! AUTO_SAVE_KEY
                 = Some (JSON_stringify (saveObject toJson members t))).
  { rewrite Hthis. cbn. rewrite lookup_insert_ne by done.
    apply lookup_insert_eq. }
  assert (Hts : storage this' !! AUTO_SAVE_TIMESTAMP_KEY = Some (pretty t)).
  { rewrite Hthis. cbn. apply lookup_insert_eq. }
  split; [done|]. split; [|split].
  - unfold getLastSaveTime.
    rewrite Hts, pretty_Z_nonempty, parseInt_pretty. cbn.
    by rewrite (proj2 (Z.leb_le _ _) Ht).
  - unfold hasRecentSave.
    rewrite Hts, pretty_Z_nonempty, parseInt_pretty.
    by destruct (Rle_dec _ _).
  - right. rewrite Hkey. by rewrite Hthis.
Qed.

(** X29. What is saved is what loads, for a data string that
    [JSON.parse] reads back and a manager in step with the storage: after
    [saveData], [loadSavedData] returns the saved object, the same family
    has no unsaved change, and the recovery dialog counts its members. *)
Theorem saved_session_loads now t members this :
  let data := saveObject toJson members t in
  JSON_parse (JSON_stringify data) = Some data →
  JSON_stringify data ≠ "" →
  inSync this →
  let this' := saveData JSON_stringify toJson t members this in
  loadSavedData JSON_parse this' = Some data
  ∧ hasUnsavedChanges JSON_parse JSON_stringify toJson members this' = false
  ∧ hasRecoverableData (getSessionRecoveryInfo JSON_parse now this') = true
  ∧ memberCount (getSessionRecoveryInfo JSON_parse now this')
    = length members
  ∧ inSync this'.
Proof.
  intros data Hparse Hne Hsync this'.
  assert (Hkey : storage this' !! AUTO_SAVE_KEY = Some (JSON_stringify data)
                 ∧ lastSaveData this' = JSON_stringify data).
  { unfold this', saveData. fold data.
    destruct (String.eqb_spec (JSON_stringify data) (lastSaveData this))
      as [Heq|Hneq]; cbn.
    - split; [|done]. destruct Hsync as [H0|Hs]; [congruence|].
      by rewrite Heq.
    - split; [|done]. rewrite lookup_insert_ne by done.
      apply lookup_insert_eq. }
  destruct Hkey as [Hkey Hlast].
  assert (Hload : loadSavedData JSON_parse this' = Some data).
  { unfold loadSavedData.
    rewrite Hkey, (proj2 (String.eqb_neq _ _) Hne), Hparse. done. }
  split; [done|]. split; [|split; [|split]].
  - unfold hasUnsavedChanges. rewrite Hload. cbn.
    by rewrite String.eqb_refl.
  - unfold getSessionRecoveryInfo, getSaveInfo. rewrite Hload. done.
  - unfold getSessionRecoveryInfo. rewrite Hload. cbn.
    apply length_fmap.
  - right. by rewrite Hkey, Hlast.
Qed.

End Environment.

Lemma saved_session_is_recent_witness :
  hasRecentSave 60 1000
    (saveData (λ _, "data") (λ _, JNull) 0 [] (mkManager ∅ "")) = true
  ↔ IZR (1000 - 0) <= 60 * 60 * 1000.
Proof.
  refine (proj1 (proj2 (proj2
    (saved_session_is_recent (λ _, "data") (λ _, JNull) 60 1000 0 []
       (mkManager ∅ "") _ _)))).
  - cbn. lia.
  - discriminate.
Defined.

Lemma saved_session_loads_witness :
  loadSavedData (λ _, Some (saveObject (λ _, JNull) [] 0))
    (saveData (λ _, "data") (λ _, JNull) 0 [] (mkManager ∅ ""))
  = Some (saveObject (λ _, JNull) [] 0).
Proof.
  refine (proj1 (saved_session_loads
    (λ _, Some (saveObject (λ _, JNull) [] 0)) (λ _, "data") (λ _, JNull)
    0 0 [] (mkManager ∅ "") _ _ _)).
  - reflexivity.
  - discriminate.
  - by left.
Defined.

End SaveFacts.

(** ** What the risk engine reads of a member *)

Module RiskFrame.
Import GeneticSimulator RiskSpec RiskTerms RiskFacts RiskMore.
Local Open Scope R_scope.

Lemma sameCore_ids ms ms' :
  Forall2 sameCore ms ms' →
  FamilyMember.id <$> ms = FamilyMember.id <$> ms'.
Proof.
  induction 1 as [|m m' ms ms' (Hid & _) _ IH]; [done|]. cbn. by f_equal.
Qed.

Lemma sameCore_lookup ms ms' a :
  Forall2 sameCore ms ms' →
  option_Forall2 sameTraits (ms !! a) (ms' !! a).
Proof.
  intros H. revert a. induction H as [|m m' ms ms' (_ & _ & Ht) _ IH];
    intros [|a]; cbn; try constructor; [done|apply IH].
Qed.

Lemma riskOf_core ms ms' d m m' :
  Forall2 sameCore ms ms' → sameCore m m' →
  riskOf ms d m = riskOf ms' d m'.
Proof.
  intros Hms (Hid & Hpar & Ht). unfold riskOf.
  assert (Hparents : Forall2 sameTraits
            (resolveParents ms (slotMap ms) m)
            (resolveParents ms' (slotMap ms') m')).
  { unfold resolveParents.
    rewrite <- Hpar, <- (slotMap_ids ms ms' (sameCore_ids ms ms' Hms)).
    apply Forall2_omap. intros pid _.
    destruct (slotMap ms !! pid) as [a|]; cbn; [|constructor].
    by apply sameCore_lookup. }
  unfold calculateMemberDiseaseRisk.
  rewrite <- (isAffected_traits d m m' Ht), <- Hid.
  destruct (isAffected d m); [done|].
  rewrite <- (Forall2_length _ _ _ Hparents).
  rewrite <- (calculateParentalRisk_traits _ _ d _ Hparents).
  by destruct Ht as [-> _].
Qed.

(** X30. What the scores depend on.  The risk engine reads four things of
    a member: the id, the sex, the parent ids and the ids of the diagnosed
    diseases.  Two families that agree on these, member by member, get the
    same [memberId], [diseaseId], [riskScore] and [inheritancePattern] in
    every risk record and the same [riskScores] in every member; names,
    ages, [childrenIds], generations, positions and the [riskScores] of
    before play no part in them. *)
Theorem scores_read_four_fields ms ms' ds :
  Forall2 sameCore ms ms' →
  let out := calculateFamilyRisks ms ds in
  let out' := calculateFamilyRisks ms' ds in
  Forall2 (λ g g', memberId g = memberId g' ∧ diseaseId g = diseaseId g'
                   ∧ riskScore g = riskScore g'
                   ∧ inheritancePattern g = inheritancePattern g')
          out.1 out'.1
  ∧ FamilyMember.riskScores <$> out.2 = FamilyMember.riskScores <$> out'.2.
Proof.
  intros Hms out out'. subst out out'.
  rewrite !calculateFamilyRisks_spec. cbn [fst snd]. split.
  - assert ((d ← ds; riskOf ms d <$> ms) = (d ← ds; riskOf ms' d <$> ms'))
      as ->.
    { apply list_bind_ext; [|done]. intros d.
      apply list_eq. intros i. rewrite !list_lookup_fmap.
      pose proof (proj1 (Forall2_lookup _ _ _) Hms i) as Hi.
      destruct Hi as [m m' Hcore|]; [|done]. cbn. f_equal.
      by apply riskOf_core. }
    apply Forall_Forall2_diag, Forall_forall. done.
  - rewrite <- !list_fmap_compose.
    apply list_eq. intros i. rewrite !list_lookup_fmap.
    pose proof (proj1 (Forall2_lookup _ _ _) Hms i) as Hi.
    destruct Hi as [m m' Hcore|]; [|done]. cbn. f_equal.
    rewrite !scoresFrom_insertAll. unfold insertAll.
    generalize (∅ : gmap string R).
    induction ds as [|d ds IH]; intros rs; [done|]. cbn.
    rewrite (riskOf_core ms ms' d m m' Hms Hcore). apply IH.
Qed.

Lemma scores_read_four_fields_witness :
  FamilyMember.riskScores
    <$> (calculateFamilyRisks
           [FamilyMember.mk "son" "Renamed" 30 male ["father"; "mother"]
              ["x"] [] ∅ (mkPosition3D 1 2 3) 7]
           Sample.catalog).2
  = FamilyMember.riskScores
      <$> (calculateFamilyRisks [Sample.son] Sample.catalog).2.
Proof.
  refine (proj2 (scores_read_four_fields
           [FamilyMember.mk "son" "Renamed" 30 male ["father"; "mother"] ["x"]
              [] ∅ (mkPosition3D 1 2 3) 7]
           [Sample.son] Sample.catalog _)).
  repeat constructor.
Defined.

End RiskFrame.
